(** * Feature-model analyser (fm-backend/server.py): a shallow embedding

    The development follows the Python module top to bottom: the
    [FeatureModel] object and its variable registry, the XML reader
    [parse_xml], the CNF compiler [generate_rules_and_cnf], the
    enumerator [find_mwps] with its minimality filter, and the selection
    validator [validate_selection].  The SAT solver (pysat's Glucose3) is
    an external collaborator: it enters as an interface ([Oracle]) with
    laws ([OracleLaws]), and a brute-force instance shows the laws can be
    met and lets the model run on concrete inputs. *)

From Stdlib Require Import ZArith Lia Ascii String.
From stdpp Require Import base option list strings gmap sets.

Open Scope Z_scope.

(** ** Python values used by the module *)

(** [sub in s] on strings. *)
Fixpoint str_in (sub s : string) : bool :=
  String.prefix sub s ||
  match s with
  | EmptyString => false
  | String _ s' => str_in sub s'
  end.

(** [str.lower] and [str.upper].  Only the ASCII letters are mapped; the
    results are compared with ["true"], ["XOR"] and ["OR"] only, and no
    character outside ASCII lower- or upper-cases to a letter of these. *)
Definition lower_ascii (c : ascii) : ascii :=
  let n := nat_of_ascii c in
  if ((65 <=? n) && (n <=? 90))%nat then ascii_of_nat (n + 32) else c.

Definition upper_ascii (c : ascii) : ascii :=
  let n := nat_of_ascii c in
  if ((97 <=? n) && (n <=? 122))%nat then ascii_of_nat (n - 32) else c.

Fixpoint str_map (f : ascii → ascii) (s : string) : string :=
  match s with
  | EmptyString => EmptyString
  | String c s' => String (f c) (str_map f s')
  end.

Definition lower : string → string := str_map lower_ascii.
Definition upper : string → string := str_map upper_ascii.

(** A value that is a [str] or [None]: a parent reference, the result of
    [dict.get], an element of a set of names. *)
Abbreviation pyname := (option string).

(** Truth value of a [str]-or-[None] in a condition: [None] and the empty
    string are false. *)
Definition truthy (o : pyname) : bool :=
  match o with
  | None => false
  | Some s => negb (String.eqb s "")
  end.

(** [itertools.combinations(l, 2)]. *)
Fixpoint combinations2 {A} (l : list A) : list (A * A) :=
  match l with
  | [] => []
  | x :: xs => map (pair x) xs ++ combinations2 xs
  end.

(** ** The data model *)

(** The dict built by [parse_feature]. *)
#[warnings="-register-all"]
Inductive Feature : Type := mkFeature {
  name : string;
  mandatory : bool;
  parent : pyname;
  children : list Feature;
  group : pyname
}.

(** An entry of [self.constraints]. *)
Record Constraint : Type := mkConstraint {
  englishStatement : string;
  type : string
}.

(** A clause of signed variable numbers, and [cnf.clauses]. *)
Abbreviation clause := (list Z).
Abbreviation CNF := (list (list Z)).

(** The [FeatureModel] object.  [features] is a dict in insertion order;
    [root] is absent until [parse_xml] has set it. *)
Record FeatureModel : Type := mkModel {
  features : list (string * Feature);
  constraints : list Constraint;
  var_map : gmap string Z;
  reverse_map : gmap Z string;
  next_var : Z;
  logic_rules : list string;
  root : option Feature
}.

(** [FeatureModel.__init__] *)
Definition init : FeatureModel :=
  {| features := []; constraints := []; var_map := ∅; reverse_map := ∅;
     next_var := 1; logic_rules := []; root := None |}.

(** [get_var] *)
Definition get_var (nm : string) (fm : FeatureModel) : Z * FeatureModel :=
  match var_map fm !! nm with
  | Some v => (v, fm)
  | None =>
      (next_var fm,
       {| features := features fm; constraints := constraints fm;
          var_map := <[nm := next_var fm]> (var_map fm);
          reverse_map := <[next_var fm := nm]> (reverse_map fm);
          next_var := next_var fm + 1;
          logic_rules := logic_rules fm; root := root fm |})
  end.

(** [get_name] *)
Definition get_name (fm : FeatureModel) (var : Z) : pyname :=
  reverse_map fm !! Z.abs var.

(** ** The CNF compiler *)

(** [add_rule], the closure of [generate_rules_and_cnf]. *)
Definition add_rule (rule : string) (fm : FeatureModel) : FeatureModel :=
  {| features := features fm; constraints := constraints fm;
     var_map := var_map fm; reverse_map := reverse_map fm;
     next_var := next_var fm;
     logic_rules := logic_rules fm ++ [rule]; root := root fm |}.

(** [[self.get_var(n) for n in names]] *)
Fixpoint get_vars (names : list string) (fm : FeatureModel)
  : list Z * FeatureModel :=
  match names with
  | [] => ([], fm)
  | n :: ns =>
      let '(v, fm) := get_var n fm in
      let '(vs, fm) := get_vars ns fm in
      (v :: vs, fm)
  end.

(** The mutual-exclusion loop of an XOR group. *)
Fixpoint exclude_pairs (pairs : list (string * string))
    (st : FeatureModel * CNF) : FeatureModel * CNF :=
  match pairs with
  | [] => st
  | (c1, c2) :: rest =>
      let '(fm, cnf) := st in
      let fm := add_rule ("¬(" +:+ c1 +:+ " ∧ " +:+ c2 +:+ ")") fm in
      let '(v1, fm) := get_var c1 fm in
      let '(v2, fm) := get_var c2 fm in
      exclude_pairs rest (fm, cnf ++ [[- v1; - v2]])
  end.

(** The three blocks of [process_feature]'s body, in source order. *)

(** [# Root]: a feature whose [parent] is falsy. *)
Definition root_step (feature : Feature) (var : Z)
    (st : FeatureModel * CNF) : FeatureModel * CNF :=
  let '(fm, cnf) := st in
  if negb (truthy (parent feature))
  then (add_rule (name feature) fm, cnf ++ [[var]])
  else (fm, cnf).

(** [# Parent-child relationships]: a feature whose [parent] is truthy. *)
Definition edge_step (feature : Feature) (var : Z)
    (st : FeatureModel * CNF) : FeatureModel * CNF :=
  let '(fm, cnf) := st in
  if truthy (parent feature) then
    let nm := name feature in
    let p := default "" (parent feature) in
    let '(parent_var, fm) := get_var p fm in
    if mandatory feature then
      (add_rule (nm +:+ " → " +:+ p) (add_rule (p +:+ " → " +:+ nm) fm),
       cnf ++ [[- parent_var; var]] ++ [[- var; parent_var]])
    else
      (add_rule (nm +:+ " → " +:+ p) fm, cnf ++ [[- var; parent_var]])
  else (fm, cnf).

(** [# XOR groups] and [# OR groups]. *)
Definition group_step (feature : Feature) (var : Z)
    (st : FeatureModel * CNF) : FeatureModel * CNF :=
  let '(fm, cnf) := st in
  let nm := name feature in
  if bool_decide (group feature = Some "XOR") then
    let child_names := map name (children feature) in
    let '(child_vars, fm) := get_vars child_names fm in
    let fm :=
      add_rule (nm +:+ " → (" +:+ String.concat " ∨ " child_names +:+ ")") fm in
    exclude_pairs (combinations2 child_names)
                  (fm, cnf ++ [- var :: child_vars])
  else if bool_decide (group feature = Some "OR") then
    let child_names := map name (children feature) in
    let '(child_vars, fm) := get_vars child_names fm in
    (add_rule (nm +:+ " → (" +:+ String.concat " ∨ " child_names +:+ ")") fm,
     cnf ++ [- var :: child_vars])
  else (fm, cnf).

(** [process_feature], the recursive closure.  The state is the model
    object together with the local [cnf]. *)
Fixpoint process_feature (feature : Feature) (st : FeatureModel * CNF)
  {struct feature} : FeatureModel * CNF :=
  let '(var, fm) := get_var (name feature) st.1 in
  let st := root_step feature var (fm, st.2) in
  let st := edge_step feature var st in
  let st := group_step feature var st in
  fold_left (fun st child => process_feature child st)
            (children feature) st.

(** Exceptions the module can raise. *)
Inductive exn : Type :=
  | KeyError (key : string)
  | AttributeError (attr : string)
  | TypeError
  | ParseError.

Inductive result (A : Type) : Type :=
  | Ok (a : A)
  | Raise (e : exn).
Arguments Ok {A} a.
Arguments Raise {A} e.

(** One turn of the [# Process constraints] loop. *)
Definition constraint_step (st : FeatureModel * CNF) (constraint : Constraint)
  : FeatureModel * CNF :=
  let '(fm, cnf) := st in
  if String.eqb (type constraint) "requires" then
    if str_in "filter" (englishStatement constraint) then
      let fm := add_rule "Location → ByLocation" fm in
      let '(by_location, fm) := get_var "ByLocation" fm in
      let '(location, fm) := get_var "Location" fm in
      (fm, cnf ++ [[- by_location; location]])
    else (fm, cnf)
  else (fm, cnf).

Definition reset_rules (fm : FeatureModel) : FeatureModel :=
  {| features := features fm; constraints := constraints fm;
     var_map := var_map fm; reverse_map := reverse_map fm;
     next_var := next_var fm; logic_rules := []; root := root fm |}.

(** [generate_rules_and_cnf]; reading [self.root] before any parse raises. *)
Definition generate_rules_and_cnf (fm : FeatureModel)
  : result CNF * FeatureModel :=
  let fm := reset_rules fm in
  match root fm with
  | None => (Raise (AttributeError "root"), fm)
  | Some r =>
      let st := process_feature r (fm, []) in
      let '(fm, cnf) := fold_left constraint_step (constraints st.1) st in
      (Ok cnf, fm)
  end.

(** ** The SAT oracle *)

(** A model as pysat returns it: one signed number per variable,
    [±1, ±2, ..., ±n]. *)
Definition full_model (n : Z) (model : list Z) : Prop :=
  Z.abs <$> model = seqZ 1 n.

(** A literal is true when the model lists it; a clause when one of its
    literals is; the empty clause never. *)
Definition clause_holds (model : list Z) (c : clause) : bool :=
  existsb (λ l, bool_decide (l ∈ model)) c.

Definition models (model : list Z) (cnf : CNF) : bool :=
  forallb (clause_holds model) cnf.

(** The number of variables a solver holding [cnf] knows: the largest
    variable mentioned. *)
Definition nof_vars (cnf : CNF) : Z :=
  foldr Z.max 0 (Z.abs <$> concat cnf).

Definition satisfiable (cnf : CNF) : Prop :=
  ∃ model, full_model (nof_vars cnf) model ∧ models model cnf = true.

(** The solver interface the module uses: [Glucose3()], [add_clause],
    [solve], [get_model].  [added] is the clause list a solver object
    holds; the code never calls it, the laws are stated with it. *)
Class Oracle : Type := {
  solver : Type;
  Glucose3 : solver;
  add_clause : solver → clause → solver;
  solve : solver → bool * solver;
  get_model : solver → list Z;
  added : solver → CNF
}.

Class OracleLaws (O : Oracle) : Prop := {
  added_new : added Glucose3 = [];
  added_add_clause s c : added (add_clause s c) = added s ++ [c];
  added_solve s : added (solve s).2 = added s;
  solve_sound s :
    (solve s).1 = true →
    full_model (nof_vars (added s)) (get_model (solve s).2) ∧
    models (get_model (solve s).2) (added s) = true;
  solve_complete s :
    (solve s).1 = false → ¬ satisfiable (added s)
}.

(** ** The enumerator and the validator *)

(** [is_valid_mwp] *)
Definition is_valid_mwp (fm : FeatureModel) (mwp : gset pyname) : bool :=
  forallb (λ '(nm, feature),
             negb (mandatory feature
                   && bool_decide (parent feature ∈ mwp)
                   && bool_decide (Some nm ∉ mwp)))
          (features fm).

(** [filter_minimal_mwps] *)
Definition filter_minimal_mwps (mwps : list (gset pyname))
  : list (gset pyname) :=
  List.filter
    (λ mwp, negb (existsb (λ other, bool_decide (other ≠ mwp)
                                    && bool_decide (other ⊆ mwp)) mwps))
    mwps.

(** [[-var for var in model if var > 0]] *)
Definition blocking_clause (model : list Z) : clause :=
  Z.opp <$> List.filter (λ var, 0 <? var) model.

(** [{self.get_name(var) for var in model if var > 0}] *)
Definition product_of (fm : FeatureModel) (model : list Z) : gset pyname :=
  list_to_set (get_name fm <$> List.filter (λ var, 0 <? var) model).

(** The result of [validate_selection]. *)
Record Validation : Type := mkValidation {
  isValid : bool;
  messages : list string
}.

(** The two blocks of [check_feature]'s body; the state is the local
    list [messages]. *)

(** [# Mandatory feature check] *)
Definition mandatory_check (selected : gset pyname) (feature : Feature)
    (msgs : list string) : list string :=
  if mandatory feature && bool_decide (parent feature ∈ selected)
     && bool_decide (Some (name feature) ∉ selected)
  then msgs ++ ["Missing mandatory feature: " +:+ name feature]
  else msgs.

(** [# Group constraints] *)
Definition group_check (selected : gset pyname) (feature : Feature)
    (msgs : list string) : list string :=
  let nm := name feature in
  if bool_decide (Some nm ∈ selected) then
    let selected_children :=
      List.filter (λ c, bool_decide (Some c ∈ selected))
                  (map name (children feature)) in
    if bool_decide (group feature = Some "XOR") then
      if negb (length selected_children =? 1)%nat
      then msgs ++ ["XOR group " +:+ nm +:+ " must have exactly one selection"]
      else msgs
    else if bool_decide (group feature = Some "OR") then
      if bool_decide (selected_children = [])
      then msgs ++ ["OR group " +:+ nm +:+ " must have at least one selection"]
      else msgs
    else msgs
  else msgs.

(** [check_feature], the recursive closure of [get_violation_messages]. *)
Fixpoint check_feature (selected : gset pyname) (feature : Feature)
    (msgs : list string) {struct feature} : list string :=
  let msgs := mandatory_check selected feature msgs in
  let msgs := group_check selected feature msgs in
  fold_left (λ msgs child, check_feature selected child msgs)
            (children feature) msgs.

(** [# Check cross-tree constraints] *)
Definition cross_tree_check (selected : gset pyname) (msgs : list string)
  : list string :=
  if bool_decide (Some "ByLocation" ∈ selected)
     && bool_decide (Some "Location" ∉ selected)
  then msgs ++ ["Location feature is required for ByLocation"]
  else msgs.

(** [get_violation_messages] *)
Definition get_violation_messages (fm : FeatureModel) (selected : gset pyname)
  : result (list string) :=
  match root fm with
  | None => Raise (AttributeError "root")
  | Some r => Ok (cross_tree_check selected (check_feature selected r []))
  end.

Section WithOracle.
Context {O : Oracle}.

(** [for clause in cnf.clauses: solver.add_clause(clause)] on a new
    solver. *)
Definition load (cnf : CNF) : solver := fold_left add_clause cnf Glucose3.

(** The [while solver.solve()] loop of [find_mwps]; [fuel] bounds the
    number of [solve] calls, [None] is fuel running out. *)
Fixpoint enumerate (fuel : nat) (fm : FeatureModel) (s : solver)
    (mwps : list (gset pyname)) : option (list (gset pyname)) :=
  match fuel with
  | 0%nat => None
  | S fuel =>
      let '(sat, s) := solve s in
      if sat then
        let model := get_model s in
        let mwp := product_of fm model in
        (* Ensure it contains all mandatory features *)
        let mwps := if is_valid_mwp fm mwp then mwps ++ [mwp] else mwps in
        (* Block this solution *)
        enumerate fuel fm (add_clause s (blocking_clause model)) mwps
      else Some mwps
  end.

(** [find_mwps] *)
Definition find_mwps (fuel : nat) (fm : FeatureModel)
  : option (result (list (gset pyname)) * FeatureModel) :=
  match generate_rules_and_cnf fm with
  | (Raise e, fm) => Some (Raise e, fm)
  | (Ok cnf, fm) =>
      match enumerate fuel fm (load cnf) [] with
      | None => None
      | Some mwps => Some (Ok (filter_minimal_mwps mwps), fm)
      end
  end.

(** The [# Add selection constraints] loop of [validate_selection]. *)
Definition select_step (selected : gset pyname)
    (st : FeatureModel * solver) (nm : string) : FeatureModel * solver :=
  let '(fm, s) := st in
  let '(var, fm) := get_var nm fm in
  if bool_decide (Some nm ∈ selected)
  then (fm, add_clause s [var])
  else (fm, add_clause s [- var]).

(** [validate_selection] *)
Definition validate_selection (fm : FeatureModel) (selected : gset pyname)
  : result Validation * FeatureModel :=
  match generate_rules_and_cnf fm with
  | (Raise e, fm) => (Raise e, fm)
  | (Ok cnf, fm) =>
      let '(fm, s) :=
        fold_left (select_step selected) (features fm).*1 (fm, load cnf) in
      let is_valid := (solve s).1 in
      if negb is_valid then
        match get_violation_messages fm selected with
        | Ok msgs => (Ok {| isValid := is_valid; messages := msgs |}, fm)
        | Raise e => (Raise e, fm)
        end
      else (Ok {| isValid := is_valid; messages := [] |}, fm)
  end.
End WithOracle.

(** ** Reading the model document *)

(** An [xml.etree.ElementTree] element: tag, attributes, text, and the
    sub-elements in document order. *)
#[warnings="-register-all"]
Inductive Element : Type := mkElement {
  tag : string;
  attrib : gmap string string;
  text : pyname;
  subelements : list Element
}.

(** [element.find(t)]: the first sub-element with tag [t]. *)
Definition find (t : string) (element : Element) : option Element :=
  List.find (λ c, String.eqb (tag c) t) (subelements element).

(** [element.findall(".//t")]: every descendant with tag [t], in document
    order. *)
Fixpoint descendants (element : Element) : list Element :=
  flat_map (λ c, c :: descendants c) (subelements element).

Definition findall_deep (t : string) (element : Element) : list Element :=
  List.filter (λ c, String.eqb (tag c) t) (descendants element).

(** Code that mutates the model object and may raise; the mutations made
    before an exception stay. *)
Definition Py (A : Type) : Type := FeatureModel → result A * FeatureModel.

Definition ret {A} (a : A) : Py A := λ fm, (Ok a, fm).
Definition raise {A} (e : exn) : Py A := λ fm, (Raise e, fm).
Definition bind {A B} (m : Py A) (k : A → Py B) : Py B :=
  λ fm, match m fm with
        | (Ok a, fm) => k a fm
        | (Raise e, fm) => (Raise e, fm)
        end.

Notation "'let*' x := m 'in' k" := (bind m (λ x, k))
  (at level 10, x pattern, m at level 100, k at level 200).

(** [d[k]] on a dict of attributes. *)
Definition attr (element : Element) (k : string) : Py string :=
  match attrib element !! k with
  | Some v => ret v
  | None => raise (KeyError k)
  end.

(** [d[k] = v] on a dict in insertion order: an existing key keeps its
    place. *)
Fixpoint dict_set {V} (k : string) (v : V) (d : list (string * V))
  : list (string * V) :=
  match d with
  | [] => [(k, v)]
  | (k', v') :: d' =>
      if String.eqb k' k then (k, v) :: d' else (k', v') :: dict_set k v d'
  end.

(** [self.features[name] = feature] *)
Definition register (nm : string) (feature : Feature) : Py unit :=
  λ fm, (Ok (),
         {| features := dict_set nm feature (features fm);
            constraints := constraints fm;
            var_map := var_map fm; reverse_map := reverse_map fm;
            next_var := next_var fm; logic_rules := logic_rules fm;
            root := root fm |}).

(** The loop [for child in ...: feature["children"].append(
    parse_feature(child, name))], with [rec] for the recursive call; it
    runs over all of [group] when [only] is [None], over
    [element.findall("feature")] when it is [Some "feature"]. *)
Definition parse_each (rec : Element → Py Feature)
  : pyname → list Element → list Feature → Py (list Feature) :=
  fix parse_each only elems acc :=
    match elems with
    | [] => ret acc
    | child :: rest =>
        if bool_decide (only = None ∨ only = Some (tag child)) then
          let* child_feature := rec child in
          parse_each only rest (acc ++ [child_feature])
        else parse_each only rest acc
    end.

(** [group = element.find("group")] and the branch on it: the search
    runs over the sub-elements [elems] of the element, [all] are all of
    them.  The result is the feature's [group] and [children]. *)
Definition parse_group (rec : Element → Py Feature) (all : list Element)
  : list Element → Py (pyname * list Feature) :=
  fix parse_group elems :=
    match elems with
    | [] =>
        let* cs := parse_each rec (Some "feature") all [] in
        ret (None, cs)
    | g :: rest =>
        if String.eqb (tag g) "group" then
          let* ty := attr g "type" in
          let* cs := parse_each rec None (subelements g) [] in
          ret (Some (upper ty), cs)
        else parse_group rest
    end.

(** [parse_feature], the recursive closure of [parse_xml]. *)
Fixpoint parse_feature (element : Element) (parent : pyname)
  {struct element} : Py Feature :=
  let* nm := attr element "name" in
  let mand :=
    String.eqb (lower (default "false" (attrib element !! "mandatory")))
               "true" in
  let* (grp, cs) :=
    parse_group (λ child, parse_feature child (Some nm))
                (subelements element) (subelements element) in
  let feature :=
    {| name := nm; mandatory := mand; parent := parent;
       children := cs; group := grp |} in
  let* _ := register nm feature in
  ret feature.

(** The [for constraint in root.findall(".//constraint")] loop.  The text
    of an empty [englishStatement] element is [None], and [in] on it
    raises. *)
Fixpoint parse_constraints (elems : list Element) : Py unit :=
  match elems with
  | [] => ret ()
  | constraint :: rest =>
      match find "englishStatement" constraint with
      | Some english =>
          match text english with
          | None => raise TypeError
          | Some statement =>
              let* _ := (λ fm,
                (Ok (),
                 {| features := features fm;
                    constraints := constraints fm ++
                      [{| englishStatement := statement;
                          type := if str_in "required to" statement
                                  then "requires" else "excludes" |}];
                    var_map := var_map fm; reverse_map := reverse_map fm;
                    next_var := next_var fm; logic_rules := logic_rules fm;
                    root := root fm |})) in
              parse_constraints rest
          end
      | None => parse_constraints rest
      end
  end.

(** [self.root = feature] *)
Definition set_root (feature : Feature) : Py unit :=
  λ fm, (Ok (),
         {| features := features fm; constraints := constraints fm;
            var_map := var_map fm; reverse_map := reverse_map fm;
            next_var := next_var fm; logic_rules := logic_rules fm;
            root := Some feature |}).

(** [parse_xml].  [document] is what [ET.parse(xml_file).getroot()]
    gives: the document element, or [None] when the text is not
    well-formed XML and [ET.parse] raises. *)
Definition parse_xml (document : option Element) : Py unit :=
  match document with
  | None => raise ParseError
  | Some doc =>
      match find "feature" doc with
      | None => raise (AttributeError "attrib")
      | Some root_feature =>
          let* feature := parse_feature root_feature None in
          let* _ := set_root feature in
          parse_constraints (findall_deep "constraint" doc)
      end
  end.

(** ** A solver by exhaustive search *)

(** All sign choices for the given variables, the all-false one first. *)
Fixpoint signings (vars : list Z) : list (list Z) :=
  match vars with
  | [] => [[]]
  | v :: vs =>
      let rest := signings vs in
      map (cons (- v)) rest ++ map (cons v) rest
  end.

Definition all_models (n : Z) : list (list Z) := signings (seqZ 1 n).

(** A solver object is the clause list it was given and the model of its
    last successful [solve]. *)
Definition brute_force : Oracle :=
  {| solver := CNF * list Z;
     Glucose3 := ([], []);
     add_clause := λ s c, (s.1 ++ [c], s.2);
     solve := λ s,
       match List.find (λ m, models m s.1) (all_models (nof_vars s.1)) with
       | Some m => (true, (s.1, m))
       | None => (false, s)
       end;
     get_model := snd;
     added := fst |}.

(** ** What the compiler emits, as a function of the final registry *)

(** The variable of a name; [0] stands for a name the registry lacks. *)
Definition var_of (fm : FeatureModel) (nm : string) : Z :=
  default 0 (var_map fm !! nm).

Section Clauses.
Variable V : string → Z.

Definition root_clauses (f : Feature) : CNF :=
  if negb (truthy (parent f)) then [[V (name f)]] else [].

Definition edge_clauses (f : Feature) : CNF :=
  if truthy (parent f) then
    let p := default "" (parent f) in
    if mandatory f
    then [[- V p; V (name f)]; [- V (name f); V p]]
    else [[- V (name f); V p]]
  else [].

Definition at_least_one (f : Feature) : clause :=
  - V (name f) :: map V (map name (children f)).

Definition exclusions (names : list string) : CNF :=
  map (λ '(c1, c2), [- V c1; - V c2]) (combinations2 names).

Definition group_clauses (f : Feature) : CNF :=
  if bool_decide (group f = Some "XOR") then
    at_least_one f :: exclusions (map name (children f))
  else if bool_decide (group f = Some "OR") then [at_least_one f]
  else [].

Definition own_clauses (f : Feature) : CNF :=
  root_clauses f ++ edge_clauses f ++ group_clauses f.

Fixpoint feature_clauses (f : Feature) : CNF :=
  own_clauses f ++ flat_map feature_clauses (children f).

Definition qualifies (c : Constraint) : bool :=
  String.eqb (type c) "requires" && str_in "filter" (englishStatement c).

Definition constraint_clauses (cs : list Constraint) : CNF :=
  flat_map (λ c, if qualifies c then [[- V "ByLocation"; V "Location"]]
                 else []) cs.
End Clauses.

(** The names whose variables a feature's own blocks read, and those of
    the whole subtree. *)
Definition edge_names (f : Feature) : list string :=
  if truthy (parent f) then [default "" (parent f)] else [].

Definition group_names (f : Feature) : list string :=
  if bool_decide (group f = Some "XOR") || bool_decide (group f = Some "OR")
  then map name (children f) else [].

Definition own_names (f : Feature) : list string :=
  name f :: edge_names f ++ group_names f.

Fixpoint tree_names (f : Feature) : list string :=
  own_names f ++ flat_map tree_names (children f).

Definition constraint_names (cs : list Constraint) : list string :=
  if existsb qualifies cs then ["ByLocation"; "Location"] else [].

(** The features of a tree, in the order [process_feature] visits them. *)
Fixpoint subfeatures (f : Feature) : list Feature :=
  f :: flat_map subfeatures (children f).

(** The registry is a bijection between the registered names and the
    numbers [1 .. next_var - 1]. *)
Definition registry_ok (fm : FeatureModel) : Prop :=
  1 ≤ next_var fm ∧
  (∀ nm v, var_map fm !! nm = Some v →
           1 ≤ v < next_var fm ∧ reverse_map fm !! v = Some nm) ∧
  (∀ v nm, reverse_map fm !! v = Some nm → var_map fm !! nm = Some v) ∧
  (∀ v, 1 ≤ v < next_var fm → is_Some (reverse_map fm !! v)).

(** A later state of the same model: the registry has only grown. *)
Definition extends (fm fm' : FeatureModel) : Prop :=
  var_map fm ⊆ var_map fm' ∧ features fm' = features fm ∧
  constraints fm' = constraints fm ∧ root fm' = root fm.

(** A piece of the compiler run from [st] to [st']: it registers [names]
    and appends the clauses [cl], read off any later registry. *)
Definition emits (names : list string) (cl : (string → Z) → CNF)
    (st st' : FeatureModel * CNF) : Prop :=
  registry_ok st'.1 ∧ extends st.1 st'.1 ∧
  Forall (λ nm, is_Some (var_map st'.1 !! nm)) names ∧
  ∀ fm'', extends st'.1 fm'' → st'.2 = st.2 ++ cl (var_of fm'').

(** The clause list of a model with tree [r], over the registry [V]. *)
Definition compiled (V : string → Z) (r : Feature) (cs : list Constraint)
  : CNF :=
  feature_clauses V r ++ constraint_clauses V cs.

(** The full model with exactly the variables in [T] true. *)
Definition model_of (T : Z → bool) (n : Z) : list Z :=
  (λ i, if T i then i else - i) <$> seqZ 1 n.

(** The unit clauses [validate_selection] adds, over the registry [V]:
    one per key of [self.features], positive when the name is selected. *)
Definition selection_clauses (V : string → Z) (selected : gset pyname)
    (names : list string) : CNF :=
  map (λ nm, if bool_decide (Some nm ∈ selected) then [V nm] else [- V nm])
      names.

(** The model object with [cs] as its constraint list, the rest as it
    is: what the same document without (or with) one constraint gives. *)
Definition set_constraints (cs : list Constraint) (fm : FeatureModel)
  : FeatureModel :=
  {| features := features fm; constraints := cs;
     var_map := var_map fm; reverse_map := reverse_map fm;
     next_var := next_var fm; logic_rules := logic_rules fm;
     root := root fm |}.

Definition lift_constraints (cs : list Constraint)
    (st : FeatureModel * CNF) : FeatureModel * CNF :=
  (set_constraints cs st.1, st.2).

(** What [parse_feature] needs of a feature element: a [name], a [type]
    on its group if it has one, and the same of every element it
    descends into.  Nothing about names being distinct. *)
Definition each_well_formed (rec : Element → bool)
    (only : pyname) (elems : list Element) : bool :=
  forallb (λ child, if bool_decide (only = None ∨ only = Some (tag child))
                    then rec child else true) elems.

Definition group_well_formed (rec : Element → bool) (all : list Element)
  : list Element → bool :=
  fix group_well_formed elems :=
    match elems with
    | [] => each_well_formed rec (Some "feature") all
    | g :: rest =>
        if String.eqb (tag g) "group"
        then bool_decide (is_Some (attrib g !! "type"))
             && each_well_formed rec None (subelements g)
        else group_well_formed rest
    end.

Fixpoint well_formed (element : Element) : bool :=
  bool_decide (is_Some (attrib element !! "name"))
  && group_well_formed well_formed (subelements element)
                       (subelements element).

(** The call returned, rather than raised. *)
Definition returns {A} (out : result A * FeatureModel) : Prop :=
  ∃ a fm, out = (Ok a, fm).

(** What [parse_feature] leaves alone: everything but [features]. *)
Definition same_but_features (fm fm' : FeatureModel) : Prop :=
  constraints fm' = constraints fm ∧ root fm' = root fm ∧
  var_map fm' = var_map fm ∧ reverse_map fm' = reverse_map fm ∧
  next_var fm' = next_var fm ∧ logic_rules fm' = logic_rules fm.

(** A call [rec c] that touches nothing but the feature map and returns
    exactly when [wf c]. *)
Definition rec_ok (rec : Element → Py Feature) (wf : Element → bool)
    (c : Element) : Prop :=
  ∀ fm, same_but_features fm (rec c fm).2 ∧
        (returns (rec c fm) ↔ wf c = true).

(** ** The rule log, as a function of the tree *)

Definition root_rules (f : Feature) : list string :=
  if negb (truthy (parent f)) then [name f] else [].

Definition edge_rules (f : Feature) : list string :=
  if truthy (parent f) then
    let p := default "" (parent f) in
    if mandatory f
    then [p +:+ " → " +:+ name f; name f +:+ " → " +:+ p]
    else [name f +:+ " → " +:+ p]
  else [].

Definition group_rule (f : Feature) : string :=
  name f +:+ " → (" +:+ String.concat " ∨ " (map name (children f)) +:+ ")".

Definition exclusion_rules (names : list string) : list string :=
  map (λ '(c1, c2), "¬(" +:+ c1 +:+ " ∧ " +:+ c2 +:+ ")") (combinations2 names).

Definition group_rules (f : Feature) : list string :=
  if bool_decide (group f = Some "XOR") then
    group_rule f :: exclusion_rules (map name (children f))
  else if bool_decide (group f = Some "OR") then [group_rule f]
  else [].

Definition own_rules (f : Feature) : list string :=
  root_rules f ++ edge_rules f ++ group_rules f.

Fixpoint feature_rules (f : Feature) : list string :=
  own_rules f ++ flat_map feature_rules (children f).

Definition constraint_rules (cs : list Constraint) : list string :=
  flat_map (λ c, if qualifies c then ["Location → ByLocation"] else []) cs.

(** ** Shape of a parsed tree and of the feature map *)

(** Every child names its parent. *)
Fixpoint linked (f : Feature) : bool :=
  forallb (λ c, bool_decide (parent c = Some (name f)) && linked c)
          (children f).

(** Every entry of the feature map is a feature of the tree [r] under its
    own name: the map of a model that has read one document. *)
Definition entries_of_tree (fm : FeatureModel) (r : Feature) : Prop :=
  Forall (λ entry, entry.1 = name entry.2 ∧ entry.2 ∈ subfeatures r)
         (features fm).

(** Every feature of the tree [r] is a key of the feature map. *)
Definition tree_registered (fm : FeatureModel) (r : Feature) : Prop :=
  ∀ f, f ∈ subfeatures r → name f ∈ (features fm).*1.

(** What a returned call [parse_feature(element, p)] has made: a linked
    tree under the parent [p], all of it in the feature map, whose other
    entries are those it had. *)
Definition parsed (p : pyname) (fm : FeatureModel) (f : Feature)
    (fm' : FeatureModel) : Prop :=
  parent f = p ∧ linked f = true ∧
  (∀ g, g ∈ subfeatures f → name g ∈ (features fm').*1) ∧
  (∀ entry, entry ∈ features fm' →
            entry ∈ features fm ∨
            (entry.1 = name entry.2 ∧ entry.2 ∈ subfeatures f)).

Definition rec_parsed (rec : Element → Py Feature) (p : pyname)
    (c : Element) : Prop :=
  ∀ fm f fm', rec c fm = (Ok f, fm') → parsed p fm f fm'.

(** The keys of the feature map only grow. *)
Definition keys_grow (fm fm' : FeatureModel) : Prop :=
  ∀ k, k ∈ (features fm).*1 → k ∈ (features fm').*1.

(** [d.get(k)] on a dict in insertion order. *)
Definition dict_get {V} (k : string) (d : list (string * V)) : option V :=
  snd <$> List.find (λ entry, String.eqb entry.1 k) d.

(** The features of a tree in the order in which their [parse_feature]
    calls return: the children, in order, before their parent. *)
Fixpoint postorder (f : Feature) : list Feature :=
  flat_map postorder (children f) ++ [f].

(** [self.features[name] = feature] for the features of a list, in
    order. *)
Definition register_all (fs : list Feature) (d : list (string * Feature))
  : list (string * Feature) :=
  fold_left (λ d f, dict_set (name f) f d) fs d.

(** What a call of [parse_feature] on an element has done when it stops:
    the names under which it has written the feature map, in order (the
    names of the elements whose call has returned), and the exception it
    stops with, [None] when it returns.  [read_each] and [read_group]
    follow [parse_each] and [parse_group]. *)
Definition read_each (rec : Element → list string * option exn)
    (only : pyname) : list Element → list string * option exn :=
  fix read_each elems :=
    match elems with
    | [] => ([], None)
    | child :: rest =>
        if bool_decide (only = None ∨ only = Some (tag child)) then
          match rec child with
          | (names, None) =>
              let '(names', e) := read_each rest in (names ++ names', e)
          | (names, Some e) => (names, Some e)
          end
        else read_each rest
    end.

Definition read_group (rec : Element → list string * option exn)
    (all : list Element) : list Element → list string * option exn :=
  fix read_group elems :=
    match elems with
    | [] => read_each rec (Some "feature") all
    | g :: rest =>
        if String.eqb (tag g) "group" then
          match attrib g !! "type" with
          | Some _ => read_each rec None (subelements g)
          | None => ([], Some (KeyError "type"))
          end
        else read_group rest
    end.

Fixpoint read_of (element : Element) : list string * option exn :=
  match attrib element !! "name" with
  | None => ([], Some (KeyError "name"))
  | Some nm =>
      match read_group read_of (subelements element) (subelements element)
      with
      | (names, None) => (names ++ [nm], None)
      | (names, Some e) => (names, Some e)
      end
  end.

(** A call [rec c] and its summary [rd c]: the outcome, the keys of the
    feature map afterwards, and the only exceptions there are. *)
Definition rec_reads (rec : Element → Py Feature)
    (rd : Element → list string * option exn) (c : Element) : Prop :=
  ((rd c).2 = None ∨ (rd c).2 = Some (KeyError "name")
   ∨ (rd c).2 = Some (KeyError "type")) ∧
  ∀ fm,
    match (rd c).2 with
    | None => returns (rec c fm)
    | Some e => (rec c fm).1 = Raise e
    end ∧
    ∀ k, k ∈ (features (rec c fm).2).*1
         ↔ k ∈ (features fm).*1 ∨ k ∈ (rd c).1.

(** A returned call [rec c] has written the feature map with the
    features of its tree, in the order their calls return. *)
Definition rec_registers (rec : Element → Py Feature) (c : Element) : Prop :=
  ∀ fm f fm', rec c fm = (Ok f, fm') →
              features fm' = register_all (postorder f) (features fm).

(** ** Example documents *)

Definition el (t : string) (a : list (string * string)) (tx : pyname)
    (subs : list Element) : Element :=
  mkElement t (list_to_map a) tx subs.

(** root with a mandatory child A, an XOR group {B, C} under A, an
    optional D, and one constraint of the "filter" kind. *)
Definition demo_doc : Element :=
  el "featureModel" [] None
    [ el "feature" [("name", "root")] None
        [ el "feature" [("name", "A"); ("mandatory", "true")] None
            [ el "group" [("type", "xor")] None
                [ el "feature" [("name", "B")] None [];
                  el "feature" [("name", "C")] None [] ] ];
          el "feature" [("name", "D")] None [] ];
      el "constraints" [] None
        [ el "constraint" [] None
            [ el "englishStatement" [] (Some "X is required to filter") [] ] ] ].

Definition demo_model : FeatureModel := (parse_xml (Some demo_doc) init).2.

(** The feature tree [parse_xml] builds from [demo_doc]. *)
Definition demo_B : Feature := mkFeature "B" false (Some "A") [] None.
Definition demo_C : Feature := mkFeature "C" false (Some "A") [] None.
Definition demo_A : Feature :=
  mkFeature "A" true (Some "root") [demo_B; demo_C] (Some "XOR").
Definition demo_D : Feature := mkFeature "D" false (Some "root") [] None.
Definition demo_root : Feature :=
  mkFeature "root" false None [demo_A; demo_D] None.

(** root with one optional child A. *)
Definition optional_doc : Element :=
  el "featureModel" [] None
    [ el "feature" [("name", "root")] None
        [ el "feature" [("name", "A")] None [] ] ].

Definition optional_model : FeatureModel :=
  (parse_xml (Some optional_doc) init).2.

(** An XOR group at the root whose two children are both mandatory. *)
Definition xor_mandatory_doc : Element :=
  el "featureModel" [] None
    [ el "feature" [("name", "G")] None
        [ el "group" [("type", "XOR")] None
            [ el "feature" [("name", "A"); ("mandatory", "true")] None [];
              el "feature" [("name", "B"); ("mandatory", "true")] None [] ] ] ].

Definition xor_mandatory_model : FeatureModel :=
  (parse_xml (Some xor_mandatory_doc) init).2.

(** An XOR group at the root with two optional children. *)
Definition xor_optional_doc : Element :=
  el "featureModel" [] None
    [ el "feature" [("name", "G")] None
        [ el "group" [("type", "XOR")] None
            [ el "feature" [("name", "A")] None [];
              el "feature" [("name", "B")] None [] ] ] ].

Definition xor_optional_model : FeatureModel :=
  (parse_xml (Some xor_optional_doc) init).2.

(** The clause list compiled from [xor_mandatory_doc]; G, A, B are the
    variables 1, 2, 3. *)
Definition xor_mandatory_cnf : CNF :=
  [[1]; [-1; 2; 3]; [-2; -3]; [-1; 2]; [-2; 1]; [-1; 3]; [-3; 1]].

(** Two features named A: a child of the root and a child of B. *)
Definition duplicate_doc : Element :=
  el "featureModel" [] None
    [ el "feature" [("name", "root")] None
        [ el "feature" [("name", "A"); ("mandatory", "true")] None [];
          el "feature" [("name", "B")] None
            [ el "feature" [("name", "A")] None [] ] ] ].

(** The second child of the root has no name. *)
Definition nameless_doc : Element :=
  el "featureModel" [] None
    [ el "feature" [("name", "root")] None
        [ el "feature" [("name", "A")] None [];
          el "feature" [] None [] ] ].

(** root with the optional children ByLocation and Location, and one
    constraint of the "filter" kind. *)
Definition location_doc : Element :=
  el "featureModel" [] None
    [ el "feature" [("name", "root")] None
        [ el "feature" [("name", "ByLocation")] None [];
          el "feature" [("name", "Location")] None [] ];
      el "constraints" [] None
        [ el "constraint" [] None
            [ el "englishStatement" [] (Some "X is required to filter") [] ] ] ].

Definition location_model : FeatureModel :=
  (parse_xml (Some location_doc) init).2.

Definition location_root : Feature :=
  mkFeature "root" false None
    [ mkFeature "ByLocation" false (Some "root") [] None;
      mkFeature "Location" false (Some "root") [] None ] None.

(** root with one mandatory child M; and a root alone. *)
Definition mandatory_doc : Element :=
  el "featureModel" [] None
    [ el "feature" [("name", "root")] None
        [ el "feature" [("name", "M"); ("mandatory", "true")] None [] ] ].

Definition bare_doc : Element :=
  el "featureModel" [] None [ el "feature" [("name", "root")] None [] ].

(** The model object after reading [mandatory_doc] and then [bare_doc]. *)
Definition reread_model : FeatureModel :=
  (parse_xml (Some bare_doc) (parse_xml (Some mandatory_doc) init).2).2.

(** root with a child whose name is the empty string, and under it a
    mandatory A. *)
Definition unnamed_doc : Element :=
  el "featureModel" [] None
    [ el "feature" [("name", "root")] None
        [ el "feature" [("name", "")] None
            [ el "feature" [("name", "A"); ("mandatory", "true")] None [] ] ] ].

Definition unnamed_model : FeatureModel :=
  (parse_xml (Some unnamed_doc) init).2.



(** The members of the selection [get_violation_messages] asks for: of
    every feature of the tree its name and its [parent], and the two
    names of the cross-tree check. *)
Definition message_names (fm : FeatureModel) : list pyname :=
  match root fm with
  | Some r => flat_map (λ f, [Some (name f); parent f]) (subfeatures r)
  | None => []
  end ++ [Some "ByLocation"; Some "Location"].

(** The enumerator's answer on [demo_doc] with the exhaustive solver: the
    products, and the model object afterwards. *)
Definition demo_found : list (gset pyname) * FeatureModel :=
  match @find_mwps brute_force 20 demo_model with
  | Some (Ok mwps, fm) => (mwps, fm)
  | _ => ([], demo_model)
  end.

(** ** Lemmas: trees, registry *)

Lemma Feature_tree_ind (P : Feature → Prop) :
  (∀ nm m p cs g, Forall P cs → P (mkFeature nm m p cs g)) → ∀ f, P f.
Proof.
  intros step. fix IH 1. intros [nm m p cs g]. apply step.
  induction cs as [|c cs IHcs]; constructor; [apply IH | exact IHcs].
Qed.

Lemma registry_ok_init : registry_ok init.
Proof.
  split; [done|]. split; [|split]; cbn.
  - intros ? ?. by rewrite lookup_empty.
  - intros ? ?. by rewrite lookup_empty.
  - intros v. lia.
Qed.

Lemma extends_refl fm : extends fm fm.
Proof. by repeat split. Qed.

Lemma extends_trans fm1 fm2 fm3 :
  extends fm1 fm2 → extends fm2 fm3 → extends fm1 fm3.
Proof.
  intros (?&?&?&?) (?&?&?&?). repeat split; [by etrans|congruence..].
Qed.

Lemma var_of_extends fm fm' nm v :
  extends fm fm' → var_map fm !! nm = Some v → var_of fm' nm = v.
Proof.
  intros [Hsub _] Hv. unfold var_of.
  by rewrite (lookup_weaken _ _ _ _ Hv Hsub).
Qed.

Lemma get_var_spec fm nm :
  registry_ok fm →
  registry_ok (get_var nm fm).2 ∧ extends fm (get_var nm fm).2 ∧
  var_map (get_var nm fm).2 !! nm = Some (get_var nm fm).1 ∧
  logic_rules (get_var nm fm).2 = logic_rules fm.
Proof.
  intros (Hn & Hfw & Hbw & Hden). unfold get_var.
  destruct (var_map fm !! nm) as [v|] eqn:E; simpl.
  { split; [exact (conj Hn (conj Hfw (conj Hbw Hden)))|].
    split; [apply extends_refl|done]. }
  split; [|split; [|split]]; [| |by rewrite lookup_insert_eq|done].
  - split; simpl; [lia|]. split; [|split].
    + intros nm' v'. rewrite lookup_insert. case_decide as Hd.
      * intros [= <-]. subst nm'. split; [lia|]. by rewrite lookup_insert_eq.
      * intros Hv'. destruct (Hfw _ _ Hv') as [Hr Hrev]. split; [lia|].
        rewrite lookup_insert_ne; [done|lia].
    + intros v' nm'. rewrite lookup_insert. case_decide as Hd.
      * intros [= <-]. subst v'. by rewrite lookup_insert_eq.
      * intros Hr. pose proof (Hbw _ _ Hr) as Hv'.
        rewrite lookup_insert_ne; [done|]. intros ->. congruence.
    + intros v' Hv'. rewrite lookup_insert. case_decide; [by eexists|].
      apply Hden. lia.
  - split; simpl; [by apply insert_subseteq|done].
Qed.

Lemma registry_ok_add_rule r fm : registry_ok fm → registry_ok (add_rule r fm).
Proof. done. Qed.

Lemma extends_add_rule r fm : extends fm (add_rule r fm).
Proof. by repeat split. Qed.

Lemma extends_reset_rules fm : extends fm (reset_rules fm).
Proof. by repeat split. Qed.

Lemma extends_is_Some fm fm' nm :
  extends fm fm' → is_Some (var_map fm !! nm) → is_Some (var_map fm' !! nm).
Proof. intros [Hsub _] [v Hv]. exists v. by eapply lookup_weaken. Qed.

(** ** Lemmas: the compiler against its clause functions *)

Lemma emits_refl st : registry_ok st.1 → emits [] (λ _, []) st st.
Proof.
  intros Hok. split; [done|]. split; [apply extends_refl|].
  split; [constructor|]. intros. by rewrite app_nil_r.
Qed.

Lemma emits_trans names1 names2 cl1 cl2 st st1 st2 :
  emits names1 cl1 st st1 → emits names2 cl2 st1 st2 →
  emits (names1 ++ names2) (λ V, cl1 V ++ cl2 V) st st2.
Proof.
  intros (Hok1 & Hext1 & Hn1 & Hcl1) (Hok2 & Hext2 & Hn2 & Hcl2).
  split; [done|]. split; [by eapply extends_trans|]. split.
  - apply Forall_app. split; [|done].
    eapply Forall_impl; [exact Hn1|]. intros nm. by apply extends_is_Some.
  - intros fm'' Hext. rewrite (Hcl2 _ Hext).
    rewrite (Hcl1 fm''); [by rewrite app_assoc|by eapply extends_trans].
Qed.

Lemma emits_proper names names' cl cl' st st' :
  emits names cl st st' → (∀ V, cl V = cl' V) → names' ⊆ names →
  emits names' cl' st st'.
Proof.
  intros (Hok & Hext & Hn & Hcl) Heq Hsub.
  split; [done|]. split; [done|]. split.
  - apply Forall_forall. intros nm Hnm.
    rewrite Forall_forall in Hn. apply Hn, Hsub, Hnm.
  - intros fm'' H. rewrite <- Heq. by apply Hcl.
Qed.

Lemma get_var_emits nm fm cnf :
  registry_ok fm →
  emits [nm] (λ _, []) (fm, cnf) ((get_var nm fm).2, cnf).
Proof.
  intros Hok. destruct (get_var_spec fm nm Hok) as (Hok' & Hext & Hv & _).
  split; [done|]. split; [done|]. split; simpl.
  - constructor; [by eexists|constructor].
  - intros. by rewrite app_nil_r.
Qed.

Lemma get_vars_spec names fm :
  registry_ok fm →
  registry_ok (get_vars names fm).2 ∧ extends fm (get_vars names fm).2 ∧
  Forall (λ nm, is_Some (var_map (get_vars names fm).2 !! nm)) names ∧
  ∀ fm'', extends (get_vars names fm).2 fm'' →
          (get_vars names fm).1 = map (var_of fm'') names.
Proof.
  revert fm. induction names as [|n ns IH]; intros fm Hok; simpl.
  { split; [done|]. split; [apply extends_refl|]. split; [constructor|done]. }
  destruct (get_var_spec fm n Hok) as (Hok1 & Hext1 & Hv1 & _).
  destruct (get_var n fm) as [v fm1] eqn:E1. simpl in *.
  destruct (IH fm1 Hok1) as (Hok2 & Hext2 & Hn2 & Hvs).
  destruct (get_vars ns fm1) as [vs fm2] eqn:E2. simpl in *.
  split; [done|]. split; [by eapply extends_trans|]. split.
  - constructor; [|done]. eapply extends_is_Some; [exact Hext2|by eexists].
  - intros fm'' Hext. rewrite (Hvs _ Hext). f_equal.
    symmetry. eapply var_of_extends; [|exact Hv1]. by eapply extends_trans.
Qed.

Lemma exclude_pairs_emits pairs fm cnf :
  registry_ok fm →
  emits [] (λ V, map (λ '(c1, c2), [- V c1; - V c2]) pairs)
        (fm, cnf) (exclude_pairs pairs (fm, cnf)).
Proof.
  revert fm cnf. induction pairs as [|[c1 c2] rest IH]; intros fm cnf Hok.
  { simpl. by apply (emits_refl (fm, cnf)). }
  simpl.
  pose proof (registry_ok_add_rule
    ("¬(" +:+ c1 +:+ " ∧ " +:+ c2 +:+ ")") fm Hok) as Hok0.
  set (fm0 := add_rule _ fm) in *.
  destruct (get_var_spec fm0 c1 Hok0) as (Hok1 & Hext1 & Hv1 & _).
  destruct (get_var c1 fm0) as [v1 fm1] eqn:E1. simpl in *.
  destruct (get_var_spec fm1 c2 Hok1) as (Hok2 & Hext2 & Hv2 & _).
  destruct (get_var c2 fm1) as [v2 fm2] eqn:E2. simpl in *.
  destruct (IH fm2 (cnf ++ [[- v1; - v2]]) Hok2) as (Hok3 & Hext3 & _ & Hcl).
  assert (extends fm fm2) as Hext02.
  { eapply extends_trans; [apply extends_add_rule|].
    by eapply extends_trans. }
  split; [done|]. split; [by eapply extends_trans|]. split; [constructor|].
  intros fm'' Hext. rewrite (Hcl _ Hext). simpl. rewrite <- app_assoc. simpl.
  assert (extends fm2 fm'') as H2 by (by eapply extends_trans).
  rewrite (var_of_extends fm2 fm'' c2 v2 H2 Hv2).
  rewrite (var_of_extends fm1 fm'' c1 v1); [done| |done].
  by eapply extends_trans.
Qed.

Lemma root_step_emits f var fm cnf :
  registry_ok fm → var_map fm !! name f = Some var →
  emits [] (λ V, root_clauses V f) (fm, cnf) (root_step f var (fm, cnf)).
Proof.
  intros Hok Hvar. unfold root_step, root_clauses.
  destruct (negb (truthy (parent f))); [|by apply (emits_refl (fm, cnf))].
  split; [done|]. split; [apply extends_add_rule|]. split; [constructor|].
  simpl. intros fm'' Hext. by rewrite (var_of_extends _ _ _ _ Hext Hvar).
Qed.

Lemma edge_step_emits f var fm cnf :
  registry_ok fm → var_map fm !! name f = Some var →
  emits (edge_names f) (λ V, edge_clauses V f)
        (fm, cnf) (edge_step f var (fm, cnf)).
Proof.
  intros Hok Hvar. unfold edge_step, edge_clauses, edge_names.
  destruct (truthy (parent f)); [|by apply (emits_refl (fm, cnf))].
  set (p := default "" (parent f)).
  destruct (get_var_spec fm p Hok) as (Hok1 & Hext1 & Hv1 & _).
  destruct (get_var p fm) as [pv fm1] eqn:E1. simpl in *.
  assert (∀ fm'', extends fm1 fm'' →
            var_of fm'' (name f) = var ∧ var_of fm'' p = pv) as Hvars.
  { intros fm'' Hext. split; [|by eapply var_of_extends].
    eapply var_of_extends; [|exact Hvar]. by eapply extends_trans. }
  destruct (mandatory f).
  - split; [done|]. split; [|split].
    + eapply extends_trans; [exact Hext1|].
      eapply extends_trans; apply extends_add_rule.
    + constructor; [by eexists|constructor].
    + simpl. intros fm'' Hext. destruct (Hvars fm'') as [-> ->]; [|done].
      eapply extends_trans; [|exact Hext].
      eapply extends_trans; apply extends_add_rule.
  - split; [done|]. split; [|split].
    + eapply extends_trans; [exact Hext1|]. apply extends_add_rule.
    + constructor; [by eexists|constructor].
    + simpl. intros fm'' Hext. destruct (Hvars fm'') as [-> ->]; [|done].
      eapply extends_trans; [|exact Hext]. apply extends_add_rule.
Qed.

Lemma group_step_emits f var fm cnf :
  registry_ok fm → var_map fm !! name f = Some var →
  emits (group_names f) (λ V, group_clauses V f)
        (fm, cnf) (group_step f var (fm, cnf)).
Proof.
  intros Hok Hvar. unfold group_step, group_clauses, group_names, at_least_one.
  set (names := map name (children f)).
  destruct (get_vars_spec names fm Hok) as (Hok1 & Hext1 & Hn1 & Hvs).
  destruct (bool_decide (group f = Some "XOR")) eqn:Ex; simpl.
  - destruct (get_vars names fm) as [vs fm1] eqn:E1. simpl in *.
    set (fm2 := add_rule _ fm1).
    destruct (exclude_pairs_emits (combinations2 names) fm2
                (cnf ++ [- var :: vs]) Hok1) as (Hok3 & Hext3 & _ & Hcl).
    assert (extends fm1 (exclude_pairs (combinations2 names)
                           (fm2, cnf ++ [- var :: vs])).1) as Hext13.
    { eapply extends_trans; [apply extends_add_rule|exact Hext3]. }
    split; [done|]. split; [by eapply extends_trans|]. split.
    + eapply Forall_impl; [exact Hn1|]. intros nm. by apply extends_is_Some.
    + intros fm'' Hext. rewrite (Hcl _ Hext). simpl.
      assert (extends fm1 fm'') as H1 by (by eapply extends_trans).
      rewrite (Hvs _ H1). rewrite <- app_assoc. simpl.
      rewrite (var_of_extends fm fm'' (name f) var); [done| |done].
      by eapply extends_trans.
  - destruct (bool_decide (group f = Some "OR")) eqn:Eo; simpl;
      [|by apply (emits_refl (fm, cnf))].
    destruct (get_vars names fm) as [vs fm1] eqn:E1. simpl in *.
    split; [done|]. split; [|split].
    + eapply extends_trans; [exact Hext1|apply extends_add_rule].
    + done.
    + simpl. intros fm'' Hext.
      assert (extends fm1 fm'') as H1.
      { eapply extends_trans; [apply extends_add_rule|exact Hext]. }
      rewrite (Hvs _ H1).
      rewrite (var_of_extends fm fm'' (name f) var); [done| |done].
      by eapply extends_trans.
Qed.

Lemma process_feature_eq f st :
  process_feature f st =
  fold_left (λ st child, process_feature child st) (children f)
    (group_step f (get_var (name f) st.1).1
       (edge_step f (get_var (name f) st.1).1
          (root_step f (get_var (name f) st.1).1
             ((get_var (name f) st.1).2, st.2)))).
Proof. destruct f. simpl. by destruct (get_var _ _). Qed.

Lemma process_children_emits cs st :
  Forall (λ c, ∀ st, registry_ok st.1 →
     emits (tree_names c) (λ V, feature_clauses V c) st (process_feature c st))
    cs →
  registry_ok st.1 →
  emits (flat_map tree_names cs) (λ V, flat_map (feature_clauses V) cs)
        st (fold_left (λ st child, process_feature child st) cs st).
Proof.
  intros Hcs. revert st. induction Hcs as [|c cs Hc _ IH]; intros st Hok.
  { by apply emits_refl. }
  simpl. pose proof (Hc st Hok) as H1.
  pose proof (IH (process_feature c st) (proj1 H1)) as H2.
  exact (emits_trans _ _ _ _ _ _ _ H1 H2).
Qed.

Lemma process_feature_emits f :
  ∀ st, registry_ok st.1 →
  emits (tree_names f) (λ V, feature_clauses V f) st (process_feature f st).
Proof.
  induction f as [nm m p cs g IH] using Feature_tree_ind.
  intros [fm cnf] Hok. simpl in Hok.
  set (f := mkFeature nm m p cs g) in *.
  rewrite process_feature_eq. cbn [fst snd].
  destruct (get_var_spec fm (name f) Hok) as (Hok1 & Hext1 & Hv1 & _).
  pose proof (get_var_emits (name f) fm cnf Hok) as E0.
  destruct (get_var (name f) fm) as [var fm1] eqn:Eg. cbn [fst snd] in *.
  pose proof (root_step_emits f var fm1 cnf Hok1 Hv1) as E1.
  destruct (root_step f var (fm1, cnf)) as [fm2 cnf2] eqn:Er.
  assert (var_map fm2 !! name f = Some var) as Hv2.
  { destruct E1 as (_ & [Hsub _] & _). by eapply lookup_weaken. }
  pose proof (edge_step_emits f var fm2 cnf2 (proj1 E1) Hv2) as E2.
  destruct (edge_step f var (fm2, cnf2)) as [fm3 cnf3] eqn:Ee.
  assert (var_map fm3 !! name f = Some var) as Hv3.
  { destruct E2 as (_ & [Hsub _] & _). by eapply lookup_weaken. }
  pose proof (group_step_emits f var fm3 cnf3 (proj1 E2) Hv3) as E3.
  destruct (group_step f var (fm3, cnf3)) as [fm4 cnf4] eqn:Egr.
  pose proof (process_children_emits (children f) (fm4, cnf4) IH (proj1 E3))
    as E4.
  pose proof (emits_trans _ _ _ _ _ _ _
    (emits_trans _ _ _ _ _ _ _
       (emits_trans _ _ _ _ _ _ _
          (emits_trans _ _ _ _ _ _ _ E0 E1) E2) E3) E4) as E.
  eapply emits_proper; [exact E| |].
  - intros V. simpl. unfold own_clauses. by rewrite <- !app_assoc.
  - simpl. intros x Hx. exact Hx.
Qed.

Lemma constraint_step_emits c fm cnf :
  registry_ok fm →
  emits (if qualifies c then ["ByLocation"; "Location"] else [])
        (λ V, if qualifies c then [[- V "ByLocation"; V "Location"]] else [])
        (fm, cnf) (constraint_step (fm, cnf) c).
Proof.
  intros Hok. unfold constraint_step, qualifies.
  destruct (String.eqb (type c) "requires"); simpl;
    [|by apply (emits_refl (fm, cnf))].
  destruct (str_in "filter" (englishStatement c));
    [|by apply (emits_refl (fm, cnf))].
  set (fm0 := add_rule _ fm).
  assert (registry_ok fm0) as Hok0 by done.
  destruct (get_var_spec fm0 "ByLocation" Hok0) as (Hok1 & Hext1 & Hv1 & _).
  destruct (get_var "ByLocation" fm0) as [v1 fm1] eqn:E1. simpl in *.
  destruct (get_var_spec fm1 "Location" Hok1) as (Hok2 & Hext2 & Hv2 & _).
  destruct (get_var "Location" fm1) as [v2 fm2] eqn:E2. simpl in *.
  split; [done|]. split; [|split].
  - eapply extends_trans; [apply extends_add_rule|]. by eapply extends_trans.
  - constructor; [|constructor; [by eexists|constructor]].
    eapply extends_is_Some; [exact Hext2|by eexists].
  - simpl. intros fm'' Hext.
    rewrite (var_of_extends fm2 fm'' "Location" v2 Hext Hv2).
    rewrite (var_of_extends fm1 fm'' "ByLocation" v1); [done| |done].
    by eapply extends_trans.
Qed.

Lemma existsb_qualifies_cons c cs :
  (if existsb qualifies (c :: cs) then ["ByLocation"; "Location"] else [])
  ⊆ (if qualifies c then ["ByLocation"; "Location"] else [])
    ++ constraint_names cs.
Proof.
  unfold constraint_names. simpl.
  destruct (qualifies c), (existsb qualifies cs); simpl; intros x;
    rewrite ?elem_of_cons, ?elem_of_nil; tauto.
Qed.

Lemma constraints_emits cs st :
  registry_ok st.1 →
  emits (constraint_names cs) (λ V, constraint_clauses V cs)
        st (fold_left constraint_step cs st).
Proof.
  revert st. induction cs as [|c cs IH]; intros [fm cnf] Hok.
  { by apply (emits_refl (fm, cnf)). }
  simpl in Hok. simpl fold_left.
  pose proof (constraint_step_emits c fm cnf Hok) as H1.
  pose proof (IH _ (proj1 H1)) as H2.
  eapply emits_proper; [exact (emits_trans _ _ _ _ _ _ _ H1 H2)| |].
  - done.
  - apply existsb_qualifies_cons.
Qed.

Lemma generate_spec fm r :
  registry_ok fm → root fm = Some r →
  ∃ cnf fm',
    generate_rules_and_cnf fm = (Ok cnf, fm') ∧
    registry_ok fm' ∧ extends fm fm' ∧
    Forall (λ nm, is_Some (var_map fm' !! nm))
           (tree_names r ++ constraint_names (constraints fm)) ∧
    ∀ fm'', extends fm' fm'' →
            cnf = compiled (var_of fm'') r (constraints fm).
Proof.
  intros Hok Hroot. unfold generate_rules_and_cnf.
  change (root (reset_rules fm)) with (root fm). rewrite Hroot.
  pose proof (process_feature_emits r (reset_rules fm, []) Hok) as H1.
  destruct (process_feature r (reset_rules fm, [])) as [fm1 cnf1] eqn:E1.
  assert (constraints fm1 = constraints fm) as Hcs by apply H1.
  cbn [fst]. rewrite Hcs.
  pose proof (constraints_emits (constraints fm) (fm1, cnf1) (proj1 H1)) as H2.
  destruct (fold_left constraint_step (constraints fm) (fm1, cnf1))
    as [fm2 cnf2] eqn:E2.
  destruct (emits_trans _ _ _ _ _ _ _ H1 H2) as (Hok2 & Hext & Hn & Hcl).
  exists cnf2, fm2. split; [done|]. split; [done|]. split; [|split; [done|]].
  - eapply extends_trans; [apply extends_reset_rules|exact Hext].
  - intros fm'' H. apply (Hcl fm'' H).
Qed.

Lemma combinations2_elem {A} (l : list A) a b :
  (a, b) ∈ combinations2 l → a ∈ l ∧ b ∈ l.
Proof.
  induction l as [|x xs IH]; simpl; [by intros ?%elem_of_nil|].
  rewrite elem_of_app, list_elem_of_fmap. intros [(y & [= -> ->] & Hy)|H].
  - split; [left|by right].
  - destruct (IH H). split; by right.
Qed.

(** ** Lemmas: models and clause sets *)

Lemma clause_holds_iff model c :
  clause_holds model c = true ↔ ∃ l, l ∈ c ∧ l ∈ model.
Proof.
  unfold clause_holds. rewrite existsb_exists. split.
  - intros (l & Hl & H). exists l. split; [by apply list_elem_of_In|].
    by apply bool_decide_eq_true in H.
  - intros (l & Hl & H). exists l. split; [by apply list_elem_of_In|].
    by apply bool_decide_eq_true.
Qed.

Lemma models_iff model cnf :
  models model cnf = true ↔ ∀ c, c ∈ cnf → clause_holds model c = true.
Proof.
  unfold models. rewrite forallb_forall. split; intros H c Hc; apply H.
  - by apply list_elem_of_In.
  - by apply list_elem_of_In.
Qed.

Lemma models_app model a b :
  models model (a ++ b) = models model a && models model b.
Proof. apply forallb_app. Qed.

Lemma full_model_elem n model x :
  full_model n model → x ∈ model → 1 ≤ Z.abs x ≤ n.
Proof.
  intros Hfull Hx.
  assert (Z.abs x ∈ seqZ 1 n) as H.
  { rewrite <- Hfull. apply list_elem_of_fmap. by exists x. }
  apply elem_of_seqZ in H. lia.
Qed.

Lemma full_model_consistent n model x :
  full_model n model → x ∈ model → - x ∈ model → False.
Proof.
  intros Hfull Hx Hnx.
  pose proof (full_model_elem _ _ _ Hfull Hx) as Hr.
  apply list_elem_of_lookup in Hx as [i Hi].
  apply list_elem_of_lookup in Hnx as [j Hj].
  assert (NoDup (Z.abs <$> model)) as Hnd.
  { rewrite Hfull. apply NoDup_seqZ. }
  assert ((Z.abs <$> model) !! i = Some (Z.abs x)) as Hi'.
  { by rewrite list_lookup_fmap, Hi. }
  assert ((Z.abs <$> model) !! j = Some (Z.abs x)) as Hj'.
  { rewrite list_lookup_fmap, Hj. simpl. by rewrite Z.abs_opp. }
  pose proof (NoDup_lookup _ _ _ _ Hnd Hi' Hj') as ->.
  rewrite Hi in Hj. injection Hj as Hj. lia.
Qed.

Lemma full_model_total n model v :
  full_model n model → 1 ≤ v ≤ n → v ∈ model ∨ - v ∈ model.
Proof.
  intros Hfull Hv.
  assert (v ∈ Z.abs <$> model) as H.
  { rewrite Hfull. apply elem_of_seqZ. lia. }
  apply list_elem_of_fmap in H as (x & Hx & Hin).
  destruct (Z.abs_spec x) as [[_ Ha]|[_ Ha]].
  - left. congruence.
  - right. assert (- v = x) as -> by lia. done.
Qed.

Lemma model_of_full T n : full_model n (model_of T n).
Proof.
  unfold full_model, model_of. rewrite <- list_fmap_compose.
  rewrite <- (list_fmap_id (seqZ 1 n)) at 2.
  apply list_fmap_ext. intros i x Hx%list_elem_of_lookup_2%elem_of_seqZ.
  simpl. destruct (T x); lia.
Qed.

Lemma elem_of_model_of T n l :
  l ∈ model_of T n ↔
  1 ≤ Z.abs l ≤ n ∧ (if 0 <? l then T l = true else T (- l) = false).
Proof.
  unfold model_of. rewrite list_elem_of_fmap. split.
  - intros (i & -> & Hi%elem_of_seqZ). destruct (T i) eqn:E.
    + split; [lia|]. destruct (Z.ltb_spec 0 i); [done|lia].
    + split; [lia|]. destruct (Z.ltb_spec 0 (- i)); [lia|].
      by rewrite Z.opp_involutive.
  - intros [Hr Hl]. destruct (Z.ltb_spec 0 l).
    + exists l. rewrite Hl. split; [done|]. apply elem_of_seqZ. lia.
    + exists (- l). rewrite Hl. split; [lia|]. apply elem_of_seqZ. lia.
Qed.

Lemma foldr_max_ge (l : list Z) : 0 ≤ foldr Z.max 0 l.
Proof. induction l; simpl; lia. Qed.

Lemma foldr_max_elem (l : list Z) x : x ∈ l → x ≤ foldr Z.max 0 l.
Proof.
  induction l as [|y l IH]; [by intros ?%elem_of_nil|].
  intros [->|H]%elem_of_cons; simpl; [lia|]. specialize (IH H). lia.
Qed.

Lemma foldr_max_le (l : list Z) n :
  0 ≤ n → (∀ x, x ∈ l → x ≤ n) → foldr Z.max 0 l ≤ n.
Proof.
  intros Hn. induction l as [|y l IH]; intros H; simpl; [done|].
  apply Z.max_lub; [apply H; left|]. apply IH. intros x Hx. apply H. by right.
Qed.

Lemma elem_of_concat {A} (x : A) (ls : list (list A)) :
  x ∈ concat ls ↔ ∃ l, x ∈ l ∧ l ∈ ls.
Proof.
  rewrite list_elem_of_In, in_concat. split.
  - intros (l & Hl & Hx). exists l. by rewrite !list_elem_of_In.
  - intros (l & Hx & Hl). exists l. by rewrite <- !list_elem_of_In.
Qed.

Lemma nof_vars_ge cnf : 0 ≤ nof_vars cnf.
Proof. apply foldr_max_ge. Qed.

Lemma nof_vars_elem cnf c l :
  c ∈ cnf → l ∈ c → Z.abs l ≤ nof_vars cnf.
Proof.
  intros Hc Hl. apply foldr_max_elem, list_elem_of_fmap.
  exists l. split; [done|]. apply elem_of_concat. by exists c.
Qed.

Lemma nof_vars_le cnf n :
  0 ≤ n → (∀ c l, c ∈ cnf → l ∈ c → Z.abs l ≤ n) → nof_vars cnf ≤ n.
Proof.
  intros Hn H. apply foldr_max_le; [done|].
  intros x (l & -> & (c & Hl & Hc)%elem_of_concat)%list_elem_of_fmap.
  by eapply H.
Qed.

Lemma nof_vars_app a b : nof_vars (a ++ b) = Z.max (nof_vars a) (nof_vars b).
Proof.
  unfold nof_vars. rewrite concat_app, fmap_app, foldr_app.
  generalize (Z.abs <$> concat b). intros lb.
  induction (Z.abs <$> concat a) as [|x la IH]; simpl.
  - pose proof (foldr_max_ge lb). lia.
  - rewrite IH. lia.
Qed.

(** ** Lemmas: the exhaustive solver meets the laws *)

Lemma elem_of_signings vs model :
  Forall (λ v, 0 < v) vs → model ∈ signings vs ↔ Z.abs <$> model = vs.
Proof.
  intros Hpos. revert model.
  induction Hpos as [|v vs Hv _ IH]; intros model; simpl.
  - rewrite list_elem_of_singleton. split; [by intros ->|].
    by destruct model.
  - rewrite elem_of_app, !list_elem_of_fmap. split.
    + intros [(m' & -> & Hm')|(m' & -> & Hm')]; apply IH in Hm';
        rewrite fmap_cons, Hm'; f_equal; lia.
    + destruct model as [|x m']; [done|]. rewrite fmap_cons. intros [= Hx Hm'].
      apply IH in Hm'. destruct (Z.abs_spec x) as [[_ Ha]|[_ Ha]].
      * right. exists m'. split; [f_equal; lia|done].
      * left. exists m'. split; [f_equal; lia|done].
Qed.

Lemma elem_of_all_models n model :
  model ∈ all_models n ↔ full_model n model.
Proof.
  apply elem_of_signings, Forall_forall. intros v Hv%elem_of_seqZ. lia.
Qed.

Lemma brute_force_laws : OracleLaws brute_force.
Proof.
  split.
  - done.
  - done.
  - intros [cnf m]. simpl. by destruct (List.find _ _).
  - intros [cnf m]. simpl.
    destruct (List.find _ _) as [m'|] eqn:E; [|done]. intros _. simpl.
    apply find_some in E as [Hin Hm]. split; [|done].
    by apply elem_of_all_models, list_elem_of_In.
  - intros [cnf m]. simpl.
    destruct (List.find _ _) as [m'|] eqn:E; [done|]. intros _ (m' & Hf & Hm).
    simpl in *. apply elem_of_all_models, list_elem_of_In in Hf.
    pose proof (find_none _ _ E _ Hf) as Hn. simpl in Hn. congruence.
Qed.

(** ** Lemmas: any lawful solver *)

Section OracleFacts.
Context {O : Oracle} {L : OracleLaws O}.

Lemma added_fold cnf s :
  added (fold_left add_clause cnf s) = added s ++ cnf.
Proof.
  revert s. induction cnf as [|c cnf IH]; intros s; simpl.
  - by rewrite app_nil_r.
  - rewrite IH, added_add_clause, <- app_assoc. done.
Qed.

Lemma added_load cnf : added (load cnf) = cnf.
Proof. unfold load. by rewrite added_fold, added_new. Qed.

Lemma solve_true_iff s : (solve s).1 = true ↔ satisfiable (added s).
Proof.
  split.
  - intros H. destruct (solve_sound s H) as [Hf Hm]. by eexists.
  - intros H. destruct (solve s).1 eqn:E; [done|].
    by destruct (solve_complete s E).
Qed.
End OracleFacts.

(** ** Lemmas: blocking clauses and the measure of the enumeration loop *)

Lemma elem_of_blocking_clause model l :
  l ∈ blocking_clause model ↔ ∃ v, v ∈ model ∧ 0 < v ∧ l = - v.
Proof.
  unfold blocking_clause. rewrite list_elem_of_fmap. split.
  - intros (v & -> & Hv). exists v.
    apply list_elem_of_In, filter_In in Hv as [Hin Hpos].
    split; [by apply list_elem_of_In|]. split; [lia|done].
  - intros (v & Hin & Hpos & ->). exists v. split; [done|].
    apply list_elem_of_In, filter_In. split; [by apply list_elem_of_In|lia].
Qed.

Lemma blocking_clause_falsified n model a :
  full_model n model → full_model n a →
  clause_holds a (blocking_clause model) = false ↔
  ∀ v, 0 < v → v ∈ model → v ∈ a.
Proof.
  intros Hm Ha. rewrite <- not_true_iff_false, clause_holds_iff. split.
  - intros Hno v Hpos Hv.
    pose proof (full_model_elem _ _ _ Hm Hv) as Hr.
    destruct (full_model_total n a v Ha) as [H|H]; [lia|done|].
    destruct Hno. exists (- v). split; [|done].
    apply elem_of_blocking_clause. by exists v.
  - intros Hsup (l & (v & Hv & Hpos & ->)%elem_of_blocking_clause & Hl).
    by eapply (full_model_consistent n a v); [|apply Hsup|].
Qed.

Lemma blocking_clause_blocks n model :
  full_model n model → clause_holds model (blocking_clause model) = false.
Proof. intros H. by apply (blocking_clause_falsified n model model). Qed.

Lemma nof_vars_blocking cnf model :
  full_model (nof_vars cnf) model →
  nof_vars (cnf ++ [blocking_clause model]) = nof_vars cnf.
Proof.
  intros Hm. rewrite nof_vars_app.
  assert (nof_vars [blocking_clause model] ≤ nof_vars cnf); [|lia].
  apply nof_vars_le; [apply nof_vars_ge|].
  intros c l ->%list_elem_of_singleton
    (v & Hv & _ & ->)%elem_of_blocking_clause.
  rewrite Z.abs_opp. by apply (full_model_elem _ _ _ Hm).
Qed.

Lemma filter_length_lt {A} (f g : A → bool) (l : list A) x :
  (∀ y, g y = true → f y = true) →
  x ∈ l → f x = true → g x = false →
  (length (List.filter g l) < length (List.filter f l))%nat.
Proof.
  intros Himp Hx Hf Hg.
  assert (∀ l', length (List.filter g l') ≤ length (List.filter f l'))%nat
    as Hle.
  { induction l' as [|y l' IH]; simpl; [done|].
    destruct (g y) eqn:Eg; [rewrite (Himp _ Eg); simpl; lia|].
    destruct (f y); simpl; lia. }
  induction l as [|y l IH]; [by apply elem_of_nil in Hx|].
  apply elem_of_cons in Hx as [<-|Hx]; simpl.
  - rewrite Hf, Hg. simpl. specialize (Hle l). lia.
  - specialize (IH Hx). destruct (g y) eqn:Eg.
    + rewrite (Himp _ Eg). simpl. lia.
    + destruct (f y); simpl; lia.
Qed.

(** The number of full models of a clause list: what the loop decreases. *)
Lemma count_models_blocking cnf model :
  full_model (nof_vars cnf) model → models model cnf = true →
  (length (List.filter (λ m, models m (cnf ++ [blocking_clause model]))
             (all_models (nof_vars (cnf ++ [blocking_clause model])))) <
   length (List.filter (λ m, models m cnf) (all_models (nof_vars cnf))))%nat.
Proof.
  intros Hfull Hsat. rewrite (nof_vars_blocking _ _ Hfull).
  apply (filter_length_lt _ _ _ model).
  - intros m. rewrite models_app. by intros [? _]%andb_true_iff.
  - by apply elem_of_all_models.
  - done.
  - rewrite models_app, Hsat. simpl.
    by rewrite (blocking_clause_blocks _ _ Hfull).
Qed.

Section Enumeration.
Context {O : Oracle} {L : OracleLaws O}.

Lemma enumerate_step fuel fm s mwps :
  (solve s).1 = true →
  enumerate (S fuel) fm s mwps =
  enumerate fuel fm
    (add_clause (solve s).2 (blocking_clause (get_model (solve s).2)))
    (if is_valid_mwp fm (product_of fm (get_model (solve s).2))
     then mwps ++ [product_of fm (get_model (solve s).2)] else mwps).
Proof. intros H. simpl. destruct (solve s) as [b s']. simpl in H. by subst. Qed.

Lemma enumerate_stop fuel fm s mwps :
  (solve s).1 = false → enumerate (S fuel) fm s mwps = Some mwps.
Proof. intros H. simpl. destruct (solve s) as [b s']. simpl in H. by subst. Qed.

Lemma enumerate_terminates fm fuel :
  ∀ s mwps,
    (length (List.filter (λ m, models m (added s))
               (all_models (nof_vars (added s)))) < fuel)%nat →
    is_Some (enumerate fuel fm s mwps).
Proof.
  induction fuel as [|fuel IH]; intros s mwps Hlt; [lia|].
  destruct (solve s).1 eqn:E.
  - rewrite (enumerate_step _ _ _ _ E). apply IH.
    rewrite added_add_clause, added_solve.
    destruct (solve_sound s E) as [Hfull Hsat].
    pose proof (count_models_blocking _ _ Hfull Hsat). lia.
  - rewrite (enumerate_stop _ _ _ _ E). by eexists.
Qed.
End Enumeration.

(** ** Lemmas: the clause functions *)

Lemma elem_of_flat_map {A B} (f : A → list B) (l : list A) (y : B) :
  y ∈ flat_map f l ↔ ∃ x, x ∈ l ∧ y ∈ f x.
Proof.
  rewrite list_elem_of_In, in_flat_map. split.
  - intros (x & Hx & Hy). exists x. by rewrite !list_elem_of_In.
  - intros (x & Hx & Hy). exists x. by rewrite <- !list_elem_of_In.
Qed.

Lemma own_clauses_sub V r f c :
  f ∈ subfeatures r → c ∈ own_clauses V f → c ∈ feature_clauses V r.
Proof.
  induction r as [nm m p cs g IH] using Feature_tree_ind. simpl.
  intros [->|Hf]%elem_of_cons Hc; apply elem_of_app; [by left|right].
  apply elem_of_flat_map in Hf as (x & Hx & Hf).
  apply elem_of_flat_map. exists x. split; [done|].
  rewrite Forall_forall in IH. by apply IH.
Qed.

Lemma own_names_sub r f nm :
  f ∈ subfeatures r → nm ∈ own_names f → nm ∈ tree_names r.
Proof.
  induction r as [n m p cs g IH] using Feature_tree_ind. simpl.
  intros [->|Hf]%elem_of_cons Hc.
  - change (nm ∈ own_names (mkFeature n m p cs g) ++ flat_map tree_names cs).
    apply elem_of_app. by left.
  - change (nm ∈ own_names (mkFeature n m p cs g) ++ flat_map tree_names cs).
    apply elem_of_app. right.
    apply elem_of_flat_map in Hf as (x & Hx & Hf).
    apply elem_of_flat_map. exists x. split; [done|].
    rewrite Forall_forall in IH. by apply IH.
Qed.

Lemma own_clauses_lits V f c l :
  c ∈ own_clauses V f → l ∈ c →
  ∃ nm, nm ∈ own_names f ∧ (l = V nm ∨ l = - V nm).
Proof.
  unfold own_clauses, own_names, root_clauses, edge_clauses, group_clauses,
    edge_names, group_names, at_least_one, exclusions.
  rewrite !elem_of_app. intros [Hc|[Hc|Hc]] Hl.
  - destruct (negb (truthy (parent f))); [|by apply elem_of_nil in Hc].
    apply list_elem_of_singleton in Hc as ->.
    apply list_elem_of_singleton in Hl as ->. exists (name f). split; [left|by left].
  - destruct (truthy (parent f)); [|by apply elem_of_nil in Hc].
    assert (l = V (name f) ∨ l = - V (name f) ∨
            l = V (default "" (parent f)) ∨ l = - V (default "" (parent f)))
      as Hcases.
    { destruct (mandatory f);
        repeat (apply elem_of_cons in Hc as [->|Hc]);
        try (by apply elem_of_nil in Hc);
        repeat (apply elem_of_cons in Hl as [->|Hl]);
        try (by apply elem_of_nil in Hl); tauto. }
    destruct Hcases as [H|[H|[H|H]]].
    + exists (name f). split; [left|by left].
    + exists (name f). split; [left|by right].
    + exists (default "" (parent f)). split; [|by left].
      right. apply elem_of_app. left. left.
    + exists (default "" (parent f)). split; [|by right].
      right. apply elem_of_app. left. left.
  - assert (bool_decide (group f = Some "XOR")
            || bool_decide (group f = Some "OR") = true ∧
            (l = - V (name f) ∨
             ∃ nm, nm ∈ map name (children f) ∧ (l = V nm ∨ l = - V nm)))
      as [Hg Hcases].
    { destruct (bool_decide (group f = Some "XOR")) eqn:Ex; simpl.
      - split; [done|]. apply elem_of_cons in Hc as [->|Hc].
        + apply elem_of_cons in Hl as [->|Hl]; [by left|right].
          apply list_elem_of_fmap in Hl as (nm & -> & Hnm). eauto.
        + apply list_elem_of_fmap in Hc as ([c1 c2] & -> & Hp).
          apply combinations2_elem in Hp as [H1 H2]. right.
          apply elem_of_cons in Hl as [->|Hl]; [eauto|].
          apply list_elem_of_singleton in Hl as ->. eauto.
      - destruct (bool_decide (group f = Some "OR")); [|by apply elem_of_nil in Hc].
        split; [done|]. apply list_elem_of_singleton in Hc as ->.
        apply elem_of_cons in Hl as [->|Hl]; [by left|right].
        apply list_elem_of_fmap in Hl as (nm & -> & Hnm). eauto. }
    destruct Hcases as [->|(nm & Hnm & H)].
    + exists (name f). split; [left|by right].
    + exists nm. split; [|done]. right. apply elem_of_app. right.
      by rewrite Hg.
Qed.

Lemma feature_clauses_lits V r c l :
  c ∈ feature_clauses V r → l ∈ c →
  ∃ nm, nm ∈ tree_names r ∧ (l = V nm ∨ l = - V nm).
Proof.
  induction r as [n m p cs g IH] using Feature_tree_ind. simpl.
  intros [Hc|Hc]%elem_of_app Hl.
  - destruct (own_clauses_lits _ _ _ _ Hc Hl) as (nm & Hnm & H).
    exists nm. split; [|done].
    change (nm ∈ own_names (mkFeature n m p cs g) ++ flat_map tree_names cs).
    apply elem_of_app. by left.
  - apply elem_of_flat_map in Hc as (x & Hx & Hc).
    rewrite Forall_forall in IH.
    destruct (IH x Hx Hc Hl) as (nm & Hnm & H). exists nm. split; [|done].
    change (nm ∈ own_names (mkFeature n m p cs g) ++ flat_map tree_names cs).
    apply elem_of_app. right. apply elem_of_flat_map. eauto.
Qed.

Lemma constraint_clauses_lits V cs c l :
  c ∈ constraint_clauses V cs → l ∈ c →
  ∃ nm, nm ∈ constraint_names cs ∧ (l = V nm ∨ l = - V nm).
Proof.
  unfold constraint_clauses, constraint_names.
  intros (x & Hx & Hc)%elem_of_flat_map Hl.
  destruct (qualifies x) eqn:Eq; [|by apply elem_of_nil in Hc].
  assert (existsb qualifies cs = true) as ->.
  { apply existsb_exists. exists x. split; [by apply list_elem_of_In|done]. }
  apply list_elem_of_singleton in Hc as ->.
  apply elem_of_cons in Hl as [->|Hl].
  - exists "ByLocation". split; [left|by right].
  - apply list_elem_of_singleton in Hl as ->.
    exists "Location". split; [right; left|by left].
Qed.

Lemma compiled_lits fm r cs c l :
  registry_ok fm →
  Forall (λ nm, is_Some (var_map fm !! nm))
         (tree_names r ++ constraint_names cs) →
  c ∈ compiled (var_of fm) r cs → l ∈ c → 1 ≤ Z.abs l < next_var fm.
Proof.
  intros (_ & Hfw & _) Hreg Hc Hl. rewrite Forall_forall in Hreg.
  assert (∃ nm, nm ∈ tree_names r ++ constraint_names cs ∧
                (l = var_of fm nm ∨ l = - var_of fm nm)) as (nm & Hnm & H).
  { apply elem_of_app in Hc as [Hc|Hc].
    - destruct (feature_clauses_lits _ _ _ _ Hc Hl) as (nm & ? & ?).
      exists nm. split; [apply elem_of_app; by left|done].
    - destruct (constraint_clauses_lits _ _ _ _ Hc Hl) as (nm & ? & ?).
      exists nm. split; [apply elem_of_app; by right|done]. }
  destruct (Hreg nm Hnm) as [v Hv]. destruct (Hfw _ _ Hv) as [Hr _].
  unfold var_of in H. rewrite Hv in H. simpl in H. lia.
Qed.

Lemma registry_ok_same fm fm' :
  var_map fm' = var_map fm → reverse_map fm' = reverse_map fm →
  next_var fm' = next_var fm → registry_ok fm → registry_ok fm'.
Proof. unfold registry_ok. by intros -> -> ->. Qed.

Lemma registered_var fm nm v :
  registry_ok fm → var_map fm !! nm = Some v →
  var_of fm nm = v ∧ 1 ≤ v < next_var fm ∧ get_name fm v = Some nm.
Proof.
  intros (_ & Hfw & _) Hv. destruct (Hfw _ _ Hv) as [Hr Hrev].
  unfold var_of, get_name. rewrite Hv. split; [done|]. split; [done|].
  by rewrite Z.abs_eq by lia.
Qed.

Lemma registered_inj fm a b v :
  registry_ok fm → var_map fm !! a = Some v → var_map fm !! b = Some v → a = b.
Proof.
  intros (_ & Hfw & _) Ha Hb.
  destruct (Hfw _ _ Ha) as [_ Ha']. destruct (Hfw _ _ Hb) as [_ Hb'].
  congruence.
Qed.


(** ** Theorems: the compiler's edges, the filter, the enumeration loop *)

(** The test [feature["parent"]] is Python truth: a feature whose parent
    is named by the empty string goes through the root block, and gets no
    parent-child clause. *)
Lemma empty_parent_name_is_root f var fm cnf :
  parent f = Some "" →
  root_step f var (fm, cnf) = (add_rule (name f) fm, cnf ++ [[var]]) ∧
  edge_step f var (fm, cnf) = (fm, cnf).
Proof. intros H. unfold root_step, edge_step. by rewrite H. Qed.




(** On the same tree the validator accepts {root, A}: the feature named
    "" between them is not required. *)
Lemma unnamed_parent_selection :
  (@validate_selection brute_force unnamed_model
     {[ Some "root"; Some "A" ]}).1
  = Ok {| isValid := true; messages := [] |}.
Proof. vm_compute. reflexivity. Qed.

Lemma other_subset_iff (mwp other : gset pyname) :
  bool_decide (other ≠ mwp) && bool_decide (other ⊆ mwp) = true ↔ other ⊂ mwp.
Proof.
  rewrite andb_true_iff, !bool_decide_eq_true, strict_spec_alt. tauto.
Qed.

Lemma has_strict_subset_iff (mwps : list (gset pyname)) (mwp : gset pyname) :
  existsb (λ other, bool_decide (other ≠ mwp) && bool_decide (other ⊆ mwp))
          mwps = true ↔
  Exists (λ other, other ⊂ mwp) mwps.
Proof.
  rewrite existsb_exists, Exists_exists. split.
  - intros (o & Ho & H). exists o. split; [by apply list_elem_of_In|].
    by apply other_subset_iff.
  - intros (o & Ho & H). exists o. split; [by apply list_elem_of_In|].
    by apply other_subset_iff.
Qed.

(** C5.  The minimality filter keeps, in order, exactly the candidates of
    which no other candidate of the list is a strict subset; of
    [{root, A, B}] and [{root, A, B, C}] only the first survives. *)
Theorem filter_minimal_mwps_keeps_minimal (mwps : list (gset pyname)) :
  filter_minimal_mwps mwps
  = filter (λ mwp, ¬ Exists (λ other, other ⊂ mwp) mwps) mwps ∧
  (∀ mwp, mwp ∈ filter_minimal_mwps mwps ↔
          mwp ∈ mwps ∧ ∀ other, other ∈ mwps → ¬ other ⊂ mwp) ∧
  filter_minimal_mwps
    [ {[ Some "root"; Some "A"; Some "B" ]};
      {[ Some "root"; Some "A"; Some "B"; Some "C" ]} ]
  = [ {[ Some "root"; Some "A"; Some "B" ]} ].
Proof.
  assert (∀ l : list (gset pyname),
    List.filter
      (λ mwp, negb (existsb (λ other, bool_decide (other ≠ mwp)
                                      && bool_decide (other ⊆ mwp)) mwps)) l
    = filter (λ mwp, ¬ Exists (λ other, other ⊂ mwp) mwps) l) as Heq.
  { induction l as [|x l IH]; [done|]. simpl. rewrite filter_cons, IH.
    destruct (existsb _ mwps) eqn:E; simpl.
    - apply has_strict_subset_iff in E. by rewrite decide_False by tauto.
    - rewrite decide_True; [done|]. rewrite <- has_strict_subset_iff.
      by rewrite E. }
  split; [apply Heq|]. split.
  - intros mwp. unfold filter_minimal_mwps. rewrite Heq, list_elem_of_filter.
    rewrite Exists_exists. split.
    + intros [Hno Hin]. split; [done|]. intros o Ho Hsub. apply Hno. eauto.
    + intros [Hin Hno]. split; [|done]. intros (o & Ho & Hsub).
      by apply (Hno o).
  - vm_compute. reflexivity.
Qed.

Lemma generate_ok fm r :
  root fm = Some r → ∃ cnf fm', generate_rules_and_cnf fm = (Ok cnf, fm').
Proof.
  intros Hroot. unfold generate_rules_and_cnf.
  change (root (reset_rules fm)) with (root fm). rewrite Hroot.
  destruct (fold_left _ _ _) as [fm' cnf]. by exists cnf, fm'.
Qed.

(** C3, as the code has it.  When [solve] succeeds, the loop hands the
    solver one more clause, made of the negation of every variable the
    model assigns true.  The model itself falsifies that clause, and a
    full assignment over the same variables falsifies it exactly when it
    assigns true every variable the model assigns true: the clause
    removes the model and all assignments above it, and keeps every
    assignment that makes one of those variables false. *)
Theorem blocking_clause_eliminates_supersets {O : Oracle} (L : OracleLaws O)
    (fuel : nat) (fm : FeatureModel) (s : solver)
    (mwps : list (gset pyname)) :
  (solve s).1 = true →
  (∃ s' mwps',
     enumerate (S fuel) fm s mwps = enumerate fuel fm s' mwps' ∧
     added s' = added s ++ [blocking_clause (get_model (solve s).2)]) ∧
  (∀ l, l ∈ blocking_clause (get_model (solve s).2) ↔
        ∃ v, v ∈ get_model (solve s).2 ∧ 0 < v ∧ l = - v) ∧
  clause_holds (get_model (solve s).2)
               (blocking_clause (get_model (solve s).2)) = false ∧
  (∀ a, full_model (nof_vars (added s)) a →
        clause_holds a (blocking_clause (get_model (solve s).2)) = false ↔
        ∀ v, 0 < v → v ∈ get_model (solve s).2 → v ∈ a).
Proof.
  intros Hsat. destruct (solve_sound s Hsat) as [Hfull Hmodels].
  split; [|split; [|split]].
  - eexists _, _. split; [by apply enumerate_step|].
    by rewrite added_add_clause, added_solve.
  - apply elem_of_blocking_clause.
  - by eapply blocking_clause_blocks.
  - intros a Ha. by eapply blocking_clause_falsified.
Qed.

Lemma blocking_clause_eliminates_supersets_witness :
  clause_holds [1; -2] (blocking_clause [1; -2]) = false ∧
  ∀ a, full_model 2 a →
       clause_holds a (blocking_clause [1; -2]) = false ↔
       ∀ v, 0 < v → v ∈ [1; -2] → v ∈ a.
Proof.
  exact (proj2 (proj2
    (blocking_clause_eliminates_supersets brute_force_laws 0 optional_model
       (@load brute_force [[1]; [-2; 1]]) [] eq_refl))).
Defined.

(** C3 as stated fails: for root with an optional child A the first
    model found makes A false; the clause then added also removes the
    assignment that makes A true, which differs from the model found and
    satisfies the compiled clauses.  The product {root, A} is never
    enumerated. *)
Lemma blocking_clause_counterexample :
  (generate_rules_and_cnf optional_model).1 = Ok [[1]; [-2; 1]] ∧
  (@solve brute_force (@load brute_force [[1]; [-2; 1]])).1 = true ∧
  @get_model brute_force
    (@solve brute_force (@load brute_force [[1]; [-2; 1]])).2 = [1; -2] ∧
  full_model 2 [1; 2] ∧ [1; 2] ≠ [1; -2] ∧
  models [1; 2] [[1]; [-2; 1]] = true ∧
  clause_holds [1; 2] (blocking_clause [1; -2]) = false ∧
  fst <$> @find_mwps brute_force 3 optional_model
  = Some (Ok [ {[ Some "root" ]} ]).
Proof.
  repeat split; try (vm_compute; reflexivity). discriminate.
Qed.

(** C4.  With a lawful solver the solve/block loop of [find_mwps] stops:
    from some number of [solve] calls on, the enumerator returns, and it
    returns a list of products whenever a tree has been parsed. *)
Theorem find_mwps_terminates {O : Oracle} (L : OracleLaws O)
    (fm : FeatureModel) :
  ∃ fuel, ∀ fuel', (fuel ≤ fuel')%nat →
    ∃ out, find_mwps fuel' fm = Some out ∧
           (is_Some (root fm) → ∃ mwps, out.1 = Ok mwps).
Proof.
  unfold find_mwps.
  destruct (generate_rules_and_cnf fm) as [[cnf|e] fm'] eqn:Hgen.
  - exists (S (length (List.filter (λ m, models m (added (load cnf)))
                         (all_models (nof_vars (added (load cnf))))))).
    intros fuel' Hle.
    destruct (enumerate_terminates fm' fuel' (load cnf) []) as [mwps Hm];
      [lia|].
    rewrite Hm. eexists. split; [done|]. intros _. by eexists.
  - exists 0%nat. intros fuel' _. eexists. split; [done|].
    intros [r Hr]. destruct (generate_ok fm r Hr) as (cnf & fm'' & H).
    congruence.
Qed.

Lemma find_mwps_terminates_witness :
  ∃ fuel, ∀ fuel', (fuel ≤ fuel')%nat →
    ∃ out, @find_mwps brute_force fuel' demo_model = Some out ∧
           (is_Some (root demo_model) → ∃ mwps, out.1 = Ok mwps).
Proof. exact (find_mwps_terminates brute_force_laws demo_model). Defined.

(** ** Lemmas: the validator *)

Section Validator.
Context {O : Oracle} {L : OracleLaws O}.

Lemma select_fold_spec sel names fm s :
  registry_ok fm →
  registry_ok (fold_left (select_step sel) names (fm, s)).1 ∧
  extends fm (fold_left (select_step sel) names (fm, s)).1 ∧
  Forall (λ nm, is_Some (var_map
            (fold_left (select_step sel) names (fm, s)).1 !! nm)) names ∧
  ∀ fm'', extends (fold_left (select_step sel) names (fm, s)).1 fm'' →
    added (fold_left (select_step sel) names (fm, s)).2
    = added s ++ selection_clauses (var_of fm'') sel names.
Proof.
  revert fm s. induction names as [|nm names IH]; intros fm s Hok.
  { simpl. split; [done|]. split; [apply extends_refl|].
    split; [constructor|]. intros. by rewrite app_nil_r. }
  simpl fold_left. unfold select_step at 2.
  destruct (get_var_spec fm nm Hok) as (Hok1 & Hext1 & Hv1 & _).
  destruct (get_var nm fm) as [v fm1] eqn:E1. cbn [fst snd] in *.
  set (s1 := add_clause s (if bool_decide (Some nm ∈ sel)
                           then [v] else [- v])).
  assert ((if bool_decide (Some nm ∈ sel)
           then (fm1, add_clause s [v]) else (fm1, add_clause s [- v]))
          = (fm1, s1)) as -> by (unfold s1; by destruct (bool_decide _)).
  destruct (IH fm1 s1 Hok1) as (Hok2 & Hext2 & Hn2 & Hadd).
  split; [done|]. split; [by eapply extends_trans|]. split.
  - constructor; [|done]. eapply extends_is_Some; [exact Hext2|by eexists].
  - intros fm'' Hext. rewrite (Hadd _ Hext). unfold s1.
    rewrite added_add_clause, <- app_assoc. f_equal. simpl. f_equal.
    rewrite (var_of_extends fm1 fm'' nm v); [by destruct (bool_decide _)| |done].
    by eapply extends_trans.
Qed.

Lemma validate_selection_spec fm r sel :
  registry_ok fm → root fm = Some r →
  ∃ cnf fm1 fm2 b,
    generate_rules_and_cnf fm = (Ok cnf, fm1) ∧
    registry_ok fm1 ∧ extends fm fm1 ∧
    Forall (λ nm, is_Some (var_map fm1 !! nm))
           (tree_names r ++ constraint_names (constraints fm)) ∧
    cnf = compiled (var_of fm2) r (constraints fm) ∧
    registry_ok fm2 ∧ extends fm1 fm2 ∧
    Forall (λ nm, is_Some (var_map fm2 !! nm)) (features fm).*1 ∧
    (b = true ↔
     satisfiable (cnf ++ selection_clauses (var_of fm2) sel (features fm).*1)) ∧
    validate_selection fm sel =
    (Ok {| isValid := b;
           messages := if b then []
                       else cross_tree_check sel (check_feature sel r []) |},
     fm2).
Proof.
  intros Hok Hroot.
  destruct (generate_spec fm r Hok Hroot)
    as (cnf & fm1 & Hgen & Hok1 & Hext1 & Hreg1 & Hcnf).
  unfold validate_selection. rewrite Hgen.
  assert (features fm1 = features fm) as -> by apply Hext1.
  destruct (select_fold_spec sel (features fm).*1 fm1 (load cnf) Hok1)
    as (Hok2 & Hext2 & Hreg2 & Hadd).
  destruct (fold_left (select_step sel) (features fm).*1 (fm1, load cnf))
    as [fm2 s2] eqn:Efold. cbn [fst snd] in *.
  specialize (Hadd fm2 (extends_refl _)). rewrite added_load in Hadd.
  exists cnf, fm1, fm2, (solve s2).1.
  split; [done|]. split; [done|]. split; [done|]. split; [done|].
  split; [by apply Hcnf|]. split; [done|]. split; [done|]. split; [done|].
  split; [by rewrite solve_true_iff, Hadd|].
  destruct (solve s2).1; simpl; [done|].
  unfold get_violation_messages.
  assert (root fm2 = Some r) as ->; [|done].
  destruct Hext2 as (_ & _ & _ & ->). destruct Hext1 as (_ & _ & _ & ->). done.
Qed.
End Validator.

Lemma check_feature_eq sel f msgs :
  check_feature sel f msgs =
  fold_left (λ msgs child, check_feature sel child msgs) (children f)
            (group_check sel f (mandatory_check sel f msgs)).
Proof. by destruct f. Qed.

Lemma mandatory_check_mono sel f msgs x :
  x ∈ msgs → x ∈ mandatory_check sel f msgs.
Proof.
  intros Hx. unfold mandatory_check.
  destruct (_ && _); [apply elem_of_app; by left|done].
Qed.

Lemma group_check_mono sel f msgs x : x ∈ msgs → x ∈ group_check sel f msgs.
Proof.
  intros Hx. unfold group_check.
  repeat (destruct (bool_decide _) || destruct (negb _));
    try done; apply elem_of_app; by left.
Qed.

Lemma cross_tree_check_mono sel msgs x :
  x ∈ msgs → x ∈ cross_tree_check sel msgs.
Proof.
  intros Hx. unfold cross_tree_check.
  destruct (_ && _); [apply elem_of_app; by left|done].
Qed.

Lemma check_children_mono sel cs :
  Forall (λ c, ∀ msgs x, x ∈ msgs → x ∈ check_feature sel c msgs) cs →
  ∀ msgs x, x ∈ msgs →
    x ∈ fold_left (λ msgs child, check_feature sel child msgs) cs msgs.
Proof.
  induction 1 as [|c cs Hc _ IH]; intros msgs x Hx; simpl; [done|].
  by apply IH, Hc.
Qed.

Lemma check_feature_mono sel f :
  ∀ msgs x, x ∈ msgs → x ∈ check_feature sel f msgs.
Proof.
  induction f as [nm m p cs g IH] using Feature_tree_ind.
  intros msgs x Hx. rewrite check_feature_eq.
  apply (check_children_mono sel cs IH).
  by apply group_check_mono, mandatory_check_mono.
Qed.

Lemma check_feature_missing sel r f :
  f ∈ subfeatures r → mandatory f = true →
  parent f ∈ sel → Some (name f) ∉ sel →
  ∀ msgs, ("Missing mandatory feature: " +:+ name f)
          ∈ check_feature sel r msgs.
Proof.
  intros Hf Hmand Hp Hn.
  induction r as [nm m p cs g IH] using Feature_tree_ind.
  intros msgs. rewrite check_feature_eq.
  simpl in Hf. apply elem_of_cons in Hf as [->|Hf].
  - apply check_children_mono.
    + apply Forall_forall. intros c _. apply check_feature_mono.
    + apply group_check_mono. unfold mandatory_check.
      rewrite Hmand, !bool_decide_eq_true_2 by done. simpl.
      apply elem_of_app. right. left.
  - apply elem_of_flat_map in Hf as (c & Hc & Hf). cbn [children].
    generalize (group_check sel (mkFeature nm m p cs g)
                  (mandatory_check sel (mkFeature nm m p cs g) msgs)).
    induction IH as [|c' cs' Hc' _ IHcs]; [by apply elem_of_nil in Hc|].
    intros msgs'. simpl. apply elem_of_cons in Hc as [<-|Hc].
    + apply check_children_mono.
      * apply Forall_forall. intros ? _. apply check_feature_mono.
      * by apply Hc'.
    + by apply IHcs.
Qed.

Lemma unit_clash_unsat cnf a :
  [a] ∈ cnf → [- a] ∈ cnf → ¬ satisfiable cnf.
Proof.
  intros Ha Hna (m & Hfull & Hm). rewrite models_iff in Hm.
  pose proof (Hm _ Ha) as H1. pose proof (Hm _ Hna) as H2.
  apply clause_holds_iff in H1 as (l1 & ->%list_elem_of_singleton & Hl1).
  apply clause_holds_iff in H2 as (l2 & ->%list_elem_of_singleton & Hl2).
  exact (full_model_consistent _ _ a Hfull Hl1 Hl2).
Qed.

Lemma implication_clash_unsat cnf a b :
  [- a; b] ∈ cnf → [a] ∈ cnf → [- b] ∈ cnf → ¬ satisfiable cnf.
Proof.
  intros Himp Ha Hnb (m & Hfull & Hm). rewrite models_iff in Hm.
  pose proof (Hm _ Ha) as H1. pose proof (Hm _ Hnb) as H2.
  pose proof (Hm _ Himp) as H3.
  apply clause_holds_iff in H1 as (l1 & ->%list_elem_of_singleton & Hl1).
  apply clause_holds_iff in H2 as (l2 & ->%list_elem_of_singleton & Hl2).
  apply clause_holds_iff in H3 as (l & Hl & Hlm).
  apply elem_of_cons in Hl as [->|Hl].
  - exact (full_model_consistent _ _ a Hfull Hl1 Hlm).
  - apply list_elem_of_singleton in Hl as ->.
    exact (full_model_consistent _ _ b Hfull Hlm Hl2).
Qed.

Lemma selection_clause_selected V sel names nm :
  nm ∈ names → Some nm ∈ sel → [V nm] ∈ selection_clauses V sel names.
Proof.
  intros Hnm Hsel. apply list_elem_of_fmap. exists nm. split; [|done].
  by rewrite bool_decide_eq_true_2.
Qed.

Lemma selection_clause_unselected V sel names nm :
  nm ∈ names → Some nm ∉ sel → [- V nm] ∈ selection_clauses V sel names.
Proof.
  intros Hnm Hsel. apply list_elem_of_fmap. exists nm. split; [|done].
  by rewrite bool_decide_eq_false_2.
Qed.

Lemma root_clause_in V r f :
  f ∈ subfeatures r → truthy (parent f) = false →
  [V (name f)] ∈ feature_clauses V r.
Proof.
  intros Hf Hp. apply (own_clauses_sub V r f _ Hf).
  unfold own_clauses, root_clauses. rewrite Hp. simpl. left.
Qed.

Lemma mandatory_clause_in V r f p :
  f ∈ subfeatures r → parent f = Some p → p ≠ "" → mandatory f = true →
  [- V p; V (name f)] ∈ feature_clauses V r.
Proof.
  intros Hf Hp Hne Hm. apply (own_clauses_sub V r f _ Hf).
  unfold own_clauses, edge_clauses. rewrite Hp, Hm.
  assert (truthy (Some p) = true) as -> by (simpl; by destruct p).
  apply elem_of_app. right. apply elem_of_app. left. left.
Qed.

Lemma child_subfeature r a : a ∈ children r → a ∈ subfeatures r.
Proof.
  intros Ha. destruct r as [nm m p cs g]. simpl in *. right.
  apply elem_of_flat_map. exists a. split; [done|].
  destruct a. left.
Qed.

(** C6.  The validator answers with [isValid = true] and no message
    exactly when the compiled clauses together with one unit clause per
    known feature (positive when selected, negative otherwise) have a
    model.  When they have none it answers [isValid = false], and the
    messages name every mandatory feature of the tree whose parent is
    selected and which is not.  For the selection of the root alone, with
    a mandatory child A of the root, the answer is [isValid = false] with
    the message for A. *)
Theorem validate_selection_verdict {O : Oracle} (L : OracleLaws O)
    (fm : FeatureModel) (r : Feature) (sel : gset pyname) :
  registry_ok fm → root fm = Some r →
  ∃ cnf fm1 v fm2,
    generate_rules_and_cnf fm = (Ok cnf, fm1) ∧
    validate_selection fm sel = (Ok v, fm2) ∧
    ((isValid v = true ∧ messages v = []) ↔
     satisfiable (cnf ++ selection_clauses (var_of fm2) sel (features fm).*1)) ∧
    (¬ satisfiable
         (cnf ++ selection_clauses (var_of fm2) sel (features fm).*1) →
     isValid v = false ∧
     ∀ f, f ∈ subfeatures r → mandatory f = true →
          parent f ∈ sel → Some (name f) ∉ sel →
          ("Missing mandatory feature: " +:+ name f) ∈ messages v) ∧
    (∀ a, a ∈ children r → mandatory a = true →
          parent a = Some (name r) → name a ≠ name r →
          name r ∈ (features fm).*1 → name a ∈ (features fm).*1 →
          sel = {[ Some (name r) ]} →
          isValid v = false ∧
          ("Missing mandatory feature: " +:+ name a) ∈ messages v).
Proof.
  intros Hok Hroot.
  destruct (validate_selection_spec fm r sel Hok Hroot)
    as (cnf & fm1 & fm2 & b & Hgen & Hok1 & Hext1 & Hreg1 & Hcnf & Hok2 &
        Hext2 & Hreg2 & Hb & Hval).
  set (problem := cnf ++ selection_clauses (var_of fm2) sel (features fm).*1)
    in *.
  assert (¬ satisfiable problem →
          b = false ∧
          ∀ f, f ∈ subfeatures r → mandatory f = true →
               parent f ∈ sel → Some (name f) ∉ sel →
               ("Missing mandatory feature: " +:+ name f)
               ∈ (if b then [] else cross_tree_check sel (check_feature sel r [])))
    as Hunsat.
  { intros Hno. assert (b = false) as ->.
    { destruct b; [|done]. destruct Hno. by apply Hb. }
    split; [done|]. intros f Hf Hm Hp Hn.
    by apply cross_tree_check_mono, check_feature_missing. }
  eexists cnf, fm1, _, fm2. split; [done|]. split; [exact Hval|].
  cbn [isValid messages]. split; [|split; [exact Hunsat|]].
  - split; [intros [Hv _]; by apply Hb|].
    intros Hs. apply Hb in Hs. by subst b.
  - intros a Ha Hmand Hpa Hne Hr_in Ha_in ->.
    assert (Some (name a) ∉ ({[Some (name r)]} : gset pyname)) as Hnot.
    { rewrite elem_of_singleton. congruence. }
    assert (¬ satisfiable problem) as Hno.
    { assert ([- var_of fm2 (name a)] ∈ problem) as Hna.
      { apply elem_of_app. right.
        by apply selection_clause_unselected. }
      destruct (decide (name r = "")) as [He|He].
      - apply (unit_clash_unsat _ (var_of fm2 (name a))); [|done].
        apply elem_of_app. left. rewrite Hcnf. apply elem_of_app. left.
        apply root_clause_in; [by apply child_subfeature|].
        by rewrite Hpa, He.
      - apply (implication_clash_unsat _ (var_of fm2 (name r))
                 (var_of fm2 (name a))); [| |done].
        + apply elem_of_app. left. rewrite Hcnf. apply elem_of_app. left.
          by apply mandatory_clause_in; [apply child_subfeature|..].
        + apply elem_of_app. right.
          apply selection_clause_selected; [done|].
          by apply elem_of_singleton. }
    destruct (Hunsat Hno) as [-> Hmsgs]. split; [done|].
    apply Hmsgs; [by apply child_subfeature|done| |done].
    rewrite Hpa. by apply elem_of_singleton.
Qed.

Lemma demo_registry_ok : registry_ok demo_model.
Proof. apply (registry_ok_same init); [reflexivity..|apply registry_ok_init]. Qed.

Lemma demo_root_eq : root demo_model = Some demo_root.
Proof. vm_compute. reflexivity. Qed.

Lemma validate_selection_verdict_witness :
  ∃ v fm2,
    @validate_selection brute_force demo_model {[ Some "root" ]} = (Ok v, fm2) ∧
    isValid v = false ∧ "Missing mandatory feature: A" ∈ messages v.
Proof.
  destruct (validate_selection_verdict brute_force_laws demo_model demo_root
              {[ Some "root" ]} demo_registry_ok demo_root_eq)
    as (cnf & fm1 & v & fm2 & _ & Hval & _ & _ & Hscenario).
  exists v, fm2. split; [exact Hval|].
  apply (Hscenario demo_A).
  - left.
  - reflexivity.
  - reflexivity.
  - discriminate.
  - vm_compute. do 4 right. left.
  - vm_compute. do 2 right. left.
  - reflexivity.
Defined.

(** ** Lemmas: what the enumerator returns *)

Lemma elem_of_product_of fm model x :
  x ∈ product_of fm model ↔ ∃ v, v ∈ model ∧ 0 < v ∧ x = get_name fm v.
Proof.
  unfold product_of. rewrite elem_of_list_to_set, list_elem_of_fmap. split.
  - intros (v & -> & Hv). apply list_elem_of_In, filter_In in Hv as [Hin Hpos].
    exists v. split; [by apply list_elem_of_In|]. split; [lia|done].
  - intros (v & Hin & Hpos & ->). exists v. split; [done|].
    apply list_elem_of_In, filter_In. split; [by apply list_elem_of_In|lia].
Qed.

Section Products.
Context {O : Oracle} {L : OracleLaws O}.

Lemma enumerate_found (P : gset pyname → Prop) fm cnf :
  (∀ model, full_model (nof_vars cnf) model → models model cnf = true →
            P (product_of fm model)) →
  ∀ fuel s mwps res,
    (∃ extra, added s = cnf ++ extra) → nof_vars (added s) = nof_vars cnf →
    Forall P mwps → enumerate fuel fm s mwps = Some res → Forall P res.
Proof.
  intros HP. induction fuel as [|fuel IH]; intros s mwps res [extra Hadd] Hn Hall;
    [done|].
  destruct (solve s).1 eqn:E.
  - rewrite (enumerate_step _ _ _ _ E).
    destruct (solve_sound s E) as [Hfull Hsat].
    apply IH.
    + exists (extra ++ [blocking_clause (get_model (solve s).2)]).
      by rewrite added_add_clause, added_solve, Hadd, app_assoc.
    + rewrite added_add_clause, added_solve.
      by rewrite nof_vars_blocking.
    + assert (P (product_of fm (get_model (solve s).2))) as Hp.
      { apply HP; [by rewrite <- Hn|].
        rewrite Hadd, models_app in Hsat.
        by apply andb_true_iff in Hsat as [? _]. }
      destruct (is_valid_mwp _ _); [|done].
      apply Forall_app. split; [done|]. by constructor.
  - rewrite (enumerate_stop _ _ _ _ E). by intros [= <-].
Qed.

Lemma find_mwps_found (P : gset pyname → Prop) fm fuel mwps fm1 :
  find_mwps fuel fm = Some (Ok mwps, fm1) →
  ∃ cnf, generate_rules_and_cnf fm = (Ok cnf, fm1) ∧
    ((∀ model, full_model (nof_vars cnf) model → models model cnf = true →
               P (product_of fm1 model)) →
     ∀ p, p ∈ mwps → P p).
Proof.
  unfold find_mwps.
  destruct (generate_rules_and_cnf fm) as [[cnf|e] fm'] eqn:Hgen; [|done].
  destruct (enumerate fuel fm' (load cnf) []) as [res|] eqn:Hen; [|done].
  intros [= <- <-]. exists cnf. split; [done|]. intros HP p Hp.
  assert (Forall P res) as Hres.
  { apply (enumerate_found P fm' cnf HP fuel (load cnf) [] res).
    - exists []. by rewrite added_load, app_nil_r.
    - by rewrite added_load.
    - constructor.
    - done. }
  rewrite Forall_forall in Hres. apply Hres.
  unfold filter_minimal_mwps in Hp.
  apply list_elem_of_In, filter_In in Hp as [Hp _]. by apply list_elem_of_In.
Qed.
End Products.

Lemma nof_vars_below fm cnf :
  registry_ok fm →
  (∀ c l, c ∈ cnf → l ∈ c → 1 ≤ Z.abs l < next_var fm) →
  nof_vars cnf < next_var fm.
Proof.
  intros (Hn & _) Hlits.
  assert (nof_vars cnf ≤ next_var fm - 1); [|lia].
  apply nof_vars_le; [lia|]. intros c l Hc Hl.
  specialize (Hlits c l Hc Hl). lia.
Qed.

(** The product read off a model selects exactly what the model makes
    true, so the model, extended by "false", satisfies the validator's
    unit clauses. *)
Lemma product_selection_satisfiable fm1 fm2 cnf model names :
  registry_ok fm1 → registry_ok fm2 → extends fm1 fm2 →
  full_model (nof_vars cnf) model → models model cnf = true →
  (∀ c l, c ∈ cnf → l ∈ c → 1 ≤ Z.abs l < next_var fm1) →
  Forall (λ nm, is_Some (var_map fm2 !! nm)) names →
  satisfiable
    (cnf ++ selection_clauses (var_of fm2) (product_of fm1 model) names).
Proof.
  intros Hok1 Hok2 Hext Hfull Hsat Hlits Hreg.
  set (problem := cnf ++ selection_clauses _ _ _).
  exists (model_of (λ i, bool_decide (i ∈ model)) (nof_vars problem)).
  split; [apply model_of_full|]. rewrite models_iff in Hsat.
  apply models_iff. intros c [Hc|Hc]%elem_of_app; apply clause_holds_iff.
  - destruct (proj1 (clause_holds_iff _ _) (Hsat c Hc)) as (l & Hl & Hlm).
    exists l. split; [done|]. apply elem_of_model_of.
    pose proof (full_model_elem _ _ _ Hfull Hlm) as Hr.
    assert (Z.abs l ≤ nof_vars problem) as Hle.
    { apply (nof_vars_elem _ c); [|done]. apply elem_of_app. by left. }
    split; [lia|]. destruct (Z.ltb_spec 0 l).
    + by apply bool_decide_eq_true.
    + apply bool_decide_eq_false. intros Hneg.
      apply (full_model_consistent _ _ (- l) Hfull Hneg).
      by rewrite Z.opp_involutive.
  - pose proof Hc as Hc'.
    apply list_elem_of_fmap in Hc as (nm & -> & Hnm).
    rewrite Forall_forall in Hreg. destruct (Hreg nm Hnm) as [v Hv].
    destruct (registered_var _ _ _ Hok2 Hv) as (HV & Hrange & _).
    rewrite HV in *.
    destruct (bool_decide (Some nm ∈ product_of fm1 model)) eqn:Esel.
    + apply bool_decide_eq_true in Esel.
      apply elem_of_product_of in Esel as (x & Hx & Hpos & Hname).
      assert (var_map fm1 !! nm = Some x) as Hx1.
      { destruct Hok1 as (_ & _ & Hbw & _). apply Hbw.
        unfold get_name in Hname. by rewrite Z.abs_eq in Hname by lia. }
      assert (x = v) as ->.
      { destruct Hext as [Hsub _].
        pose proof (lookup_weaken _ _ _ _ Hx1 Hsub). congruence. }
      exists v. split; [left|]. apply elem_of_model_of.
      assert (Z.abs v ≤ nof_vars problem) as Hle.
      { apply (nof_vars_elem _ [v]); [apply elem_of_app; by right|left]. }
      split; [lia|]. destruct (Z.ltb_spec 0 v); [|lia].
      by apply bool_decide_eq_true.
    + apply bool_decide_eq_false in Esel.
      exists (- v). split; [left|]. apply elem_of_model_of.
      assert (Z.abs (- v) ≤ nof_vars problem) as Hle.
      { apply (nof_vars_elem _ [- v]); [apply elem_of_app; by right|left]. }
      split; [lia|]. destruct (Z.ltb_spec 0 (- v)); [lia|].
      rewrite Z.opp_involutive. apply bool_decide_eq_false. intros Hvm.
      apply Esel, elem_of_product_of. exists v. split; [done|].
      split; [lia|].
      pose proof (full_model_elem _ _ _ Hfull Hvm) as Hr.
      pose proof (nof_vars_below fm1 cnf Hok1 Hlits) as Hbelow.
      destruct Hok1 as (_ & _ & Hbw & Hden).
      destruct (Hden v) as [nm' Hnm']; [lia|].
      pose proof (Hbw _ _ Hnm') as Hv1.
      assert (var_map fm2 !! nm' = Some v) as Hv2.
      { destruct Hext as [Hsub _]. by eapply lookup_weaken. }
      rewrite (registered_inj fm2 nm nm' v Hok2 Hv Hv2).
      unfold get_name. by rewrite Z.abs_eq by lia.
Qed.

(** C7.  Every product the enumerator returns is accepted by the
    validator run on the same model: [isValid = true], no message. *)
Theorem validate_accepts_products {O : Oracle} (L : OracleLaws O)
    (fm : FeatureModel) (r : Feature) (fuel : nat)
    (mwps : list (gset pyname)) (fm1 : FeatureModel) (p : gset pyname) :
  registry_ok fm → root fm = Some r →
  find_mwps fuel fm = Some (Ok mwps, fm1) → p ∈ mwps →
  ∃ fm2, validate_selection fm1 p
         = (Ok {| isValid := true; messages := [] |}, fm2).
Proof.
  intros Hok Hroot Hfind Hp.
  destruct (generate_spec fm r Hok Hroot)
    as (cnf & fm1' & Hgen & Hok1 & Hext1 & Hreg1 & Hcnf).
  destruct (find_mwps_found
    (λ p, ∃ fm2, validate_selection fm1 p
                 = (Ok {| isValid := true; messages := [] |}, fm2))
    fm fuel mwps fm1 Hfind) as (cnf' & Hgen' & Hall).
  rewrite Hgen in Hgen'. injection Hgen' as <- <-.
  apply Hall; [|done]. clear p Hp Hall. intros model Hfull Hsat.
  assert (root fm1' = Some r) as Hroot1.
  { destruct Hext1 as (_ & _ & _ & ->). done. }
  destruct (validate_selection_spec fm1' r (product_of fm1' model) Hok1 Hroot1)
    as (cnf2 & fm1'' & fm2 & b & _ & _ & Hext12 & _ & Hcnf2 & Hok2 &
        Hext2 & Hreg2 & Hb & Hval).
  assert (extends fm1' fm2) as Hext by (by eapply extends_trans).
  assert (cnf2 = cnf) as ->.
  { rewrite Hcnf2, (Hcnf fm2 Hext). f_equal. apply Hext1. }
  assert (b = true) as ->.
  { apply Hb. apply product_selection_satisfiable; try done.
    intros c l Hc Hl. rewrite (Hcnf fm1' (extends_refl _)) in Hc.
    by eapply compiled_lits. }
  by exists fm2.
Qed.

Lemma validate_accepts_products_witness :
  ∃ fm2, @validate_selection brute_force demo_found.2
           {[ Some "root"; Some "A"; Some "B" ]}
         = (Ok {| isValid := true; messages := [] |}, fm2).
Proof.
  apply (validate_accepts_products brute_force_laws demo_model demo_root 20
           demo_found.1 demo_found.2).
  - exact demo_registry_ok.
  - exact demo_root_eq.
  - vm_compute. reflexivity.
  - apply (bool_decide_unpack _). vm_compute. exact I.
Defined.

(** C10.  The root is selected in every outcome.  The first clause the
    compiler emits is the unit clause of the root's variable; every
    product the enumerator returns contains the root's name; and the
    validator rejects every selection that lacks the root's name, the
    empty selection among them. *)
Theorem root_always_selected {O : Oracle} (L : OracleLaws O)
    (fm : FeatureModel) (r : Feature) :
  registry_ok fm → root fm = Some r → parent r = None →
  name r ∈ (features fm).*1 →
  ∃ cnf fm1 vr rest,
    generate_rules_and_cnf fm = (Ok cnf, fm1) ∧
    var_map fm1 !! name r = Some vr ∧ cnf = [vr] :: rest ∧
    (∀ fuel mwps fm', find_mwps fuel fm = Some (Ok mwps, fm') →
                      ∀ p, p ∈ mwps → Some (name r) ∈ p) ∧
    (∀ sel, Some (name r) ∉ sel →
            ∃ v fm2, validate_selection fm sel = (Ok v, fm2) ∧
                     isValid v = false) ∧
    (∃ v fm2, validate_selection fm ∅ = (Ok v, fm2) ∧ isValid v = false).
Proof.
  intros Hok Hroot Hparent Hin.
  destruct (generate_spec fm r Hok Hroot)
    as (cnf & fm1 & Hgen & Hok1 & Hext1 & Hreg1 & Hcnf).
  rewrite Forall_forall in Hreg1.
  destruct (Hreg1 (name r)) as [vr Hvr].
  { apply elem_of_app. left. apply (own_names_sub r r); [|left].
    destruct r. left. }
  destruct (registered_var _ _ _ Hok1 Hvr) as (HVr & Hrange & Hname).
  assert (∀ V, ∃ rest, compiled V r (constraints fm) = [V (name r)] :: rest)
    as Hhead.
  { intros V. unfold compiled. destruct r as [nm m p cs g]. simpl in *.
    subst p. unfold own_clauses, root_clauses. simpl. by eexists. }
  destruct (Hhead (var_of fm1)) as [rest Hrest].
  assert (cnf = [vr] :: rest) as Hcnf1.
  { by rewrite (Hcnf fm1 (extends_refl _)), Hrest, HVr. }
  assert (∀ sel, Some (name r) ∉ sel →
            ∃ v fm2, validate_selection fm sel = (Ok v, fm2) ∧
                     isValid v = false) as Hreject.
  { intros sel Hsel.
    destruct (validate_selection_spec fm r sel Hok Hroot)
      as (cnf' & fm1' & fm2 & b & Hgen' & _ & _ & _ & Hcnf' & Hok2 &
          Hext2 & Hreg2 & Hb & Hval).
    eexists _, fm2. split; [exact Hval|]. simpl.
    destruct b; [|done]. exfalso.
    destruct Hb as [Hb _]. specialize (Hb eq_refl). revert Hb.
    apply (unit_clash_unsat _ (var_of fm2 (name r))).
    - apply elem_of_app. left. rewrite Hcnf'.
      destruct (Hhead (var_of fm2)) as [rest2 ->]. left.
    - apply elem_of_app. right. by apply selection_clause_unselected. }
  exists cnf, fm1, vr, rest. split; [done|]. split; [done|]. split; [done|].
  split; [|split; [exact Hreject|]].
  - intros fuel mwps fm' Hfind.
    destruct (find_mwps_found (λ p, Some (name r) ∈ p) fm fuel mwps fm' Hfind)
      as (cnf' & Hgen' & Hall).
    rewrite Hgen in Hgen'. injection Hgen' as <- <-.
    apply Hall. intros model Hfull Hsat. apply elem_of_product_of.
    exists vr. rewrite Hname. split; [|split; [lia|done]].
    rewrite models_iff in Hsat.
    assert (clause_holds model [vr] = true) as H.
    { apply Hsat. rewrite Hcnf1. left. }
    by apply clause_holds_iff in H as (l & ->%list_elem_of_singleton & Hl).
  - apply Hreject. apply not_elem_of_empty.
Qed.

Lemma root_always_selected_witness :
  (∀ p, p ∈ demo_found.1 → Some "root" ∈ p) ∧
  ∃ v fm2, @validate_selection brute_force demo_model ∅ = (Ok v, fm2) ∧
           isValid v = false.
Proof.
  assert ("root" ∈ (features demo_model).*1) as Hin.
  { vm_compute. do 4 right. left. }
  destruct (root_always_selected brute_force_laws demo_model demo_root
              demo_registry_ok demo_root_eq eq_refl Hin)
    as (cnf & fm1 & vr & rest & _ & _ & _ & Hprod & _ & Hempty).
  split; [|exact Hempty].
  apply (Hprod 20%nat demo_found.1 demo_found.2).
  vm_compute. reflexivity.
Defined.

(** ** Lemmas: the compiler does not read the constraint list before its
    last loop *)

Lemma get_var_set_constraints cs nm fm :
  get_var nm (set_constraints cs fm)
  = ((get_var nm fm).1, set_constraints cs (get_var nm fm).2).
Proof. unfold get_var. simpl. by destruct (var_map fm !! nm). Qed.

Lemma get_vars_set_constraints cs names fm :
  get_vars names (set_constraints cs fm)
  = ((get_vars names fm).1, set_constraints cs (get_vars names fm).2).
Proof.
  revert fm. induction names as [|n ns IH]; intros fm; simpl; [done|].
  rewrite get_var_set_constraints. destruct (get_var n fm) as [v fm1].
  cbn [fst snd]. rewrite IH. by destruct (get_vars ns fm1).
Qed.

Lemma exclude_pairs_set_constraints cs pairs st :
  exclude_pairs pairs (lift_constraints cs st)
  = lift_constraints cs (exclude_pairs pairs st).
Proof.
  revert st. induction pairs as [|[c1 c2] rest IH]; intros [fm cnf];
    simpl; [done|].
  change (add_rule ?r (set_constraints cs fm))
    with (set_constraints cs (add_rule r fm)).
  rewrite get_var_set_constraints.
  destruct (get_var c1 (add_rule _ fm)) as [v1 fm1]. cbn [fst snd].
  rewrite get_var_set_constraints.
  destruct (get_var c2 fm1) as [v2 fm2]. cbn [fst snd].
  apply (IH (fm2, cnf ++ [[- v1; - v2]])).
Qed.

Lemma root_step_set_constraints cs f var st :
  root_step f var (lift_constraints cs st)
  = lift_constraints cs (root_step f var st).
Proof.
  destruct st as [fm cnf]. unfold root_step, lift_constraints. simpl.
  by destruct (negb _).
Qed.

Lemma edge_step_set_constraints cs f var st :
  edge_step f var (lift_constraints cs st)
  = lift_constraints cs (edge_step f var st).
Proof.
  destruct st as [fm cnf]. unfold edge_step, lift_constraints. simpl.
  destruct (truthy _); [|done]. rewrite get_var_set_constraints.
  destruct (get_var _ fm) as [pv fm1]. cbn [fst snd].
  by destruct (mandatory f).
Qed.

Lemma group_step_set_constraints cs f var st :
  group_step f var (lift_constraints cs st)
  = lift_constraints cs (group_step f var st).
Proof.
  destruct st as [fm cnf]. unfold group_step. cbn [lift_constraints fst snd].
  rewrite get_vars_set_constraints.
  destruct (get_vars _ fm) as [vs fm1]. cbn [fst snd].
  destruct (bool_decide (group f = Some "XOR")).
  - apply (exclude_pairs_set_constraints cs _ (add_rule _ fm1, _)).
  - by destruct (bool_decide (group f = Some "OR")).
Qed.

Lemma process_feature_set_constraints cs f :
  ∀ st, process_feature f (lift_constraints cs st)
        = lift_constraints cs (process_feature f st).
Proof.
  induction f as [nm m p fs g IH] using Feature_tree_ind.
  intros [fm cnf]. rewrite !process_feature_eq.
  cbn [lift_constraints fst snd]. rewrite get_var_set_constraints.
  destruct (get_var _ fm) as [var fm1]. cbn [fst snd].
  change (set_constraints cs fm1, cnf) with (lift_constraints cs (fm1, cnf)).
  rewrite root_step_set_constraints, edge_step_set_constraints,
    group_step_set_constraints.
  generalize (group_step (mkFeature nm m p fs g) var
                (edge_step (mkFeature nm m p fs g) var
                   (root_step (mkFeature nm m p fs g) var (fm1, cnf)))).
  cbn [children]. induction IH as [|c fs' Hc _ IHfs]; intros st; simpl; [done|].
  by rewrite Hc, IHfs.
Qed.

Lemma constraint_step_set_constraints cs st c :
  constraint_step (lift_constraints cs st) c
  = lift_constraints cs (constraint_step st c).
Proof.
  destruct st as [fm cnf]. unfold constraint_step. cbn [lift_constraints fst snd].
  destruct (String.eqb _ _); [|done]. destruct (str_in _ _); [|done].
  change (add_rule ?r (set_constraints cs fm))
    with (set_constraints cs (add_rule r fm)).
  rewrite get_var_set_constraints.
  destruct (get_var _ (add_rule _ fm)) as [v1 fm1]. cbn [fst snd].
  rewrite get_var_set_constraints. by destruct (get_var _ fm1).
Qed.

Lemma constraints_loop_set_constraints cs l st :
  fold_left constraint_step l (lift_constraints cs st)
  = lift_constraints cs (fold_left constraint_step l st).
Proof.
  revert st. induction l as [|c l IH]; intros st; cbn [fold_left]; [done|].
  by rewrite constraint_step_set_constraints, IH.
Qed.

Lemma generate_set_constraints cs fm r :
  root fm = Some r →
  (generate_rules_and_cnf (set_constraints cs fm)).1
  = Ok (fold_left constraint_step cs
          (process_feature r (reset_rules fm, []))).2.
Proof.
  intros Hroot. unfold generate_rules_and_cnf.
  change (root (reset_rules (set_constraints cs fm))) with (root fm).
  rewrite Hroot.
  change (reset_rules (set_constraints cs fm), [])
    with (lift_constraints cs (reset_rules fm, ([] : CNF))).
  rewrite process_feature_set_constraints. cbn [lift_constraints fst].
  change (constraints (set_constraints cs ?x)) with cs.
  rewrite constraints_loop_set_constraints.
  by destruct (fold_left _ _ _).
Qed.

Lemma constraint_step_skip st c : qualifies c = false → constraint_step st c = st.
Proof.
  destruct st as [fm cnf]. unfold qualifies, constraint_step.
  destruct (String.eqb _ _); [|done]. simpl. by intros ->.
Qed.

Lemma qualifies_iff c :
  qualifies c = true ↔
  type c = "requires" ∧ str_in "filter" (englishStatement c) = true.
Proof.
  unfold qualifies. rewrite andb_true_iff.
  by rewrite String.eqb_eq.
Qed.

(** The type [parse_xml] infers: "requires" when the statement contains
    "required to", "excludes" otherwise. *)
Lemma parse_constraints_types elems fm :
  ∃ new,
    constraints (parse_constraints elems fm).2 = constraints fm ++ new ∧
    Forall (λ c, type c = if str_in "required to" (englishStatement c)
                          then "requires" else "excludes") new.
Proof.
  revert fm. induction elems as [|e elems IH]; intros fm; simpl.
  { exists []. by rewrite app_nil_r. }
  destruct (find "englishStatement" e) as [english|]; [|apply IH].
  destruct (text english) as [statement|].
  - unfold bind. simpl.
    match goal with |- context [parse_constraints elems ?fm'] =>
      destruct (IH fm') as (new & Hnew & Hall) end.
    simpl in Hnew. eexists (_ :: new). split.
    + rewrite Hnew, <- app_assoc. done.
    + by constructor.
  - exists []. by rewrite app_nil_r.
Qed.

(** C9.  One turn of the constraint loop leaves the state as it is unless
    the constraint's type is "requires" and its statement contains
    "filter"; then it appends exactly one clause, [[-ByLocation,
    +Location]].  The compiled list is the tree's clauses followed by that
    clause once per such constraint, and removing any other constraint
    (every "excludes" one, every "requires" one without the keyword) from
    the model leaves the compiled list the same. *)
Theorem constraint_contributes_iff_filter (fm : FeatureModel) (r : Feature) :
  registry_ok fm → root fm = Some r →
  (∀ c, qualifies c = true ↔
        type c = "requires" ∧ str_in "filter" (englishStatement c) = true) ∧
  (∀ c, type c = "excludes" → qualifies c = false) ∧
  (∀ st c, qualifies c = false → constraint_step st c = st) ∧
  (∀ fm0 cnf0 c, registry_ok fm0 → qualifies c = true →
     ∃ fm' by_location location,
       constraint_step (fm0, cnf0) c
       = (fm', cnf0 ++ [[- by_location; location]]) ∧
       var_map fm' !! "ByLocation" = Some by_location ∧
       var_map fm' !! "Location" = Some location) ∧
  (∃ cnf fm',
     generate_rules_and_cnf fm = (Ok cnf, fm') ∧
     cnf = feature_clauses (var_of fm') r
           ++ constraint_clauses (var_of fm') (constraints fm)) ∧
  (∀ pre c post, qualifies c = false →
     (generate_rules_and_cnf (set_constraints (pre ++ c :: post) fm)).1
     = (generate_rules_and_cnf (set_constraints (pre ++ post) fm)).1).
Proof.
  intros Hok Hroot.
  split; [apply qualifies_iff|]. split; [|split; [|split; [|split]]].
  - intros c Hc. unfold qualifies. by rewrite Hc.
  - apply constraint_step_skip.
  - intros fm0 cnf0 c Hok0 Hq. apply qualifies_iff in Hq as [Hty Hfilter].
    unfold constraint_step. rewrite Hty, Hfilter. simpl.
    set (fm1 := add_rule _ fm0).
    assert (registry_ok fm1) as Hok1 by done.
    destruct (get_var_spec fm1 "ByLocation" Hok1) as (Hok2 & _ & Hv1 & _).
    destruct (get_var "ByLocation" fm1) as [v1 fm2]. cbn [fst snd] in *.
    destruct (get_var_spec fm2 "Location" Hok2) as (_ & [Hsub _] & Hv2 & _).
    destruct (get_var "Location" fm2) as [v2 fm3]. cbn [fst snd] in *.
    exists fm3, v1, v2. split; [done|]. split; [|done].
    by eapply lookup_weaken.
  - destruct (generate_spec fm r Hok Hroot)
      as (cnf & fm' & Hgen & _ & _ & _ & Hcnf).
    exists cnf, fm'. split; [done|]. apply (Hcnf fm' (extends_refl _)).
  - intros pre c post Hq. rewrite !(generate_set_constraints _ fm r Hroot).
    do 2 f_equal. rewrite !fold_left_app. simpl.
    by rewrite (constraint_step_skip _ c Hq).
Qed.

Lemma constraint_contributes_iff_filter_witness :
  (generate_rules_and_cnf
     (set_constraints
        (mkConstraint "A excludes B" "excludes" :: constraints demo_model)
        demo_model)).1
  = (generate_rules_and_cnf
       (set_constraints (constraints demo_model) demo_model)).1.
Proof.
  destruct (constraint_contributes_iff_filter demo_model demo_root
              demo_registry_ok demo_root_eq) as (_ & _ & _ & _ & _ & Hdrop).
  apply (Hdrop [] (mkConstraint "A excludes B" "excludes")
               (constraints demo_model)).
  reflexivity.
Defined.

Lemma combinations2_lookup {A} (l : list A) (i j : nat) a b :
  (i < j)%nat → l !! i = Some a → l !! j = Some b → (a, b) ∈ combinations2 l.
Proof.
  revert i j. induction l as [|x xs IH]; intros i j Hlt Hi Hj; [done|].
  simpl. apply elem_of_app. destruct j as [|j]; [lia|]. simpl in Hj.
  destruct i as [|i]; simpl in Hi.
  - injection Hi as ->. left. apply list_elem_of_fmap. exists b.
    split; [done|]. by eapply list_elem_of_lookup_2.
  - right. apply (IH i j); [lia|done..].
Qed.

Lemma exclusion_clash_unsat cnf a b :
  [- a; - b] ∈ cnf → [a] ∈ cnf → [b] ∈ cnf → ¬ satisfiable cnf.
Proof.
  intros Hex Ha Hb. apply (implication_clash_unsat cnf a (- b)); [done..|].
  by rewrite Z.opp_involutive.
Qed.

(** C2, as the code has it.  For a feature [g] of the tree with group
    XOR the group block appends the clause [[-g, +c1, ..., +ck]] followed
    by [[-ci, -cj]] for the pairs of children in order; these clauses are
    in the compiled list, one exclusion for every two children.  With two
    children, the compiled list with [g] and both children fixed true has
    no model, and every assignment that makes [g] and exactly one child
    true satisfies the clauses of the group. *)
Theorem xor_group_clauses (fm : FeatureModel) (r g : Feature) :
  registry_ok fm → root fm = Some r →
  g ∈ subfeatures r → group g = Some "XOR" →
  ∃ cnf fm',
    generate_rules_and_cnf fm = (Ok cnf, fm') ∧
    (∀ fm0 cnf0 var,
       registry_ok fm0 → var_map fm0 !! name g = Some var →
       (group_step g var (fm0, cnf0)).2
       = cnf0 ++
         (- var :: map (var_of (group_step g var (fm0, cnf0)).1)
                       (map name (children g)))
         :: map (λ '(c1, c2),
                   [- var_of (group_step g var (fm0, cnf0)).1 c1;
                    - var_of (group_step g var (fm0, cnf0)).1 c2])
                (combinations2 (map name (children g)))) ∧
    (- var_of fm' (name g) :: map (var_of fm') (map name (children g))) ∈ cnf ∧
    (∀ i j ci cj,
       (i < j)%nat → children g !! i = Some ci → children g !! j = Some cj →
       [- var_of fm' (name ci); - var_of fm' (name cj)] ∈ cnf) ∧
    (∀ c1 c2, children g = [c1; c2] →
       ¬ satisfiable (cnf ++ [[var_of fm' (name g)]; [var_of fm' (name c1)];
                              [var_of fm' (name c2)]]) ∧
       ∀ n model,
         full_model n model → var_of fm' (name g) ∈ model →
         (var_of fm' (name c1) ∈ model ∧ - var_of fm' (name c2) ∈ model) ∨
         (- var_of fm' (name c1) ∈ model ∧ var_of fm' (name c2) ∈ model) →
         models model (group_clauses (var_of fm') g) = true).
Proof.
  intros Hok Hroot Hg Hxor.
  destruct (generate_spec fm r Hok Hroot)
    as (cnf & fm' & Hgen & Hok' & Hext & Hreg & Hcnf).
  specialize (Hcnf fm' (extends_refl _)).
  assert (bool_decide (group g = Some "XOR") = true) as Hdec
    by by apply bool_decide_eq_true.
  assert (∀ c, c ∈ group_clauses (var_of fm') g → c ∈ cnf) as Hin.
  { intros c Hc. rewrite Hcnf. apply elem_of_app. left.
    apply (own_clauses_sub _ r g _ Hg). unfold own_clauses.
    apply elem_of_app. right. apply elem_of_app. by right. }
  assert (∀ i j ci cj,
    (i < j)%nat → children g !! i = Some ci → children g !! j = Some cj →
    [- var_of fm' (name ci); - var_of fm' (name cj)] ∈ cnf) as Hpairs.
  { intros i j ci cj Hlt Hi Hj. apply Hin. unfold group_clauses.
    rewrite Hdec. right. unfold exclusions. apply list_elem_of_fmap.
    exists (name ci, name cj). split; [done|].
    apply (combinations2_lookup _ i j); [done|..];
      rewrite list_lookup_fmap; by (rewrite Hi || rewrite Hj). }
  exists cnf, fm'. split; [done|]. split; [|split; [|split; [done|]]].
  - intros fm0 cnf0 var Hok0 Hvar.
    destruct (group_step_emits g var fm0 cnf0 Hok0 Hvar)
      as (_ & Hext0 & _ & Hcl).
    rewrite (Hcl _ (extends_refl _)). unfold group_clauses, at_least_one.
    rewrite Hdec. by rewrite (var_of_extends _ _ _ _ Hext0 Hvar).
  - apply Hin. unfold group_clauses. rewrite Hdec. left.
  - intros c1 c2 Hcs. split.
    + apply (exclusion_clash_unsat _ (var_of fm' (name c1))
               (var_of fm' (name c2))).
      * apply elem_of_app. left.
        apply (Hpairs 0%nat 1%nat); [lia|by rewrite Hcs..].
      * apply elem_of_app. right. right. left.
      * apply elem_of_app. right. right. right. left.
    + intros n model Hfull Hgm Hone. unfold group_clauses, at_least_one,
        exclusions. rewrite Hdec, Hcs.
      apply models_iff. intros c Hc. simpl in Hc. apply clause_holds_iff.
      apply elem_of_cons in Hc as [->|Hc].
      * destruct Hone as [[H1 _]|[_ H2]]; eexists; (split; [|eassumption]).
        -- right. left.
        -- right. right. left.
      * apply list_elem_of_singleton in Hc as ->.
        destruct Hone as [[_ H2]|[H1 _]]; eexists; (split; [|eassumption]).
        -- right. left.
        -- left.
Qed.

Lemma xor_group_clauses_witness :
  ∃ cnf fm',
    generate_rules_and_cnf demo_model = (Ok cnf, fm') ∧
    [- var_of fm' "A"; var_of fm' "B"; var_of fm' "C"] ∈ cnf ∧
    [- var_of fm' "B"; - var_of fm' "C"] ∈ cnf ∧
    ¬ satisfiable (cnf ++ [[var_of fm' "A"]; [var_of fm' "B"];
                           [var_of fm' "C"]]).
Proof.
  destruct (xor_group_clauses demo_model demo_root demo_A
              demo_registry_ok demo_root_eq) as
    (cnf & fm' & Hgen & _ & Hone & Hpairs & Htwo).
  - right. left.
  - reflexivity.
  - exists cnf, fm'. split; [exact Hgen|]. split; [exact Hone|]. split.
    + exact (Hpairs 0%nat 1%nat demo_B demo_C (Nat.lt_0_1) eq_refl eq_refl).
    + exact (proj1 (Htwo demo_B demo_C eq_refl)).
Defined.

(** C2 as stated fails: in an XOR group whose two children are both
    mandatory, the compiled clauses force both children with the group,
    so the list with G and exactly one of A, B fixed true has no model
    (nor has the compiled list alone). *)
Lemma xor_group_counterexample :
  (generate_rules_and_cnf xor_mandatory_model).1 = Ok xor_mandatory_cnf ∧
  (root xor_mandatory_model
   = Some (mkFeature "G" false None
             [mkFeature "A" true (Some "G") [] None;
              mkFeature "B" true (Some "G") [] None] (Some "XOR"))) ∧
  var_map (generate_rules_and_cnf xor_mandatory_model).2 !! "G" = Some 1 ∧
  var_map (generate_rules_and_cnf xor_mandatory_model).2 !! "A" = Some 2 ∧
  var_map (generate_rules_and_cnf xor_mandatory_model).2 !! "B" = Some 3 ∧
  ¬ satisfiable (xor_mandatory_cnf ++ [[1]; [2]; [-3]]) ∧
  ¬ satisfiable (xor_mandatory_cnf ++ [[1]; [-2]; [3]]).
Proof.
  split; [vm_compute; reflexivity|]. split; [vm_compute; reflexivity|].
  split; [vm_compute; reflexivity|]. split; [vm_compute; reflexivity|].
  split; [vm_compute; reflexivity|]. split.
  - exact (@solve_complete brute_force brute_force_laws
             (xor_mandatory_cnf ++ [[1]; [2]; [-3]], []) eq_refl).
  - exact (@solve_complete brute_force brute_force_laws
             (xor_mandatory_cnf ++ [[1]; [-2]; [3]], []) eq_refl).
Qed.

(** With optional children the same selection is fine: the validator
    accepts {G, A} and {G, B} and rejects {G, A, B}. *)
Lemma xor_optional_selections :
  (@validate_selection brute_force xor_optional_model
     {[ Some "G"; Some "A" ]}).1
  = Ok {| isValid := true; messages := [] |} ∧
  (@validate_selection brute_force xor_optional_model
     {[ Some "G"; Some "B" ]}).1
  = Ok {| isValid := true; messages := [] |} ∧
  (@validate_selection brute_force xor_optional_model
     {[ Some "G"; Some "A"; Some "B" ]}).1
  = Ok {| isValid := false;
          messages := ["XOR group G must have exactly one selection"] |}.
Proof. repeat split; vm_compute; reflexivity. Qed.

(** ** Lemmas: reading the document *)

Lemma Element_tree_ind (P : Element → Prop) :
  (∀ t a tx subs, Forall P subs → P (mkElement t a tx subs)) → ∀ e, P e.
Proof.
  intros step. fix IH 1. intros [t a tx subs]. apply step.
  induction subs as [|c subs IHsubs]; constructor; [apply IH | exact IHsubs].
Qed.

Lemma same_but_features_refl fm : same_but_features fm fm.
Proof. by repeat split. Qed.

Lemma same_but_features_trans fm1 fm2 fm3 :
  same_but_features fm1 fm2 → same_but_features fm2 fm3 →
  same_but_features fm1 fm3.
Proof.
  intros (?&?&?&?&?&?) (?&?&?&?&?&?). repeat split; congruence.
Qed.

Lemma returns_ok {A} (a : A) fm : returns (Ok a, fm).
Proof. by exists a, fm. Qed.

Lemma returns_raise {A} e fm : ¬ @returns A (Raise e, fm).
Proof. by intros (a & fm' & [=]). Qed.

Section ParseLoops.
Variable rec : Element → Py Feature.
Variable wf : Element → bool.

Lemma parse_each_spec only elems :
  Forall (rec_ok rec wf) elems →
  ∀ acc fm,
    same_but_features fm (parse_each rec only elems acc fm).2 ∧
    (returns (parse_each rec only elems acc fm) ↔
     each_well_formed wf only elems = true).
Proof.
  induction 1 as [|c elems Hc _ IH]; intros acc fm.
  { split; [apply same_but_features_refl|]. split; [done|].
    intros _. apply returns_ok. }
  simpl. destruct (bool_decide (only = None ∨ only = Some (tag c))); [|apply IH].
  unfold bind. destruct (Hc fm) as [Hframe Hret].
  destruct (rec c fm) as [[cf|e] fm1] eqn:E; simpl in *.
  - destruct (IH (acc ++ [cf]) fm1) as [Hframe' Hret'].
    split; [by eapply same_but_features_trans|].
    rewrite Hret'. destruct Hret as [Hret _].
    rewrite (Hret (returns_ok _ _)). done.
  - split; [done|]. split; [by intros ?%returns_raise|].
    intros [Hwf _]%andb_true_iff. apply Hret in Hwf.
    by apply returns_raise in Hwf.
Qed.

Lemma parse_group_spec all elems :
  Forall (rec_ok rec wf) all →
  Forall (λ g, Forall (rec_ok rec wf) (subelements g)) elems →
  ∀ fm,
    same_but_features fm (parse_group rec all elems fm).2 ∧
    (returns (parse_group rec all elems fm) ↔
     group_well_formed wf all elems = true).
Proof.
  intros Hall. induction 1 as [|g elems Hg _ IH]; intros fm; simpl.
  - unfold bind. destruct (parse_each_spec (Some "feature") all Hall [] fm)
      as [Hframe Hret].
    destruct (parse_each rec (Some "feature") all [] fm) as [[cs|e] fm1];
      simpl in *.
    + split; [done|]. unfold ret. rewrite <- Hret.
      split; intros _; apply returns_ok.
    + split; [done|]. rewrite <- Hret.
      split; by intros ?%returns_raise.
  - destruct (String.eqb (tag g) "group"); [|apply IH].
    unfold bind, attr. destruct (attrib g !! "type") as [ty|]; simpl.
    + destruct (parse_each_spec None (subelements g) Hg [] fm)
        as [Hframe Hret].
      destruct (parse_each rec None (subelements g) [] fm) as [[cs|e] fm1];
        simpl in *.
      * split; [done|]. unfold ret. rewrite <- Hret.
        split; intros _; apply returns_ok.
      * split; [done|]. rewrite <- Hret.
        split; by intros ?%returns_raise.
    + split; [apply same_but_features_refl|].
      split; [by intros ?%returns_raise|done].
Qed.
End ParseLoops.

Lemma parse_feature_eq element parent :
  parse_feature element parent =
  (let* nm := attr element "name" in
   let* (grp, cs) :=
     parse_group (λ child, parse_feature child (Some nm))
                 (subelements element) (subelements element) in
   let* _ := register nm
     {| name := nm;
        mandatory := String.eqb
          (lower (default "false" (attrib element !! "mandatory"))) "true";
        parent := parent; children := cs; group := grp |} in
   ret {| name := nm;
          mandatory := String.eqb
            (lower (default "false" (attrib element !! "mandatory"))) "true";
          parent := parent; children := cs; group := grp |}).
Proof. by destruct element. Qed.

Lemma well_formed_eq element :
  well_formed element =
  bool_decide (is_Some (attrib element !! "name"))
  && group_well_formed well_formed (subelements element)
                       (subelements element).
Proof. by destruct element. Qed.

(** [parse_feature] returns exactly on well-formed elements, and touches
    nothing but the feature map. *)
Lemma parse_feature_spec element :
  (∀ parent, rec_ok (λ c, parse_feature c parent) well_formed element) ∧
  Forall (λ c, ∀ parent, rec_ok (λ c, parse_feature c parent) well_formed c)
         (subelements element).
Proof.
  induction element as [t a tx subs IH] using Element_tree_ind.
  assert (Forall (λ c, ∀ parent,
            rec_ok (λ c, parse_feature c parent) well_formed c) subs) as Hsubs.
  { eapply Forall_impl; [exact IH|]. by intros c [? _]. }
  split; [|exact Hsubs]. intros parent fm.
  remember (mkElement t a tx subs) as e eqn:He.
  assert (subelements e = subs) as Hse by by subst.
  clear He. rewrite parse_feature_eq, well_formed_eq, Hse.
  unfold attr, bind, ret, raise, register.
  destruct (attrib e !! "name") as [nm|] eqn:Ename.
  - rewrite bool_decide_eq_true_2 by by eexists.
    destruct (parse_group_spec (λ c, parse_feature c (Some nm)) well_formed
                subs subs) with (fm := fm) as [Hframe Hret].
    + eapply Forall_impl; [exact Hsubs|]. intros c Hc. apply Hc.
    + eapply Forall_impl; [exact IH|]. intros g [_ Hg].
      eapply Forall_impl; [exact Hg|]. intros c Hc. apply Hc.
    + destruct (parse_group _ subs subs fm) as [[[grp cs]|ex] fm1].
      * split; [exact Hframe|]. cbn [andb]. rewrite <- Hret.
        split; intros _; apply returns_ok.
      * split; [exact Hframe|]. cbn [andb]. rewrite <- Hret.
        split; by intros ?%returns_raise.
  - split; [apply same_but_features_refl|].
    rewrite bool_decide_eq_false_2 by by intros [? ?].
    split; [by intros ?%returns_raise|done].
Qed.

Lemma dict_set_key {V} (k : string) (v : V) (d : list (string * V)) :
  k ∈ (dict_set k v d).*1.
Proof.
  induction d as [|[k' v'] d IH]; simpl; [left|].
  destruct (String.eqb_spec k' k); simpl; [left|by right].
Qed.

Lemma parse_feature_result element p fm f fm' :
  parse_feature element p fm = (Ok f, fm') →
  parent f = p ∧ name f ∈ (features fm').*1 ∧
  same_but_features fm fm'.
Proof.
  intros Hparse.
  destruct (proj1 (parse_feature_spec element) p fm) as [Hframe _].
  rewrite Hparse in Hframe. split; [|split; [|exact Hframe]];
    rewrite parse_feature_eq in Hparse;
    unfold attr, bind, ret, raise, register in Hparse;
    destruct (attrib element !! "name") as [nm|]; try done;
    destruct (parse_group _ _ _ fm) as [[[grp cs]|ex] fm1]; try done;
    injection Hparse as <- <-; simpl; [done|apply dict_set_key].
Qed.

Lemma parse_constraints_frame elems fm :
  features (parse_constraints elems fm).2 = features fm ∧
  root (parse_constraints elems fm).2 = root fm ∧
  var_map (parse_constraints elems fm).2 = var_map fm ∧
  reverse_map (parse_constraints elems fm).2 = reverse_map fm ∧
  next_var (parse_constraints elems fm).2 = next_var fm.
Proof.
  revert fm. induction elems as [|e elems IH]; intros fm; simpl; [done|].
  destruct (find "englishStatement" e) as [english|]; [|apply IH].
  destruct (text english) as [statement|]; [|done].
  unfold bind. simpl.
  match goal with |- context [parse_constraints elems ?fm'] =>
    destruct (IH fm') as (H1 & H2 & H3 & H4 & H5) end.
  by rewrite H1, H2, H3, H4, H5.
Qed.

(** A model read without error from a consistent state meets what the
    theorems on the enumerator and the validator ask of it. *)
Lemma parse_xml_model document fm fm' :
  registry_ok fm → parse_xml document fm = (Ok (), fm') →
  registry_ok fm' ∧
  ∃ r, root fm' = Some r ∧ parent r = None ∧ name r ∈ (features fm').*1.
Proof.
  intros Hok. unfold parse_xml. destruct document as [doc|]; [|done].
  destruct (find "feature" doc) as [rf|]; [|done].
  unfold bind. destruct (parse_feature rf None fm) as [[f|e] fm1] eqn:Ep;
    [|done].
  destruct (parse_feature_result _ _ _ _ _ Ep)
    as (Hp & Hn & _ & _ & Hv & Hr & Hnv & _).
  unfold set_root. simpl.
  match goal with |- context [parse_constraints ?l ?fm0] =>
    destruct (parse_constraints_frame l fm0) as (H1 & H2 & H3 & H4 & H5);
    destruct (parse_constraints l fm0) as [[u|e] fm2] eqn:Ec end; [|done].
  simpl in *. intros [= _ <-]. split.
  - apply (registry_ok_same fm); congruence.
  - exists f. rewrite H1, H2. done.
Qed.

Lemma elem_of_dict_set_keys {V} (k k' : string) (v : V)
    (d : list (string * V)) :
  k' ∈ (dict_set k v d).*1 ↔ k' = k ∨ k' ∈ d.*1.
Proof.
  induction d as [|[k0 v0] d IH]; simpl.
  - rewrite elem_of_cons, elem_of_nil. tauto.
  - destruct (String.eqb_spec k0 k) as [->|Hne]; simpl.
    + rewrite !elem_of_cons. tauto.
    + rewrite !elem_of_cons, IH. tauto.
Qed.

Lemma dict_get_dict_set {V} (k k' : string) (v : V) (d : list (string * V)) :
  dict_get k (dict_set k' v d) = if String.eqb k' k then Some v else dict_get k d.
Proof.
  unfold dict_get. induction d as [|[k0 v0] d IH]; simpl.
  - by destruct (String.eqb k' k).
  - destruct (String.eqb_spec k0 k') as [->|Hne]; simpl.
    + by destruct (String.eqb k' k).
    + destruct (String.eqb_spec k0 k) as [->|Hne']; simpl.
      * destruct (String.eqb_spec k' k) as [->|_]; [done|done].
      * exact IH.
Qed.

(** After a run of assignments the entry under a key is the last one
    written under it, or the one that was there. *)
Lemma dict_get_register_all (k : string) (fs : list Feature)
    (d : list (string * Feature)) :
  dict_get k (register_all fs d)
  = match last (filter (λ g, name g = k) fs) with
    | Some g => Some g
    | None => dict_get k d
    end.
Proof.
  revert d. induction fs as [|f fs IH]; intros d; [done|].
  change (register_all (f :: fs) d)
    with (register_all fs (dict_set (name f) f d)).
  rewrite IH, dict_get_dict_set, filter_cons.
  destruct (decide (name f = k)) as [->|Hne].
  - rewrite String.eqb_refl, last_cons. by destruct (last _).
  - destruct (String.eqb_spec (name f) k); [done|]. by destruct (last _).
Qed.

Lemma register_all_app fs1 fs2 d :
  register_all (fs1 ++ fs2) d = register_all fs2 (register_all fs1 d).
Proof. apply fold_left_app. Qed.

Lemma postorder_subfeatures (f : Feature) : postorder f ≡ₚ subfeatures f.
Proof.
  induction f as [nm m p cs g IH] using Feature_tree_ind. simpl.
  rewrite <- Permutation_cons_append. constructor.
  induction IH as [|c cs' Hc _ IHcs]; simpl; [done|].
  by rewrite Hc, IHcs.
Qed.

Lemma filter_absent_name (fs : list Feature) (k : string) :
  k ∉ name <$> fs → filter (λ g, name g = k) fs = [].
Proof.
  induction fs as [|g fs IH]; simpl; [done|].
  rewrite not_elem_of_cons, filter_cons. intros [Hne Hk].
  rewrite decide_False by done. by apply IH.
Qed.

Lemma filter_unique_name (fs : list Feature) (f : Feature) :
  NoDup (name <$> fs) → f ∈ fs → filter (λ g, name g = name f) fs = [f].
Proof.
  induction fs as [|g fs IH]; simpl; [by intros _ ?%elem_of_nil|].
  rewrite NoDup_cons, filter_cons. intros [Hg Hnd] [->|Hf]%elem_of_cons.
  - rewrite decide_True by done. f_equal. by apply filter_absent_name.
  - rewrite decide_False; [by apply IH|].
    intros Heq. apply Hg. rewrite Heq. apply list_elem_of_fmap. by exists f.
Qed.

(** With distinct names in the list, each feature of it ends up under
    its own name. *)
Lemma dict_get_register_all_unique (fs : list Feature) (f : Feature)
    (d : list (string * Feature)) :
  NoDup (name <$> fs) → f ∈ fs → dict_get (name f) (register_all fs d) = Some f.
Proof.
  intros Hnd Hf. by rewrite dict_get_register_all, filter_unique_name.
Qed.

Section ReadLoops.
Variable rec : Element → Py Feature.
Variable rd : Element → list string * option exn.

Lemma read_each_spec only elems :
  Forall (rec_reads rec rd) elems →
  ((read_each rd only elems).2 = None
   ∨ (read_each rd only elems).2 = Some (KeyError "name")
   ∨ (read_each rd only elems).2 = Some (KeyError "type")) ∧
  ∀ acc fm,
    match (read_each rd only elems).2 with
    | None => returns (parse_each rec only elems acc fm)
    | Some e => (parse_each rec only elems acc fm).1 = Raise e
    end ∧
    ∀ k, k ∈ (features (parse_each rec only elems acc fm).2).*1
         ↔ k ∈ (features fm).*1 ∨ k ∈ (read_each rd only elems).1.
Proof.
  induction 1 as [|c elems [Hshape Hc] _ [IHshape IH]]; simpl.
  { split; [by left|]. intros acc fm. split; [apply returns_ok|].
    intros k. rewrite elem_of_nil. tauto. }
  destruct (bool_decide _); [|by split].
  destruct (rd c) as [names [e|]] eqn:Erd; simpl in *.
  - split; [exact Hshape|]. intros acc fm. destruct (Hc fm) as [Hout Hkeys].
    unfold bind. destruct (rec c fm) as [[cf|x] fm1]; simpl in *; [done|].
    injection Hout as ->. split; [done|exact Hkeys].
  - destruct (read_each rd only elems) as [names' e'] eqn:Ere; simpl in *.
    split; [exact IHshape|]. intros acc fm. destruct (Hc fm) as [Hout Hkeys].
    unfold bind. destruct Hout as (cf & fm1 & E). rewrite E in *.
    simpl in *. destruct (IH (acc ++ [cf]) fm1) as [Hout' Hkeys'].
    split; [done|]. intros k. rewrite Hkeys', Hkeys, elem_of_app. tauto.
Qed.

Lemma read_group_spec all elems :
  Forall (rec_reads rec rd) all →
  Forall (λ g, Forall (rec_reads rec rd) (subelements g)) elems →
  ((read_group rd all elems).2 = None
   ∨ (read_group rd all elems).2 = Some (KeyError "name")
   ∨ (read_group rd all elems).2 = Some (KeyError "type")) ∧
  ∀ fm,
    match (read_group rd all elems).2 with
    | None => returns (parse_group rec all elems fm)
    | Some e => (parse_group rec all elems fm).1 = Raise e
    end ∧
    ∀ k, k ∈ (features (parse_group rec all elems fm).2).*1
         ↔ k ∈ (features fm).*1 ∨ k ∈ (read_group rd all elems).1.
Proof.
  assert (∀ only l, Forall (rec_reads rec rd) l →
    ((read_each rd only l).2 = None
     ∨ (read_each rd only l).2 = Some (KeyError "name")
     ∨ (read_each rd only l).2 = Some (KeyError "type")) ∧
    ∀ (grp : pyname) fm,
      match (read_each rd only l).2 with
      | None => returns ((let* cs := parse_each rec only l [] in
                          ret (grp, cs)) fm)
      | Some e => ((let* cs := parse_each rec only l [] in
                    ret (grp, cs)) fm).1 = Raise e
      end ∧
      ∀ k, k ∈ (features ((let* cs := parse_each rec only l [] in
                           ret (grp, cs)) fm).2).*1
           ↔ k ∈ (features fm).*1 ∨ k ∈ (read_each rd only l).1) as Hloop.
  { intros only l Hl. destruct (read_each_spec only l Hl) as [Hs H].
    split; [done|]. intros grp fm. destruct (H [] fm) as [Hout Hk].
    unfold bind, ret.
    destruct (read_each rd only l).2;
      destruct (parse_each rec only l [] fm) as [[cs|x] fm1]; simpl in *;
      try done.
    - injection Hout as ->. by split.
    - split; [apply returns_ok|done].
    - by apply returns_raise in Hout. }
  intros Hall. induction 1 as [|g elems Hg _ IH]; simpl.
  - destruct (Hloop (Some "feature") all Hall) as [Hs H]. split; [done|].
    intros fm. apply H.
  - destruct (String.eqb (tag g) "group"); [|exact IH].
    unfold bind at 1 2 3, attr.
    destruct (attrib g !! "type") as [ty|]; simpl.
    + destruct (Hloop None (subelements g) Hg) as [Hs H]. split; [done|].
      intros fm. apply H.
    + split; [by right; right|]. intros fm. split; [done|].
      intros k. rewrite elem_of_nil. tauto.
Qed.
End ReadLoops.

Lemma read_of_eq element :
  read_of element =
  match attrib element !! "name" with
  | None => ([], Some (KeyError "name"))
  | Some nm =>
      match read_group read_of (subelements element) (subelements element)
      with
      | (names, None) => (names ++ [nm], None)
      | (names, Some e) => (names, Some e)
      end
  end.
Proof. by destruct element. Qed.

(** [read_of] sums up [parse_feature]: the outcome, and the keys of the
    feature map afterwards, whether the call returns or raises. *)
Lemma read_of_spec element :
  (∀ p, rec_reads (λ c, parse_feature c p) read_of element) ∧
  Forall (λ c, ∀ p, rec_reads (λ c, parse_feature c p) read_of c)
         (subelements element).
Proof.
  induction element as [t a tx subs IH] using Element_tree_ind.
  assert (Forall (λ c, ∀ p, rec_reads (λ c, parse_feature c p) read_of c)
            subs) as Hsubs.
  { eapply Forall_impl; [exact IH|]. by intros c [? _]. }
  split; [|exact Hsubs]. intros p.
  remember (mkElement t a tx subs) as e eqn:He.
  assert (subelements e = subs) as Hse by by subst.
  clear He. unfold rec_reads. rewrite read_of_eq, Hse.
  destruct (attrib e !! "name") as [nm|] eqn:Ename.
  - destruct (read_group_spec (λ c, parse_feature c (Some nm)) read_of
                subs subs) as [Hshape Hgroup].
    + eapply Forall_impl; [exact Hsubs|]. intros c Hc. apply Hc.
    + eapply Forall_impl; [exact IH|]. intros g [_ Hg].
      eapply Forall_impl; [exact Hg|]. intros c Hc. apply Hc.
    + destruct (read_group read_of subs subs) as [names [x|]] eqn:Erg;
        simpl in *.
      * split; [exact Hshape|]. intros fm. rewrite parse_feature_eq, Hse.
        unfold attr, bind, ret, raise, register. rewrite Ename.
        destruct (Hgroup fm) as [Hout Hk].
        destruct (parse_group _ subs subs fm) as [[[grp cs]|ex] fm1];
          simpl in *; [done|]. injection Hout as ->. by split.
      * split; [by left|]. intros fm. rewrite parse_feature_eq, Hse.
        unfold attr, bind, ret, raise, register. rewrite Ename.
        destruct (Hgroup fm) as [Hout Hk].
        destruct (parse_group _ subs subs fm) as [[[grp cs]|ex] fm1];
          simpl in *; [|by apply returns_raise in Hout].
        split; [apply returns_ok|].
        intros k. rewrite elem_of_dict_set_keys, Hk, elem_of_app,
          list_elem_of_singleton. tauto.
  - simpl. split; [by right; left|]. intros fm.
    rewrite parse_feature_eq. unfold attr, bind, raise. rewrite Ename.
    simpl. split; [done|]. intros k. rewrite elem_of_nil. tauto.
Qed.

Lemma read_of_well_formed element :
  (read_of element).2 = None ↔ well_formed element = true.
Proof.
  destruct (proj1 (read_of_spec element) None) as [_ H].
  destruct (H init) as [Hout _].
  destruct (proj1 (parse_feature_spec element) None init) as [_ Hret].
  rewrite <- Hret. destruct (read_of element).2 as [e|].
  - split; [done|]. intros Hr. rewrite (surjective_pairing (parse_feature _ _ _))
      in Hr. rewrite Hout in Hr. by apply returns_raise in Hr.
  - done.
Qed.

Section Registers.
Variable rec : Element → Py Feature.

Lemma parse_each_registers only elems :
  Forall (rec_registers rec) elems →
  ∀ acc fm cs fm',
    parse_each rec only elems acc fm = (Ok cs, fm') →
    ∃ new, cs = acc ++ new ∧
           features fm' = register_all (flat_map postorder new) (features fm).
Proof.
  induction 1 as [|c elems Hc _ IH]; intros acc fm cs fm'; simpl.
  { intros [= <- <-]. exists []. by rewrite app_nil_r. }
  destruct (bool_decide _); [|apply IH]. unfold bind.
  destruct (rec c fm) as [[cf|e] fm1] eqn:Ec; [|done].
  intros Hrest. destruct (IH _ _ _ _ Hrest) as (new & -> & Hmap).
  exists (cf :: new). rewrite <- app_assoc. split; [done|].
  simpl. by rewrite register_all_app, <- (Hc fm cf fm1 Ec).
Qed.

Lemma parse_group_registers all elems :
  Forall (rec_registers rec) all →
  Forall (λ g, Forall (rec_registers rec) (subelements g)) elems →
  ∀ fm grp cs fm',
    parse_group rec all elems fm = (Ok (grp, cs), fm') →
    features fm' = register_all (flat_map postorder cs) (features fm).
Proof.
  intros Hall. induction 1 as [|g elems Hg _ IH]; intros fm grp cs fm'; simpl.
  - unfold bind.
    destruct (parse_each rec (Some "feature") all [] fm) as [[cs0|e] fm1] eqn:E;
      [|done].
    intros [= <- <- <-].
    by destruct (parse_each_registers _ all Hall _ _ _ _ E) as (new & -> & H).
  - destruct (String.eqb (tag g) "group"); [|apply IH].
    unfold bind, attr. destruct (attrib g !! "type") as [ty|]; simpl; [|done].
    destruct (parse_each rec None (subelements g) [] fm) as [[cs0|e] fm1] eqn:E;
      [|done].
    intros [= <- <- <-].
    by destruct (parse_each_registers _ (subelements g) Hg _ _ _ _ E)
      as (new & -> & H).
Qed.
End Registers.

(** A returned [parse_feature] has written the feature map with the
    features of its tree, children before parents, and nothing else. *)
Lemma parse_feature_registers element :
  (∀ p, rec_registers (λ c, parse_feature c p) element) ∧
  Forall (λ c, ∀ p, rec_registers (λ c, parse_feature c p) c)
         (subelements element).
Proof.
  induction element as [t a tx subs IH] using Element_tree_ind.
  assert (Forall (λ c, ∀ p, rec_registers (λ c, parse_feature c p) c) subs)
    as Hsubs.
  { eapply Forall_impl; [exact IH|]. by intros c [? _]. }
  split; [|exact Hsubs]. intros p fm f fm'.
  remember (mkElement t a tx subs) as e eqn:He.
  assert (subelements e = subs) as Hse by by subst.
  clear He. rewrite parse_feature_eq, Hse.
  unfold attr, bind, ret, raise, register.
  destruct (attrib e !! "name") as [nm|]; [|done].
  destruct (parse_group _ subs subs fm) as [[[grp cs]|ex] fm1] eqn:Eg; [|done].
  intros [= <- <-]. simpl.
  rewrite register_all_app. simpl. f_equal.
  apply (parse_group_registers (λ c, parse_feature c (Some nm)) subs subs)
    with (grp := grp); [| |exact Eg].
  - eapply Forall_impl; [exact Hsubs|]. intros c Hc. apply Hc.
  - eapply Forall_impl; [exact IH|]. intros g [_ Hg].
    eapply Forall_impl; [exact Hg|]. intros c Hc. apply Hc.
Qed.

(** A group without [type]: [group.attrib["type"]] raises before any
    child is read. *)
Lemma parse_group_untyped rec all elems g fm :
  List.find (λ c, String.eqb (tag c) "group") elems = Some g →
  attrib g !! "type" = None →
  parse_group rec all elems fm = (Raise (KeyError "type"), fm) ∧
  ∀ wf, group_well_formed wf all elems = false.
Proof.
  intros Hfind Htype. induction elems as [|c elems IH]; simpl in *; [done|].
  destruct (String.eqb (tag c) "group").
  - injection Hfind as ->. unfold bind, attr. rewrite Htype. split; [done|].
    intros wf. rewrite bool_decide_eq_false_2; [done|]. by intros [? ?].
  - by apply IH.
Qed.

(** C8, as the code has it.  Reading a document raises [ParseError]
    when the text is not XML, [AttributeError] when the document has no
    feature element, and [KeyError] when a feature element the reader
    visits has no name or a group no type; there is no other failure in
    the tree.  Names occurring twice do not matter: a tree of named
    features with typed groups is read without error, and the feature map
    is then the old one written with the features of the tree in the
    order their calls return, so that under a name stands the last
    feature read with it.  When the tree raises, the constraint list, the
    root and the registry are as before; the feature map is not restored:
    its keys are those it had and the names of the features read before
    the failing element ([read_of]). *)
Theorem parse_xml_failures (fm : FeatureModel) :
  parse_xml None fm = (Raise ParseError, fm) ∧
  (∀ doc, find "feature" doc = None →
          parse_xml (Some doc) fm = (Raise (AttributeError "attrib"), fm)) ∧
  (∀ element parent,
     attrib element !! "name" = None →
     well_formed element = false ∧
     parse_feature element parent fm = (Raise (KeyError "name"), fm)) ∧
  (∀ element parent nm g,
     attrib element !! "name" = Some nm → find "group" element = Some g →
     attrib g !! "type" = None →
     well_formed element = false ∧
     parse_feature element parent fm = (Raise (KeyError "type"), fm)) ∧
  (∀ doc root_feature,
     find "feature" doc = Some root_feature →
     (well_formed root_feature = false →
      ∃ key fm',
        (key = "name" ∨ key = "type") ∧
        (read_of root_feature).2 = Some (KeyError key) ∧
        parse_xml (Some doc) fm = (Raise (KeyError key), fm') ∧
        same_but_features fm fm' ∧
        ∀ k, k ∈ (features fm').*1
             ↔ k ∈ (features fm).*1 ∨ k ∈ (read_of root_feature).1) ∧
     (well_formed root_feature = true →
      ∃ f fm',
        parse_feature root_feature None fm = (Ok f, fm') ∧
        features fm' = register_all (postorder f) (features fm) ∧
        ∀ k, dict_get k (features fm')
             = match last (filter (λ g, name g = k) (postorder f)) with
               | Some g => Some g
               | None => dict_get k (features fm)
               end)).
Proof.
  split; [done|]. split; [|split; [|split]].
  - intros doc Hfind. unfold parse_xml. by rewrite Hfind.
  - intros element parent Hname. split.
    + rewrite well_formed_eq, bool_decide_eq_false_2; [done|].
      rewrite Hname. by intros [? ?].
    + rewrite parse_feature_eq. unfold attr, bind. by rewrite Hname.
  - intros element parent nm g Hname Hfind Htype.
    destruct (parse_group_untyped (λ c, parse_feature c (Some nm))
                (subelements element) (subelements element) g fm Hfind Htype)
      as [Hraise Hwf].
    split.
    + rewrite well_formed_eq, Hwf. apply andb_false_r.
    + rewrite parse_feature_eq. unfold attr, bind, ret. rewrite Hname.
      by rewrite Hraise.
  - intros doc rf Hfind.
    destruct (proj1 (parse_feature_spec rf) None fm) as [Hframe Hret].
    destruct (proj1 (read_of_spec rf) None) as [Hshape Hread].
    destruct (Hread fm) as [Hout Hkeys].
    pose proof (read_of_well_formed rf) as Hwf_iff.
    split.
    + intros Hwf.
      assert (∃ key, (key = "name" ∨ key = "type") ∧
                     (read_of rf).2 = Some (KeyError key)) as (key & Hkey & Hrd).
      { destruct Hshape as [H|[H|H]].
        - apply Hwf_iff in H. congruence.
        - exists "name". split; [by left|done].
        - exists "type". split; [by right|done]. }
      rewrite Hrd in Hout. unfold parse_xml. rewrite Hfind. unfold bind.
      destruct (parse_feature rf None fm) as [[f|e] fm1]; simpl in *; [done|].
      injection Hout as ->. by exists key, fm1.
    + intros Hwf. apply Hret in Hwf as (f & fm' & Hf). exists f, fm'.
      split; [done|].
      pose proof (proj1 (parse_feature_registers rf) None fm f fm' Hf) as Hmap.
      split; [done|]. intros k. rewrite Hmap. apply dict_get_register_all.
Qed.

(** C8 as stated fails twice.  A document with two features named A is
    read without error, and the feature map keeps one entry for A: the
    one read last, the optional child of B.  A document whose second
    child has no name raises, and the first child, read before it, stays
    in the feature map. *)
Lemma parse_xml_counterexample :
  (parse_xml (Some duplicate_doc) init).1 = Ok () ∧
  (features (parse_xml (Some duplicate_doc) init).2).*1 = ["A"; "B"; "root"] ∧
  dict_get "A" (features (parse_xml (Some duplicate_doc) init).2)
  = Some (mkFeature "A" false (Some "B") [] None) ∧
  (parse_xml (Some nameless_doc) init).1 = Raise (KeyError "name") ∧
  features (parse_xml (Some nameless_doc) init).2
  = [("A", mkFeature "A" false (Some "root") [] None)] ∧
  features init = [].
Proof. repeat split; vm_compute; reflexivity. Qed.

(** ** Further properties: the variable registry *)

(** [get_var] then [get_name] gives the name back, for the variable and
    for its negation; a second [get_var] of the name returns the same
    number and changes nothing; no other name has that number; a name
    seen for the first time gets [next_var], and [next_var] moves on by
    one. *)
Theorem get_var_get_name_round_trip (fm : FeatureModel) (nm : string) :
  registry_ok fm →
  get_name (get_var nm fm).2 (get_var nm fm).1 = Some nm ∧
  get_name (get_var nm fm).2 (- (get_var nm fm).1) = Some nm ∧
  get_var nm (get_var nm fm).2 = get_var nm fm ∧
  (∀ nm', (get_var nm' (get_var nm fm).2).1 = (get_var nm fm).1 → nm' = nm) ∧
  1 ≤ (get_var nm fm).1 ∧
  (var_map fm !! nm = None →
   (get_var nm fm).1 = next_var fm ∧
   next_var (get_var nm fm).2 = next_var fm + 1).
Proof.
  intros Hok. destruct (get_var_spec fm nm Hok) as (Hok1 & Hext & Hv & _).
  destruct (registered_var _ _ _ Hok1 Hv) as (_ & Hrange & Hname).
  split; [done|]. split; [|split; [|split; [|split; [lia|]]]].
  - unfold get_name in *. by rewrite Z.abs_opp.
  - unfold get_var at 1. rewrite Hv. by destruct (get_var nm fm).
  - intros nm' Heq.
    destruct (get_var_spec _ nm' Hok1) as (Hok2 & [Hsub _] & Hv' & _).
    rewrite Heq in Hv'.
    pose proof (lookup_weaken _ _ _ _ Hv Hsub) as Hv2.
    by apply (registered_inj _ _ _ _ Hok2 Hv' Hv2).
  - intros Hnone. unfold get_var. by rewrite Hnone.
Qed.

Lemma get_var_get_name_round_trip_witness :
  get_name (get_var "root" init).2 (get_var "root" init).1 = Some "root" ∧
  (get_var "root" init).1 = 1 ∧
  (get_var "A" (get_var "root" init).2).1 = 2.
Proof.
  destruct (get_var_get_name_round_trip init "root" registry_ok_init)
    as (H & _).
  split; [exact H|]. split; reflexivity.
Defined.

(** ** Further properties: the rule log *)

Lemma logic_rules_get_var nm fm : logic_rules (get_var nm fm).2 = logic_rules fm.
Proof. unfold get_var. by destruct (var_map fm !! nm). Qed.

Lemma logic_rules_get_vars names fm :
  logic_rules (get_vars names fm).2 = logic_rules fm.
Proof.
  revert fm. induction names as [|n ns IH]; intros fm; simpl; [done|].
  pose proof (logic_rules_get_var n fm) as H1.
  destruct (get_var n fm) as [v fm1]. pose proof (IH fm1) as H2.
  destruct (get_vars ns fm1) as [vs fm2]. simpl in *. congruence.
Qed.

Lemma logic_rules_exclude_pairs pairs st :
  logic_rules (exclude_pairs pairs st).1
  = logic_rules st.1
    ++ map (λ '(c1, c2), "¬(" +:+ c1 +:+ " ∧ " +:+ c2 +:+ ")") pairs.
Proof.
  revert st. induction pairs as [|[c1 c2] rest IH]; intros [fm cnf]; simpl.
  { by rewrite app_nil_r. }
  pose proof (logic_rules_get_var c1
    (add_rule ("¬(" +:+ c1 +:+ " ∧ " +:+ c2 +:+ ")") fm)) as H1.
  destruct (get_var c1 _) as [v1 fm1].
  pose proof (logic_rules_get_var c2 fm1) as H2.
  destruct (get_var c2 fm1) as [v2 fm2]. simpl in *.
  rewrite IH. simpl. rewrite H2, H1. by rewrite <- app_assoc.
Qed.

Lemma logic_rules_root_step f var st :
  logic_rules (root_step f var st).1 = logic_rules st.1 ++ root_rules f.
Proof.
  destruct st as [fm cnf]. unfold root_step, root_rules.
  destruct (negb _); simpl; [done|by rewrite app_nil_r].
Qed.

Lemma logic_rules_edge_step f var st :
  logic_rules (edge_step f var st).1 = logic_rules st.1 ++ edge_rules f.
Proof.
  destruct st as [fm cnf]. unfold edge_step, edge_rules.
  destruct (truthy _); simpl; [|by rewrite app_nil_r].
  pose proof (logic_rules_get_var (default "" (parent f)) fm) as H.
  destruct (get_var _ fm) as [pv fm1]. simpl in H.
  destruct (mandatory f); simpl; rewrite H; [|done].
  by rewrite <- app_assoc.
Qed.

Lemma logic_rules_group_step f var st :
  logic_rules (group_step f var st).1 = logic_rules st.1 ++ group_rules f.
Proof.
  destruct st as [fm cnf]. unfold group_step, group_rules, group_rule,
    exclusion_rules.
  pose proof (logic_rules_get_vars (map name (children f)) fm) as H.
  destruct (get_vars _ fm) as [vs fm1]. simpl in H.
  destruct (bool_decide (group f = Some "XOR")).
  - rewrite logic_rules_exclude_pairs. simpl. rewrite H.
    by rewrite <- app_assoc.
  - destruct (bool_decide (group f = Some "OR")); simpl;
      [by rewrite H|by rewrite app_nil_r].
Qed.

Lemma logic_rules_process_feature f :
  ∀ st, logic_rules (process_feature f st).1
        = logic_rules st.1 ++ feature_rules f.
Proof.
  induction f as [nm m p cs g IH] using Feature_tree_ind.
  intros [fm cnf]. rewrite process_feature_eq.
  set (f := mkFeature nm m p cs g) in *.
  assert (∀ st, logic_rules
            (fold_left (λ st child, process_feature child st) cs st).1
          = logic_rules st.1 ++ flat_map feature_rules cs) as Hfold.
  { induction IH as [|c cs' Hc _ IHcs]; intros st; simpl.
    - by rewrite app_nil_r.
    - by rewrite IHcs, Hc, <- app_assoc. }
  change (children f) with cs. rewrite Hfold.
  rewrite logic_rules_group_step, logic_rules_edge_step,
    logic_rules_root_step. cbn [fst snd].
  rewrite logic_rules_get_var. change (feature_rules f)
    with (own_rules f ++ flat_map feature_rules cs).
  unfold own_rules. by rewrite <- !app_assoc.
Qed.

Lemma logic_rules_constraints cs st :
  logic_rules (fold_left constraint_step cs st).1
  = logic_rules st.1 ++ constraint_rules cs.
Proof.
  revert st. induction cs as [|c cs IH]; intros [fm cnf]; simpl.
  { by rewrite app_nil_r. }
  rewrite IH. unfold constraint_step, qualifies.
  destruct (String.eqb (type c) "requires"); simpl; [|done].
  destruct (str_in "filter" (englishStatement c)); simpl; [|done].
  pose proof (logic_rules_get_var "ByLocation"
                (add_rule "Location → ByLocation" fm)) as H1.
  destruct (get_var "ByLocation" _) as [v1 fm1].
  pose proof (logic_rules_get_var "Location" fm1) as H2.
  destruct (get_var "Location" fm1) as [v2 fm2]. simpl in *.
  rewrite H2, H1. by rewrite <- app_assoc.
Qed.

Lemma generate_logic_rules fm r :
  registry_ok fm → root fm = Some r →
  logic_rules (generate_rules_and_cnf fm).2
  = feature_rules r ++ constraint_rules (constraints fm).
Proof.
  intros Hok Hroot. unfold generate_rules_and_cnf.
  change (root (reset_rules fm)) with (root fm). rewrite Hroot.
  pose proof (process_feature_emits r (reset_rules fm, []) Hok) as H1.
  pose proof (logic_rules_process_feature r (reset_rules fm, [])) as H2.
  destruct (process_feature r (reset_rules fm, [])) as [fm1 cnf1].
  assert (constraints fm1 = constraints fm) as Hcs by apply H1.
  cbn [fst] in *. rewrite Hcs.
  pose proof (logic_rules_constraints (constraints fm) (fm1, cnf1)) as H3.
  destruct (fold_left constraint_step (constraints fm) (fm1, cnf1))
    as [fm2 cnf2]. simpl in *. by rewrite H3, H2.
Qed.

Lemma own_rules_length V f :
  length (own_rules f) = length (own_clauses V f).
Proof.
  unfold own_rules, own_clauses, root_rules, root_clauses, edge_rules,
    edge_clauses, group_rules, group_clauses, exclusion_rules, exclusions.
  rewrite !length_app. f_equal; [|f_equal].
  - by destruct (negb _).
  - destruct (truthy _); [|done]. by destruct (mandatory f).
  - destruct (bool_decide (group f = Some "XOR")).
    + simpl. by rewrite !length_map.
    + by destruct (bool_decide (group f = Some "OR")).
Qed.

Lemma feature_rules_length V f :
  length (feature_rules f) = length (feature_clauses V f).
Proof.
  induction f as [nm m p cs g IH] using Feature_tree_ind. simpl.
  rewrite !length_app. f_equal; [apply own_rules_length|].
  induction IH as [|c cs' Hc _ IHcs]; simpl; [done|].
  rewrite !length_app. by f_equal.
Qed.

Lemma constraint_rules_length V cs :
  length (constraint_rules cs) = length (constraint_clauses V cs).
Proof.
  induction cs as [|c cs IH]; simpl; [done|].
  rewrite !length_app, IH. by destruct (qualifies c).
Qed.

(** The rule log is the tree's rules followed by one rule per qualifying
    constraint: it depends on names only, not on variable numbers, and it
    has exactly one entry per clause of the compiled list. *)
Theorem rule_log_in_lock_step (fm : FeatureModel) (r : Feature) :
  registry_ok fm → root fm = Some r →
  ∃ cnf fm',
    generate_rules_and_cnf fm = (Ok cnf, fm') ∧
    logic_rules fm' = feature_rules r ++ constraint_rules (constraints fm) ∧
    length (logic_rules fm') = length cnf.
Proof.
  intros Hok Hroot.
  destruct (generate_spec fm r Hok Hroot)
    as (cnf & fm' & Hgen & _ & _ & _ & Hcnf).
  pose proof (generate_logic_rules fm r Hok Hroot) as Hrules.
  rewrite Hgen in Hrules. simpl in Hrules.
  exists cnf, fm'. split; [done|]. split; [done|].
  rewrite Hrules, (Hcnf fm' (extends_refl _)). unfold compiled.
  rewrite !length_app.
  by rewrite (feature_rules_length (var_of fm')),
    (constraint_rules_length (var_of fm')).
Qed.

Lemma rule_log_in_lock_step_witness :
  ∃ cnf fm',
    generate_rules_and_cnf demo_model = (Ok cnf, fm') ∧
    logic_rules fm'
    = feature_rules demo_root ++ constraint_rules (constraints demo_model) ∧
    length (logic_rules fm') = length cnf.
Proof.
  exact (rule_log_in_lock_step demo_model demo_root
           demo_registry_ok demo_root_eq).
Defined.

(** Compiling again, from the state the first compilation left, gives
    the same clause list and the same rule log; the numbers of the names
    already registered stay. *)
Theorem generate_again_same (fm : FeatureModel) (r : Feature)
    (cnf : CNF) (fm1 : FeatureModel) :
  registry_ok fm → root fm = Some r →
  generate_rules_and_cnf fm = (Ok cnf, fm1) →
  ∃ fm2,
    generate_rules_and_cnf fm1 = (Ok cnf, fm2) ∧
    logic_rules fm2 = logic_rules fm1 ∧
    registry_ok fm2 ∧ extends fm1 fm2.
Proof.
  intros Hok Hroot Hgen.
  destruct (generate_spec fm r Hok Hroot)
    as (cnf' & fm1' & Hgen' & Hok1 & Hext1 & _ & Hcnf).
  rewrite Hgen in Hgen'. injection Hgen' as <- <-.
  assert (root fm1 = Some r) as Hroot1.
  { destruct Hext1 as (_ & _ & _ & ->). done. }
  assert (constraints fm1 = constraints fm) as Hcs by apply Hext1.
  destruct (generate_spec fm1 r Hok1 Hroot1)
    as (cnf2 & fm2 & Hgen2 & Hok2 & Hext2 & _ & Hcnf2).
  exists fm2. split; [|split; [|done]].
  - rewrite Hgen2. f_equal. f_equal.
    rewrite (Hcnf2 fm2 (extends_refl _)), (Hcnf fm2 Hext2). by rewrite Hcs.
  - pose proof (generate_logic_rules fm r Hok Hroot) as H1.
    pose proof (generate_logic_rules fm1 r Hok1 Hroot1) as H2.
    rewrite Hgen in H1. rewrite Hgen2 in H2. simpl in *. congruence.
Qed.

Lemma generate_again_same_witness :
  ∃ fm2,
    generate_rules_and_cnf (generate_rules_and_cnf demo_model).2
    = ((generate_rules_and_cnf demo_model).1, fm2) ∧
    logic_rules fm2 = logic_rules (generate_rules_and_cnf demo_model).2.
Proof.
  destruct (generate_spec demo_model demo_root demo_registry_ok demo_root_eq)
    as (cnf & fm1 & Hgen & _).
  destruct (generate_again_same demo_model demo_root cnf fm1
              demo_registry_ok demo_root_eq Hgen) as (fm2 & H1 & H2 & _).
  exists fm2. rewrite Hgen. simpl. by split.
Defined.

(** ** Further properties: what the validator rejects *)

Lemma check_feature_own sel r f x :
  f ∈ subfeatures r →
  (∀ msgs, x ∈ group_check sel f (mandatory_check sel f msgs)) →
  ∀ msgs, x ∈ check_feature sel r msgs.
Proof.
  intros Hf Hown.
  induction r as [nm m p cs g IH] using Feature_tree_ind.
  intros msgs. rewrite check_feature_eq.
  simpl in Hf. apply elem_of_cons in Hf as [->|Hf].
  - apply check_children_mono; [|apply Hown].
    apply Forall_forall. intros c _. apply check_feature_mono.
  - apply elem_of_flat_map in Hf as (c & Hc & Hf). cbn [children].
    generalize (group_check sel (mkFeature nm m p cs g)
                  (mandatory_check sel (mkFeature nm m p cs g) msgs)).
    induction IH as [|c' cs' Hc' _ IHcs]; [by apply elem_of_nil in Hc|].
    intros msgs'. simpl. apply elem_of_cons in Hc as [<-|Hc].
    + apply check_children_mono.
      * apply Forall_forall. intros ? _. apply check_feature_mono.
      * by apply Hc'.
    + by apply IHcs.
Qed.

Lemma at_least_one_clash_unsat cnf g cs :
  (- g :: cs) ∈ cnf → [g] ∈ cnf → (∀ c, c ∈ cs → [- c] ∈ cnf) →
  ¬ satisfiable cnf.
Proof.
  intros Hcl Hg Hcs (m & Hfull & Hm). rewrite models_iff in Hm.
  pose proof (Hm _ Hg) as H1.
  apply clause_holds_iff in H1 as (l1 & ->%list_elem_of_singleton & Hl1).
  pose proof (Hm _ Hcl) as H2.
  apply clause_holds_iff in H2 as (l & Hl & Hlm).
  apply elem_of_cons in Hl as [->|Hl].
  - exact (full_model_consistent _ _ g Hfull Hl1 Hlm).
  - pose proof (Hm _ (Hcs l Hl)) as H3.
    apply clause_holds_iff in H3 as (l3 & ->%list_elem_of_singleton & Hl3).
    exact (full_model_consistent _ _ l Hfull Hlm Hl3).
Qed.

Lemma child_clause_in V r f p :
  f ∈ subfeatures r → parent f = Some p → p ≠ "" →
  [- V (name f); V p] ∈ feature_clauses V r.
Proof.
  intros Hf Hp Hne. apply (own_clauses_sub V r f _ Hf).
  unfold own_clauses, edge_clauses. rewrite Hp.
  assert (truthy (Some p) = true) as -> by (simpl; by destruct p).
  apply elem_of_app. right. apply elem_of_app. left.
  change (default "" (Some p)) with p.
  destruct (mandatory f); [right; left|left].
Qed.

Lemma group_clause_in V r g :
  g ∈ subfeatures r →
  group g = Some "XOR" ∨ group g = Some "OR" →
  at_least_one V g ∈ feature_clauses V r.
Proof.
  intros Hg Hgroup. apply (own_clauses_sub V r g _ Hg).
  unfold own_clauses, group_clauses.
  apply elem_of_app. right. apply elem_of_app. right.
  destruct Hgroup as [H|H]; rewrite H.
  - rewrite bool_decide_eq_true_2 by done. left.
  - rewrite bool_decide_eq_false_2 by done.
    rewrite bool_decide_eq_true_2 by done. left.
Qed.

Lemma exclusion_clause_in V r g i j a b :
  g ∈ subfeatures r → group g = Some "XOR" → (i < j)%nat →
  map name (children g) !! i = Some a →
  map name (children g) !! j = Some b →
  [- V a; - V b] ∈ feature_clauses V r.
Proof.
  intros Hg Hxor Hlt Hi Hj. apply (own_clauses_sub V r g _ Hg).
  unfold own_clauses, group_clauses, exclusions.
  apply elem_of_app. right. apply elem_of_app. right.
  rewrite Hxor, bool_decide_eq_true_2 by done. right.
  apply list_elem_of_fmap. exists (a, b). split; [done|].
  by apply (combinations2_lookup _ i j).
Qed.

Lemma constraint_clause_in V cs c :
  c ∈ cs → qualifies c = true →
  [- V "ByLocation"; V "Location"] ∈ constraint_clauses V cs.
Proof.
  intros Hc Hq. apply elem_of_flat_map. exists c. split; [done|].
  rewrite Hq. left.
Qed.

Lemma filter_length_zero {A} (P : A → bool) (l : list A) x :
  length (List.filter P l) = 0%nat → x ∈ l → P x = false.
Proof.
  induction l as [|y l IH]; simpl; [by intros _ ?%elem_of_nil|].
  destruct (P y) eqn:E; simpl; [done|].
  intros Hlen [->|Hx]%elem_of_cons; [done|by apply IH].
Qed.

Lemma filter_length_pos {A} (P : A → bool) (l : list A) :
  (1 ≤ length (List.filter P l))%nat →
  ∃ i a, l !! i = Some a ∧ P a = true.
Proof.
  induction l as [|y l IH]; simpl; [lia|].
  destruct (P y) eqn:E.
  - intros _. by exists 0%nat, y.
  - intros (i & a & Hi & Ha)%IH. by exists (S i), a.
Qed.

Lemma filter_length_two {A} (P : A → bool) (l : list A) :
  (2 ≤ length (List.filter P l))%nat →
  ∃ i j a b, (i < j)%nat ∧ l !! i = Some a ∧ l !! j = Some b ∧
             P a = true ∧ P b = true.
Proof.
  induction l as [|y l IH]; simpl; [lia|].
  destruct (P y) eqn:E; simpl.
  - intros Hlen. destruct (filter_length_pos P l) as (j & b & Hj & Hb); [lia|].
    exists 0%nat, (S j), y, b. repeat split; try done. lia.
  - intros (i & j & a & b & Hlt & Hi & Hj & Ha & Hb)%IH.
    exists (S i), (S j), a, b. repeat split; try done. lia.
Qed.

Section Rejections.
Context {O : Oracle} {L : OracleLaws O}.

Lemma validate_rejects fm r sel :
  registry_ok fm → root fm = Some r →
  (∀ V, ¬ satisfiable (compiled V r (constraints fm)
                       ++ selection_clauses V sel (features fm).*1)) →
  ∃ fm2, validate_selection fm sel
         = (Ok {| isValid := false;
                  messages := cross_tree_check sel (check_feature sel r []) |},
            fm2).
Proof.
  intros Hok Hroot Hunsat.
  destruct (validate_selection_spec fm r sel Hok Hroot)
    as (cnf & fm1 & fm2 & b & _ & _ & _ & _ & Hcnf & _ & _ & _ & Hb & Hval).
  exists fm2. rewrite Hval. destruct b; [|done].
  destruct (Hunsat (var_of fm2)). rewrite <- Hcnf. by apply Hb.
Qed.
End Rejections.

(** A selection that contains a feature of the tree but not its parent
    is rejected, when the parent's name is not the empty string: the
    child-to-parent clause is emitted under the test [feature["parent"]]
    only ([unnamed_parent_selection] is the other case). *)
Theorem validate_rejects_orphan {O : Oracle} (L : OracleLaws O)
    (fm : FeatureModel) (r f : Feature) (p : string) (sel : gset pyname) :
  registry_ok fm → root fm = Some r →
  f ∈ subfeatures r → parent f = Some p → p ≠ "" →
  name f ∈ (features fm).*1 → p ∈ (features fm).*1 →
  Some (name f) ∈ sel → Some p ∉ sel →
  ∃ v fm2, validate_selection fm sel = (Ok v, fm2) ∧ isValid v = false.
Proof.
  intros Hok Hroot Hf Hp Hne Hkf Hkp Hsf Hsp.
  destruct (validate_rejects fm r sel Hok Hroot) as [fm2 Hval].
  - intros V. apply (implication_clash_unsat _ (V (name f)) (V p)).
    + apply elem_of_app. left. apply elem_of_app. left.
      by apply child_clause_in.
    + apply elem_of_app. right. by apply selection_clause_selected.
    + apply elem_of_app. right. by apply selection_clause_unselected.
  - by eexists _, fm2.
Qed.

Lemma validate_rejects_orphan_witness :
  ∃ v fm2,
    @validate_selection brute_force demo_model {[ Some "B" ]} = (Ok v, fm2) ∧
    isValid v = false.
Proof.
  apply (validate_rejects_orphan brute_force_laws demo_model demo_root
           demo_B "A").
  - exact demo_registry_ok.
  - exact demo_root_eq.
  - right. right. left.
  - reflexivity.
  - discriminate.
  - vm_compute. left.
  - vm_compute. do 2 right. left.
  - by apply elem_of_singleton.
  - rewrite elem_of_singleton. discriminate.
Defined.



(** A selected group, XOR or OR, none of whose children is selected is
    rejected, and the messages name the group and its kind. *)
Theorem validate_rejects_empty_group {O : Oracle} (L : OracleLaws O)
    (fm : FeatureModel) (r g : Feature) (sel : gset pyname) :
  registry_ok fm → root fm = Some r →
  g ∈ subfeatures r → group g = Some "XOR" ∨ group g = Some "OR" →
  name g ∈ (features fm).*1 →
  (∀ c, c ∈ children g → name c ∈ (features fm).*1 ∧ Some (name c) ∉ sel) →
  Some (name g) ∈ sel →
  ∃ v fm2,
    validate_selection fm sel = (Ok v, fm2) ∧ isValid v = false ∧
    (if bool_decide (group g = Some "XOR")
     then "XOR group " +:+ name g +:+ " must have exactly one selection"
     else "OR group " +:+ name g +:+ " must have at least one selection")
    ∈ messages v.
Proof.
  intros Hok Hroot Hg Hgroup Hkg Hcs Hsg.
  destruct (validate_rejects fm r sel Hok Hroot) as [fm2 Hval].
  - intros V. apply (at_least_one_clash_unsat _ (V (name g))
                       (map V (map name (children g)))).
    + apply elem_of_app. left. apply elem_of_app. left.
      by apply group_clause_in.
    + apply elem_of_app. right. by apply selection_clause_selected.
    + intros l (nm & -> & (c & -> & Hc)%list_elem_of_fmap)%list_elem_of_fmap.
      destruct (Hcs c Hc). apply elem_of_app. right.
      by apply selection_clause_unselected.
  - eexists _, fm2. split; [exact Hval|]. split; [done|]. cbn [messages].
    apply cross_tree_check_mono, (check_feature_own sel r g); [done|].
    intros msgs. unfold group_check.
    rewrite (bool_decide_eq_true_2 _ Hsg).
    assert (List.filter (λ c, bool_decide (Some c ∈ sel))
              (map name (children g)) = []) as ->.
    { induction (children g) as [|c cs IH]; [done|]. simpl.
      destruct (Hcs c) as [_ Hc]; [left|].
      rewrite (bool_decide_eq_false_2 _ Hc). apply IH.
      intros c' Hc'. apply Hcs. by right. }
    destruct Hgroup as [H|H]; rewrite H.
    + rewrite bool_decide_eq_true_2 by done. simpl.
      apply elem_of_app. right. left.
    + rewrite bool_decide_eq_false_2 by done.
      rewrite !bool_decide_eq_true_2 by done.
      apply elem_of_app. right. left.
Qed.

Lemma validate_rejects_empty_group_witness :
  ∃ v fm2,
    @validate_selection brute_force demo_model {[ Some "root"; Some "A" ]}
    = (Ok v, fm2) ∧ isValid v = false ∧
    "XOR group A must have exactly one selection" ∈ messages v.
Proof.
  apply (validate_rejects_empty_group brute_force_laws demo_model demo_root
           demo_A).
  - exact demo_registry_ok.
  - exact demo_root_eq.
  - right. left.
  - by left.
  - vm_compute. do 2 right. left.
  - intros c Hc. simpl in Hc.
    apply elem_of_cons in Hc as [->|Hc];
      [|apply list_elem_of_singleton in Hc as ->].
    + split; [vm_compute; left|]. rewrite elem_of_union, !elem_of_singleton.
      by intros [[=]|[=]].
    + split; [vm_compute; right; left|].
      rewrite elem_of_union, !elem_of_singleton. by intros [[=]|[=]].
  - rewrite elem_of_union, !elem_of_singleton. by right.
Defined.

(** A selected XOR group with two or more selected children is rejected,
    and the messages say so. *)
Theorem validate_rejects_crowded_xor {O : Oracle} (L : OracleLaws O)
    (fm : FeatureModel) (r g : Feature) (sel : gset pyname) :
  registry_ok fm → root fm = Some r →
  g ∈ subfeatures r → group g = Some "XOR" →
  (∀ c, c ∈ children g → name c ∈ (features fm).*1) →
  Some (name g) ∈ sel →
  (2 ≤ length (List.filter (λ c, bool_decide (Some c ∈ sel))
                 (map name (children g))))%nat →
  ∃ v fm2,
    validate_selection fm sel = (Ok v, fm2) ∧ isValid v = false ∧
    ("XOR group " +:+ name g +:+ " must have exactly one selection")
    ∈ messages v.
Proof.
  intros Hok Hroot Hg Hxor Hcs Hsg Htwo.
  destruct (filter_length_two _ _ Htwo)
    as (i & j & a & b & Hlt & Hi & Hj & Ha & Hb).
  apply bool_decide_eq_true in Ha, Hb.
  assert (∀ k nm, map name (children g) !! k = Some nm →
                  nm ∈ (features fm).*1) as Hkeys.
  { intros k nm Hk. apply list_elem_of_lookup_2 in Hk.
    apply list_elem_of_fmap in Hk as (c & -> & Hc). by apply Hcs. }
  destruct (validate_rejects fm r sel Hok Hroot) as [fm2 Hval].
  - intros V. apply (exclusion_clash_unsat _ (V a) (V b)).
    + apply elem_of_app. left. apply elem_of_app. left.
      by apply (exclusion_clause_in V r g i j).
    + apply elem_of_app. right.
      apply selection_clause_selected; [by eapply Hkeys|done].
    + apply elem_of_app. right.
      apply selection_clause_selected; [by eapply Hkeys|done].
  - eexists _, fm2. split; [exact Hval|]. split; [done|]. cbn [messages].
    apply cross_tree_check_mono, (check_feature_own sel r g); [done|].
    intros msgs. unfold group_check.
    rewrite (bool_decide_eq_true_2 _ Hsg), Hxor.
    rewrite bool_decide_eq_true_2 by done.
    destruct (Nat.eqb_spec
      (length (List.filter (λ c, bool_decide (Some c ∈ sel))
                 (map name (children g)))) 1); [lia|].
    simpl. apply elem_of_app. right. left.
Qed.

Lemma validate_rejects_crowded_xor_witness :
  ∃ v fm2,
    @validate_selection brute_force demo_model
      {[ Some "root"; Some "A"; Some "B"; Some "C" ]}
    = (Ok v, fm2) ∧ isValid v = false ∧
    "XOR group A must have exactly one selection" ∈ messages v.
Proof.
  apply (validate_rejects_crowded_xor brute_force_laws demo_model demo_root
           demo_A).
  - exact demo_registry_ok.
  - exact demo_root_eq.
  - right. left.
  - reflexivity.
  - intros c Hc. simpl in Hc.
    apply elem_of_cons in Hc as [->|Hc];
      [|apply list_elem_of_singleton in Hc as ->].
    + vm_compute. left.
    + vm_compute. right. left.
  - apply (bool_decide_unpack _). vm_compute. exact I.
  - vm_compute. lia.
Defined.

(** With a constraint of the "filter" kind in the model and ByLocation
    and Location among the features, a selection with ByLocation and
    without Location is rejected, and the messages say so. *)
Theorem validate_rejects_missing_location {O : Oracle} (L : OracleLaws O)
    (fm : FeatureModel) (r : Feature) (c : Constraint) (sel : gset pyname) :
  registry_ok fm → root fm = Some r →
  c ∈ constraints fm → qualifies c = true →
  "ByLocation" ∈ (features fm).*1 → "Location" ∈ (features fm).*1 →
  Some "ByLocation" ∈ sel → Some "Location" ∉ sel →
  ∃ v fm2,
    validate_selection fm sel = (Ok v, fm2) ∧ isValid v = false ∧
    "Location feature is required for ByLocation" ∈ messages v.
Proof.
  intros Hok Hroot Hc Hq Hkb Hkl Hsb Hsl.
  destruct (validate_rejects fm r sel Hok Hroot) as [fm2 Hval].
  - intros V. apply (implication_clash_unsat _ (V "ByLocation") (V "Location")).
    + apply elem_of_app. left. apply elem_of_app. right.
      by apply (constraint_clause_in V _ c).
    + apply elem_of_app. right. by apply selection_clause_selected.
    + apply elem_of_app. right. by apply selection_clause_unselected.
  - eexists _, fm2. split; [exact Hval|]. split; [done|]. cbn [messages].
    unfold cross_tree_check. rewrite !bool_decide_eq_true_2 by done.
    simpl. apply elem_of_app. right. left.
Qed.

Lemma location_registry_ok : registry_ok location_model.
Proof. apply (registry_ok_same init); [reflexivity..|apply registry_ok_init]. Qed.

Lemma location_root_eq : root location_model = Some location_root.
Proof. vm_compute. reflexivity. Qed.

Lemma validate_rejects_missing_location_witness :
  ∃ v fm2,
    @validate_selection brute_force location_model
      {[ Some "root"; Some "ByLocation" ]}
    = (Ok v, fm2) ∧ isValid v = false ∧
    "Location feature is required for ByLocation" ∈ messages v.
Proof.
  apply (validate_rejects_missing_location brute_force_laws location_model
           location_root (mkConstraint "X is required to filter" "requires")).
  - exact location_registry_ok.
  - exact location_root_eq.
  - vm_compute. left.
  - reflexivity.
  - vm_compute. left.
  - vm_compute. right. left.
  - rewrite elem_of_union, !elem_of_singleton. by right.
  - rewrite elem_of_union, !elem_of_singleton. by intros [[=]|[=]].
Defined.

(** ** Further properties: what the validator does not look at *)

Section Unknown.
Context {O : Oracle}.

Lemma select_fold_agree sel sel' names st :
  Forall (λ nm, Some nm ∈ sel ↔ Some nm ∈ sel') names →
  fold_left (select_step sel) names st = fold_left (select_step sel') names st.
Proof.
  intros Hall. revert st. induction Hall as [|nm names Hnm _ IH]; intros st;
    simpl; [done|].
  rewrite IH. f_equal. destruct st as [fm s]. unfold select_step.
  destruct (get_var nm fm) as [v fm1].
  by rewrite (bool_decide_ext _ _ Hnm).
Qed.
End Unknown.

(** What the compiler and the selection loop leave alone: any field of
    the model object that [get_var] and [add_rule] do not write. *)
Section Keeps.
Context {X : Type} (field : FeatureModel → X).
Hypothesis field_get_var : ∀ nm fm, field (get_var nm fm).2 = field fm.
Hypothesis field_add_rule : ∀ rule fm, field (add_rule rule fm) = field fm.

Lemma get_vars_keeps names fm : field (get_vars names fm).2 = field fm.
Proof.
  revert fm. induction names as [|n ns IH]; intros fm; simpl; [done|].
  pose proof (field_get_var n fm) as H1. destruct (get_var n fm) as [v f1].
  pose proof (IH f1) as H2. destruct (get_vars ns f1). simpl in *.
  congruence.
Qed.

Lemma exclude_pairs_keeps pairs st :
  field (exclude_pairs pairs st).1 = field st.1.
Proof.
  revert st. induction pairs as [|[c1 c2] ps IH]; intros [f0 c0]; simpl;
    [done|].
  pose proof (field_get_var c1
                (add_rule ("¬(" +:+ c1 +:+ " ∧ " +:+ c2 +:+ ")") f0)) as H1.
  destruct (get_var c1 _) as [v1 f1].
  pose proof (field_get_var c2 f1) as H2. destruct (get_var c2 f1) as [v2 f2].
  rewrite IH. simpl in *. by rewrite H2, H1, field_add_rule.
Qed.

Lemma process_feature_keeps f :
  ∀ st, field (process_feature f st).1 = field st.1.
Proof.
  induction f as [nm m p cs g IH] using Feature_tree_ind.
  intros [fm0 cnf0]. rewrite process_feature_eq.
  set (f := mkFeature nm m p cs g) in *.
  assert (∀ st, field
            (fold_left (λ st child, process_feature child st) cs st).1
          = field st.1) as Hfold.
  { induction IH as [|c cs' Hc _ IHcs]; intros st; simpl; [done|].
    by rewrite IHcs, Hc. }
  change (children f) with cs. rewrite Hfold. cbn [fst snd].
  pose proof (field_get_var (name f) fm0) as H0.
  destruct (get_var (name f) fm0) as [var f1]. cbn [fst snd] in *.
  assert (field (root_step f var (f1, cnf0)).1 = field f1) as H1.
  { unfold root_step. destruct (negb _); [apply field_add_rule|done]. }
  destruct (root_step f var (f1, cnf0)) as [f2 c2].
  assert (field (edge_step f var (f2, c2)).1 = field f2) as H2.
  { unfold edge_step. destruct (truthy _); [|done].
    pose proof (field_get_var (default "" (parent f)) f2) as H.
    destruct (get_var _ f2) as [pv f3]. simpl in H.
    destruct (mandatory f); simpl; by rewrite ?field_add_rule. }
  destruct (edge_step f var (f2, c2)) as [f3 c3].
  assert (field (group_step f var (f3, c3)).1 = field f3) as H3.
  { unfold group_step.
    pose proof (get_vars_keeps (map name (children f)) f3) as H.
    destruct (get_vars _ f3) as [vs f4]. simpl in H.
    destruct (bool_decide (group f = Some "XOR")).
    - by rewrite exclude_pairs_keeps; simpl; rewrite field_add_rule.
    - destruct (bool_decide _); [|done]. simpl. by rewrite field_add_rule. }
  simpl in *. congruence.
Qed.

Lemma constraint_steps_keep cs st :
  field (fold_left constraint_step cs st).1 = field st.1.
Proof.
  revert st. induction cs as [|c cs IH]; intros [f0 c0]; simpl; [done|].
  rewrite IH. unfold constraint_step.
  destruct (String.eqb _ _); [|done]. destruct (str_in _ _); [|done].
  pose proof (field_get_var "ByLocation"
                (add_rule "Location → ByLocation" f0)) as H1.
  destruct (get_var "ByLocation" _) as [v1 f1].
  pose proof (field_get_var "Location" f1) as H2.
  destruct (get_var "Location" f1) as [v2 f2].
  simpl in *. by rewrite H2, H1, field_add_rule.
Qed.

Lemma generate_keeps fm cnf fm1 :
  field (reset_rules fm) = field fm →
  generate_rules_and_cnf fm = (Ok cnf, fm1) → field fm1 = field fm.
Proof.
  intros Hreset. unfold generate_rules_and_cnf.
  destruct (root (reset_rules fm)) as [r|]; [|done].
  pose proof (process_feature_keeps r (reset_rules fm, [])) as H1.
  destruct (process_feature r (reset_rules fm, [])) as [f1 c1].
  cbn [fst] in *.
  pose proof (constraint_steps_keep (constraints f1) (f1, c1)) as H2.
  destruct (fold_left constraint_step (constraints f1) (f1, c1)) as [f2 c2].
  intros Hgen. injection Hgen as _ <-. simpl in *. congruence.
Qed.

Lemma select_fold_keeps {O : Oracle} sel names st :
  field (fold_left (select_step sel) names st).1 = field st.1.
Proof.
  revert st. induction names as [|nm names IH]; intros [f0 s0]; simpl;
    [done|].
  rewrite IH. unfold select_step.
  pose proof (field_get_var nm f0) as H. destruct (get_var nm f0) as [v f1].
  by destruct (bool_decide _).
Qed.
End Keeps.

Lemma get_var_features nm fm : features (get_var nm fm).2 = features fm.
Proof. unfold get_var. by destruct (_ !! _). Qed.

Lemma get_var_root nm fm : root (get_var nm fm).2 = root fm.
Proof. unfold get_var. by destruct (_ !! _). Qed.

(** The message check reads the selection at the names and parents of
    the tree only. *)
Lemma check_feature_agree (sel sel' : gset pyname) (r : Feature) :
  (∀ f, f ∈ subfeatures r →
        (Some (name f) ∈ sel ↔ Some (name f) ∈ sel') ∧
        (parent f ∈ sel ↔ parent f ∈ sel')) →
  ∀ msgs, check_feature sel r msgs = check_feature sel' r msgs.
Proof.
  induction r as [nm m p cs g IH] using Feature_tree_ind.
  intros Hagree msgs. rewrite !check_feature_eq.
  set (f := mkFeature nm m p cs g) in *.
  destruct (Hagree f) as [Hname Hparent]; [left|].
  assert (∀ msgs, mandatory_check sel f msgs = mandatory_check sel' f msgs)
    as Hm.
  { intros ms. unfold mandatory_check.
    rewrite (bool_decide_ext _ _ Hparent).
    by rewrite (bool_decide_ext (Some (name f) ∉ sel)
                  (Some (name f) ∉ sel')) by (by rewrite Hname). }
  assert (List.filter (λ c, bool_decide (Some c ∈ sel))
            (map name (children f))
          = List.filter (λ c, bool_decide (Some c ∈ sel'))
              (map name (children f))) as Hfilter.
  { apply List.filter_ext_in. intros nc Hnc.
    apply in_map_iff in Hnc as (c & <- & Hc). apply bool_decide_ext.
    apply Hagree, child_subfeature. by apply list_elem_of_In. }
  assert (∀ msgs, group_check sel f msgs = group_check sel' f msgs) as Hg.
  { intros ms. unfold group_check.
    by rewrite (bool_decide_ext _ _ Hname), Hfilter. }
  rewrite Hm, Hg. change (children f) with cs.
  assert (∀ c, c ∈ cs → ∀ g0, g0 ∈ subfeatures c → g0 ∈ subfeatures f)
    as Hsub.
  { intros c Hc g0 Hg0. right. apply elem_of_flat_map. by exists c. }
  clearbody f. clear Hm Hg Hfilter Hname Hparent.
  generalize (group_check sel' f (mandatory_check sel' f msgs)).
  induction IH as [|c cs' Hc _ IHcs]; intros ms; simpl; [done|].
  rewrite Hc.
  - apply IHcs. intros c' Hc'. apply Hsub. by right.
  - intros g0 Hg0. apply Hagree, (Hsub c); [left|done].
Qed.

(** The verdict depends on the selection only through the names that
    are keys of the feature map: two selections that agree on those get
    the same [isValid] and leave the same state.  The messages are read
    off the tree: when the selections agree also on the names and parents
    of the tree and on ByLocation and Location, the whole answer is the
    same.  Any other name in the selection is ignored, not reported. *)
Theorem validate_ignores_unknown_names {O : Oracle} (fm : FeatureModel)
    (sel sel' : gset pyname) :
  (∀ nm, nm ∈ (features fm).*1 → Some nm ∈ sel ↔ Some nm ∈ sel') →
  (validate_selection fm sel).2 = (validate_selection fm sel').2 ∧
  (∀ v, (validate_selection fm sel).1 = Ok v →
        ∃ v', (validate_selection fm sel').1 = Ok v' ∧
              isValid v' = isValid v) ∧
  ((∀ x, x ∈ message_names fm → x ∈ sel ↔ x ∈ sel') →
   validate_selection fm sel = validate_selection fm sel').
Proof.
  intros Hagree. unfold validate_selection.
  destruct (generate_rules_and_cnf fm) as [[cnf|e] fm1] eqn:Hgen; [|done].
  pose proof (generate_keeps features get_var_features (λ _ _, eq_refl)
                fm cnf fm1 eq_refl Hgen) as Hfeat.
  pose proof (generate_keeps root get_var_root (λ _ _, eq_refl)
                fm cnf fm1 eq_refl Hgen) as Hroot.
  rewrite (select_fold_agree sel sel' (features fm1).*1 (fm1, load cnf)).
  2:{ apply Forall_forall. intros nm Hnm. apply Hagree. by rewrite <- Hfeat. }
  pose proof (select_fold_keeps root get_var_root sel'
                (features fm1).*1 (fm1, load cnf)) as Hroot2.
  destruct (fold_left (select_step sel') (features fm1).*1 (fm1, load cnf))
    as [fm2 s2].
  cbn [fst] in Hroot2.
  destruct (solve s2).1; simpl.
  - split; [done|]. split; [|done]. intros v [= <-]. by eexists.
  - unfold get_violation_messages, message_names.
    rewrite Hroot2, Hroot. destruct (root fm) as [r|]; [|done].
    split; [done|]. split; [intros v [= <-]; by eexists|].
    intros Hmsg. f_equal. f_equal. f_equal.
    assert (check_feature sel r [] = check_feature sel' r []) as ->.
    { apply check_feature_agree. intros f Hf.
      split; apply Hmsg, elem_of_app; left; apply elem_of_flat_map;
        exists f; (split; [done|]); [left|right; left]. }
    unfold cross_tree_check.
    rewrite (bool_decide_ext (Some "ByLocation" ∈ sel)
               (Some "ByLocation" ∈ sel')).
    2:{ apply Hmsg, elem_of_app. right. left. }
    rewrite (bool_decide_ext (Some "Location" ∉ sel)
               (Some "Location" ∉ sel')); [done|].
    assert (Some "Location" ∈ sel ↔ Some "Location" ∈ sel') as ->; [|done].
    apply Hmsg, elem_of_app. right. right. left.
Qed.

Lemma validate_ignores_unknown_names_witness :
  @validate_selection brute_force demo_model
    {[ Some "root"; Some "A"; Some "B"; Some "C" ]}
  = @validate_selection brute_force demo_model
      {[ Some "root"; Some "A"; Some "B"; Some "C"; Some "Typo" ]}.
Proof.
  assert (∀ x, x ≠ Some "Typo" →
            x ∈ ({[ Some "root"; Some "A"; Some "B"; Some "C" ]}
                 : gset pyname)
            ↔ x ∈ ({[ Some "root"; Some "A"; Some "B"; Some "C";
                      Some "Typo" ]} : gset pyname)) as Hsame.
  { intros x Hx. rewrite !elem_of_union, !elem_of_singleton. tauto. }
  apply (@validate_ignores_unknown_names brute_force demo_model).
  - intros nm Hnm. apply Hsame. intros [= ->]. revert Hnm.
    vm_compute. intros H. repeat (apply elem_of_cons in H as [[=]|H]).
    by apply elem_of_nil in H.
  - intros x Hx. apply Hsame. intros ->. revert Hx.
    vm_compute. intros H. repeat (apply elem_of_cons in H as [[=]|H]).
    by apply elem_of_nil in H.
Defined.

(** A name that is no feature can still reach the messages through the
    cross-tree check: ByLocation, unknown to [optional_model], does not
    change the verdict on a selection without the root, but it adds a
    message. *)
Lemma unknown_by_location_reported :
  (@validate_selection brute_force optional_model ∅).1
  = Ok {| isValid := false; messages := [] |} ∧
  (@validate_selection brute_force optional_model {[ Some "ByLocation" ]}).1
  = Ok {| isValid := false;
          messages := ["Location feature is required for ByLocation"] |}.
Proof. split; vm_compute; reflexivity. Qed.

(** ** Further properties: reading documents *)

Lemma elem_of_dict_set {V} (k : string) (v : V) (d : list (string * V)) e :
  e ∈ dict_set k v d → e = (k, v) ∨ e ∈ d.
Proof.
  induction d as [|[k' v'] d IH]; simpl.
  - intros ->%list_elem_of_singleton. by left.
  - destruct (String.eqb k' k).
    + intros [->|H]%elem_of_cons; [by left|right; by right].
    + intros [->|H]%elem_of_cons; [right; left|].
      destruct (IH H) as [->|?]; [by left|right; by right].
Qed.

Lemma dict_set_keys {V} (k : string) (v : V) (d : list (string * V)) k' :
  k' ∈ d.*1 → k' ∈ (dict_set k v d).*1.
Proof.
  induction d as [|[k0 v0] d IH]; simpl; [by intros ?%elem_of_nil|].
  destruct (String.eqb_spec k0 k) as [->|Hne]; simpl.
  - intros [->|H]%elem_of_cons; [left|by right].
  - intros [->|H]%elem_of_cons; [left|right; by apply IH].
Qed.

(** Whatever [register] keeps, the whole of [parse_feature] keeps,
    whether it returns or raises. *)
Section ParsePreserves.
Variable R : FeatureModel → FeatureModel → Prop.
Hypothesis R_refl : ∀ fm, R fm fm.
Hypothesis R_trans : ∀ fm1 fm2 fm3, R fm1 fm2 → R fm2 fm3 → R fm1 fm3.
Hypothesis R_register : ∀ nm f fm, R fm (register nm f fm).2.

Lemma parse_each_preserves rec only elems :
  Forall (λ c, ∀ fm, R fm (rec c fm).2) elems →
  ∀ acc fm, R fm (parse_each rec only elems acc fm).2.
Proof.
  induction 1 as [|c elems Hc _ IH]; intros acc fm; simpl; [done|].
  destruct (bool_decide _); [|apply IH]. unfold bind.
  pose proof (Hc fm) as H1. destruct (rec c fm) as [[cf|e] fm1]; [|done].
  eapply R_trans; [exact H1|apply IH].
Qed.

Lemma parse_group_preserves rec all elems :
  Forall (λ c, ∀ fm, R fm (rec c fm).2) all →
  Forall (λ g, Forall (λ c, ∀ fm, R fm (rec c fm).2) (subelements g)) elems →
  ∀ fm, R fm (parse_group rec all elems fm).2.
Proof.
  intros Hall. induction 1 as [|g elems Hg _ IH]; intros fm; simpl.
  - unfold bind.
    pose proof (parse_each_preserves rec (Some "feature") all Hall [] fm) as H.
    by destruct (parse_each rec (Some "feature") all [] fm) as [[cs|e] fm1].
  - destruct (String.eqb (tag g) "group"); [|apply IH].
    unfold bind, attr. destruct (attrib g !! "type") as [ty|]; simpl; [|done].
    pose proof (parse_each_preserves rec None (subelements g) Hg [] fm) as H.
    by destruct (parse_each rec None (subelements g) [] fm) as [[cs|e] fm1].
Qed.

Lemma parse_feature_preserves element :
  (∀ p fm, R fm (parse_feature element p fm).2) ∧
  Forall (λ c, ∀ p fm, R fm (parse_feature c p fm).2) (subelements element).
Proof.
  induction element as [t a tx subs IH] using Element_tree_ind.
  assert (Forall (λ c, ∀ p fm, R fm (parse_feature c p fm).2) subs) as Hsubs.
  { eapply Forall_impl; [exact IH|]. by intros c [? _]. }
  split; [|exact Hsubs]. intros p fm.
  remember (mkElement t a tx subs) as e eqn:He.
  assert (subelements e = subs) as Hse by by subst.
  clear He. rewrite parse_feature_eq, Hse. unfold attr, bind, ret, raise.
  destruct (attrib e !! "name") as [nm|]; [|done].
  pose proof (parse_group_preserves (λ c, parse_feature c (Some nm)) subs subs)
    as Hgroup.
  specialize (Hgroup ltac:(eapply Forall_impl; [exact Hsubs|]; intros c Hc;
                           apply Hc)).
  specialize (Hgroup ltac:(eapply Forall_impl; [exact IH|]; intros g [_ Hg];
                           eapply Forall_impl; [exact Hg|]; intros c Hc;
                           apply Hc) fm).
  destruct (parse_group _ subs subs fm) as [[[grp cs]|ex] fm1]; [|done].
  pose proof (R_register nm
    {| name := nm;
       mandatory := String.eqb
         (lower (default "false" (attrib e !! "mandatory"))) "true";
       parent := p; children := cs; group := grp |} fm1) as Hreg.
  destruct (register _ _ fm1) as [[u|ex] fm2]; by eapply R_trans.
Qed.
End ParsePreserves.

Lemma parse_feature_keys_grow element p fm :
  keys_grow fm (parse_feature element p fm).2.
Proof.
  apply (proj1 (parse_feature_preserves keys_grow
    ltac:(by intros ??) ltac:(intros ??? H1 H2 k Hk; by apply H2, H1)
    ltac:(intros nm f fm0 k Hk; simpl; by apply dict_set_keys) element)).
Qed.

Lemma parse_each_parsed p only elems :
  Forall (rec_parsed (λ c, parse_feature c p) p) elems →
  ∀ acc fm cs fm',
    parse_each (λ c, parse_feature c p) only elems acc fm = (Ok cs, fm') →
    ∃ new,
      cs = acc ++ new ∧
      Forall (λ c, parent c = p ∧ linked c = true) new ∧
      (∀ c g, c ∈ new → g ∈ subfeatures c → name g ∈ (features fm').*1) ∧
      keys_grow fm fm' ∧
      (∀ entry, entry ∈ features fm' →
         entry ∈ features fm ∨
         (entry.1 = name entry.2 ∧ ∃ c, c ∈ new ∧ entry.2 ∈ subfeatures c)).
Proof.
  induction 1 as [|c elems Hc _ IH]; intros acc fm cs fm'; simpl.
  { intros [= <- <-]. exists []. rewrite app_nil_r. split; [done|].
    split; [constructor|]. split; [by intros ?? ?%elem_of_nil|].
    split; [by intros ??|]. intros entry ?. by left. }
  destruct (bool_decide _); [|apply IH]. unfold bind.
  pose proof (parse_feature_keys_grow c p fm) as Hgrow1.
  destruct (parse_feature c p fm) as [[cf|e] fm1] eqn:Ec; [|done].
  destruct (Hc fm cf fm1 Ec) as (Hp & Hl & Hnames & Hentries).
  intros Hrest.
  destruct (IH _ _ _ _ Hrest) as (new & -> & Hall & Hn & Hgrow & Hent).
  exists (cf :: new). rewrite <- app_assoc. split; [done|].
  split; [by constructor|]. split; [|split].
  - intros c' g [->|Hc']%elem_of_cons Hg; [|by eapply Hn].
    by apply Hgrow, Hnames.
  - intros k Hk. by apply Hgrow, Hgrow1.
  - intros entry Hin. destruct (Hent entry Hin) as [H1|(Hk & c' & Hc' & Hv)].
    + destruct (Hentries entry H1) as [?|[Hk Hv]]; [by left|right].
      split; [done|]. exists cf. split; [left|done].
    + right. split; [done|]. exists c'. split; [by right|done].
Qed.

Lemma parse_group_parsed p all elems :
  Forall (rec_parsed (λ c, parse_feature c p) p) all →
  Forall (λ g, Forall (rec_parsed (λ c, parse_feature c p) p) (subelements g))
         elems →
  ∀ fm grp cs fm',
    parse_group (λ c, parse_feature c p) all elems fm = (Ok (grp, cs), fm') →
    Forall (λ c, parent c = p ∧ linked c = true) cs ∧
    (∀ c g, c ∈ cs → g ∈ subfeatures c → name g ∈ (features fm').*1) ∧
    keys_grow fm fm' ∧
    (∀ entry, entry ∈ features fm' →
       entry ∈ features fm ∨
       (entry.1 = name entry.2 ∧ ∃ c, c ∈ cs ∧ entry.2 ∈ subfeatures c)).
Proof.
  intros Hall. induction 1 as [|g elems Hg _ IH]; intros fm grp cs fm'; simpl.
  - unfold bind.
    destruct (parse_each _ (Some "feature") all [] fm) as [[cs0|e] fm1] eqn:E;
      [|done].
    intros [= <- <- <-].
    destruct (parse_each_parsed p _ all Hall _ _ _ _ E) as (new & -> & H).
    exact H.
  - destruct (String.eqb (tag g) "group"); [|apply IH].
    unfold bind, attr. destruct (attrib g !! "type") as [ty|]; simpl; [|done].
    destruct (parse_each _ None (subelements g) [] fm) as [[cs0|e] fm1] eqn:E;
      [|done].
    intros [= <- <- <-].
    destruct (parse_each_parsed p _ (subelements g) Hg _ _ _ _ E)
      as (new & -> & H).
    exact H.
Qed.

Lemma parse_feature_parsed element :
  (∀ p, rec_parsed (λ c, parse_feature c p) p element) ∧
  Forall (λ c, ∀ p, rec_parsed (λ c, parse_feature c p) p c)
         (subelements element).
Proof.
  induction element as [t a tx subs IH] using Element_tree_ind.
  assert (Forall (λ c, ∀ p, rec_parsed (λ c, parse_feature c p) p c) subs)
    as Hsubs.
  { eapply Forall_impl; [exact IH|]. by intros c [? _]. }
  split; [|exact Hsubs]. intros p fm f fm'.
  remember (mkElement t a tx subs) as e eqn:He.
  assert (subelements e = subs) as Hse by by subst.
  clear He. rewrite parse_feature_eq, Hse.
  unfold attr, bind, ret, raise, register.
  destruct (attrib e !! "name") as [nm|]; [|done].
  destruct (parse_group _ subs subs fm) as [[[grp cs]|ex] fm1] eqn:Eg; [|done].
  intros [= <- <-].
  assert (Forall (rec_parsed (λ c, parse_feature c (Some nm)) (Some nm)) subs)
    as H1.
  { eapply Forall_impl; [exact Hsubs|]. intros c Hc. apply Hc. }
  assert (Forall (λ g, Forall (rec_parsed (λ c, parse_feature c (Some nm))
                                 (Some nm)) (subelements g)) subs) as H2.
  { eapply Forall_impl; [exact IH|]. intros g [_ Hg].
    eapply Forall_impl; [exact Hg|]. intros c Hc. apply Hc. }
  destruct (parse_group_parsed (Some nm) subs subs H1 H2 fm grp cs fm1 Eg)
    as (Hall & Hnames & Hgrow & Hent).
  split; [done|]. split; [|split].
  - simpl. apply forallb_forall. intros c Hc%list_elem_of_In.
    rewrite Forall_forall in Hall. destruct (Hall c Hc) as [Hp Hl].
    by rewrite Hl, bool_decide_eq_true_2.
  - intros g Hg. simpl in *. apply elem_of_cons in Hg as [->|Hg].
    + apply dict_set_key.
    + apply elem_of_flat_map in Hg as (c & Hc & Hg).
      apply dict_set_keys. by eapply Hnames.
  - intros entry Hin. simpl in Hin.
    apply elem_of_dict_set in Hin as [->|Hin].
    + right. split; [done|]. simpl. left.
    + destruct (Hent entry Hin) as [?|(Hk & c & Hc & Hv)]; [by left|right].
      split; [done|]. simpl. right. apply elem_of_flat_map. by exists c.
Qed.

Lemma parse_constraints_features elems fm :
  features (parse_constraints elems fm).2 = features fm ∧
  root (parse_constraints elems fm).2 = root fm.
Proof.
  destruct (parse_constraints_frame elems fm) as (H1 & H2 & _). by split.
Qed.

(** A document read without error leaves a tree whose root has no
    parent and whose other features name their parent.  The feature map
    is the old one written with the features of the tree under their
    names, in the order their calls return: every name of the tree is a
    key, keys the map had stay, under a name stands the last feature read
    with it, and when the names of the tree are distinct every feature of
    the tree stands under its own name.  A map that was empty holds
    features of this tree only. *)
Theorem parse_xml_builds_linked_tree (document : option Element)
    (fm fm' : FeatureModel) :
  parse_xml document fm = (Ok (), fm') →
  ∃ r,
    root fm' = Some r ∧ parent r = None ∧ linked r = true ∧
    tree_registered fm' r ∧ keys_grow fm fm' ∧
    (features fm = [] → entries_of_tree fm' r) ∧
    features fm' = register_all (postorder r) (features fm) ∧
    (∀ k, dict_get k (features fm')
          = match last (filter (λ g, name g = k) (postorder r)) with
            | Some g => Some g
            | None => dict_get k (features fm)
            end) ∧
    (NoDup (name <$> subfeatures r) →
     ∀ f, f ∈ subfeatures r → dict_get (name f) (features fm') = Some f).
Proof.
  unfold parse_xml. destruct document as [doc|]; [|done].
  destruct (find "feature" doc) as [rf|]; [|done].
  unfold bind. destruct (parse_feature rf None fm) as [[f|e] fm1] eqn:Ep;
    [|done].
  destruct (proj1 (parse_feature_parsed rf) None fm f fm1 Ep)
    as (Hp & Hl & Hnames & Hent).
  pose proof (proj1 (parse_feature_registers rf) None fm f fm1 Ep) as Hmap.
  pose proof (parse_feature_keys_grow rf None fm) as Hgrow.
  rewrite Ep in Hgrow. unfold set_root. simpl in *.
  match goal with |- context [parse_constraints ?l ?fm0] =>
    destruct (parse_constraints_features l fm0) as (H1 & H2);
    destruct (parse_constraints l fm0) as [[u|e] fm2] end; [|done].
  simpl in *. intros [= _ <-]. exists f.
  split; [done|]. split; [done|]. split; [done|].
  rewrite H1, Hmap.
  split; [|split; [|split; [|split; [done|split]]]].
  - intros g Hg. rewrite H1. by apply Hnames.
  - intros k Hk. rewrite H1. by apply Hgrow.
  - intros Hempty. unfold entries_of_tree. rewrite H1.
    apply Forall_forall. intros entry Hin.
    destruct (Hent entry Hin) as [H|H]; [|done].
    rewrite Hempty in H. by apply elem_of_nil in H.
  - intros k. apply dict_get_register_all.
  - intros Hnd g Hg. apply dict_get_register_all_unique.
    + by rewrite (postorder_subfeatures f).
    + by rewrite (postorder_subfeatures f).
Qed.

Lemma parse_xml_builds_linked_tree_witness :
  ∃ r,
    root demo_model = Some r ∧ parent r = None ∧ linked r = true ∧
    tree_registered demo_model r ∧ keys_grow init demo_model ∧
    (features init = [] → entries_of_tree demo_model r) ∧
    features demo_model = register_all (postorder r) (features init) ∧
    (∀ k, dict_get k (features demo_model)
          = match last (filter (λ g, name g = k) (postorder r)) with
            | Some g => Some g
            | None => dict_get k (features init)
            end) ∧
    (NoDup (name <$> subfeatures r) →
     ∀ f, f ∈ subfeatures r → dict_get (name f) (features demo_model) = Some f).
Proof.
  apply (parse_xml_builds_linked_tree (Some demo_doc) init demo_model).
  vm_compute. reflexivity.
Defined.

(** With a name used twice the tree and the map differ: in
    [duplicate_doc] the mandatory A under the root is a feature of the
    tree, and the map has the optional A under B in its place. *)
Lemma duplicate_names_entry :
  mkFeature "A" true (Some "root") [] None
  ∈ subfeatures (default demo_root
                   (root (parse_xml (Some duplicate_doc) init).2)) ∧
  dict_get "A" (features (parse_xml (Some duplicate_doc) init).2)
  = Some (mkFeature "A" false (Some "B") [] None).
Proof.
  split; [|vm_compute; reflexivity].
  vm_compute. right. left.
Qed.

(** Reading a document never clears the model.  Whether it returns or
    raises, the keys of the feature map and the constraints already held
    stay (the new constraints come after them) and the registry is
    untouched.  Each constraint read is typed "requires" when its
    statement contains "required to" and "excludes" otherwise, so it will
    yield a clause exactly when the statement contains both "required to"
    and "filter". *)
Theorem parse_xml_accumulates (document : option Element) (fm : FeatureModel) :
  keys_grow fm (parse_xml document fm).2 ∧
  (∃ new,
     constraints (parse_xml document fm).2 = constraints fm ++ new ∧
     Forall (λ c, type c = if str_in "required to" (englishStatement c)
                           then "requires" else "excludes") new ∧
     Forall (λ c, qualifies c = str_in "required to" (englishStatement c)
                                && str_in "filter" (englishStatement c)) new) ∧
  var_map (parse_xml document fm).2 = var_map fm ∧
  reverse_map (parse_xml document fm).2 = reverse_map fm ∧
  next_var (parse_xml document fm).2 = next_var fm.
Proof.
  assert (∀ fm0, keys_grow fm0 fm0 ∧
    (∃ new, constraints fm0 = constraints fm0 ++ new ∧
       Forall (λ c, type c = if str_in "required to" (englishStatement c)
                             then "requires" else "excludes") new ∧
       Forall (λ c, qualifies c = str_in "required to" (englishStatement c)
                                  && str_in "filter" (englishStatement c)) new) ∧
    var_map fm0 = var_map fm0 ∧ reverse_map fm0 = reverse_map fm0 ∧
    next_var fm0 = next_var fm0) as Hsame.
  { intros fm0. split; [by intros ??|]. split; [|done].
    exists []. by rewrite app_nil_r. }
  unfold parse_xml. destruct document as [doc|]; [|apply Hsame].
  destruct (find "feature" doc) as [rf|]; [|apply Hsame].
  unfold bind.
  pose proof (parse_feature_keys_grow rf None fm) as Hgrow.
  destruct (proj1 (parse_feature_spec rf) None fm)
    as [(Hcs & _ & Hvm & Hrm & Hnv & _) _].
  destruct (parse_feature rf None fm) as [[f|e] fm1]; simpl in *.
  2:{ split; [done|]. split; [|done]. exists []. by rewrite app_nil_r, Hcs. }
  match goal with |- context [parse_constraints ?l ?fm0] =>
    destruct (parse_constraints_frame l fm0) as (H1 & _ & H3 & H4 & H5);
    destruct (parse_constraints_types l fm0) as (new & Hnew & Htypes) end.
  simpl in *. split; [|split; [|by rewrite H3, H4, H5]].
  - intros k Hk. rewrite H1. by apply Hgrow.
  - exists new. rewrite Hnew, Hcs. split; [done|]. split; [done|].
    eapply Forall_impl; [exact Htypes|]. intros c Hty. unfold qualifies.
    rewrite Hty. by destruct (str_in "required to" (englishStatement c)).
Qed.

(** ** Further properties: the enumerator *)

Lemma true_var_in_product fm model nm v :
  registry_ok fm → var_map fm !! nm = Some v → v ∈ model →
  Some nm ∈ product_of fm model.
Proof.
  intros Hok Hv Hin. destruct (registered_var _ _ _ Hok Hv) as (_ & Hr & Hn).
  apply elem_of_product_of. exists v. split; [done|]. split; [lia|done].
Qed.

Lemma product_var_true fm model nm v :
  registry_ok fm → var_map fm !! nm = Some v →
  Some nm ∈ product_of fm model → v ∈ model.
Proof.
  intros Hok Hv (x & Hx & Hpos & Hname)%elem_of_product_of.
  destruct Hok as (_ & _ & Hbw & _).
  assert (var_map fm !! nm = Some x) as Hx'.
  { apply Hbw. unfold get_name in Hname. by rewrite Z.abs_eq in Hname by lia. }
  congruence.
Qed.

Lemma product_all_named fm cnf model :
  registry_ok fm →
  (∀ c l, c ∈ cnf → l ∈ c → 1 ≤ Z.abs l < next_var fm) →
  full_model (nof_vars cnf) model → None ∉ product_of fm model.
Proof.
  intros Hok Hlits Hfull (x & Hx & Hpos & Hname)%elem_of_product_of.
  pose proof (full_model_elem _ _ _ Hfull Hx) as Hr.
  pose proof (nof_vars_below fm cnf Hok Hlits) as Hbelow.
  destruct Hok as (_ & _ & _ & Hden).
  destruct (Hden x) as [nm Hnm]; [lia|].
  unfold get_name in Hname. rewrite Z.abs_eq in Hname by lia. congruence.
Qed.

Lemma product_of_mono fm m0 m :
  (∀ v, 0 < v → v ∈ m0 → v ∈ m) → product_of fm m0 ⊆ product_of fm m.
Proof.
  intros Hsub x (v & Hv & Hpos & ->)%elem_of_product_of.
  apply elem_of_product_of. exists v. split; [by apply Hsub|done].
Qed.

(** The check of [find_mwps] on a candidate never fails on the product
    of a model of the compiled clauses, when the feature map holds
    features of the tree only. *)
Lemma is_valid_mwp_of_model fm r cnf fm1 model :
  registry_ok fm → root fm = Some r → entries_of_tree fm r →
  generate_rules_and_cnf fm = (Ok cnf, fm1) →
  full_model (nof_vars cnf) model → models model cnf = true →
  is_valid_mwp fm1 (product_of fm1 model) = true.
Proof.
  intros Hok Hroot Hentries Hgen Hfull Hsat.
  destruct (generate_spec fm r Hok Hroot)
    as (cnf' & fm1' & Hgen' & Hok1 & Hext & Hreg & Hcnf).
  rewrite Hgen in Hgen'. injection Hgen' as <- <-.
  specialize (Hcnf fm1 (extends_refl _)).
  assert (∀ c l, c ∈ cnf → l ∈ c → 1 ≤ Z.abs l < next_var fm1) as Hlits.
  { intros c l Hc Hl. rewrite Hcnf in Hc. by eapply compiled_lits. }
  rewrite Forall_forall in Hreg. rewrite models_iff in Hsat.
  unfold is_valid_mwp. apply forallb_forall. intros [nm f] Hin%list_elem_of_In.
  assert (features fm1 = features fm) as Hfeat by apply Hext.
  rewrite Hfeat in Hin. unfold entries_of_tree in Hentries.
  rewrite Forall_forall in Hentries.
  destruct (Hentries _ Hin) as [Hnm Hf]. simpl in Hnm, Hf. subst nm.
  apply negb_true_iff, not_true_iff_false.
  intros [[Hmand Hp%bool_decide_eq_true]%andb_true_iff
          Hn%bool_decide_eq_true]%andb_true_iff.
  apply Hn. clear Hn.
  destruct (Hreg (name f)) as [vf Hvf].
  { apply elem_of_app. left. apply (own_names_sub r f); [done|left]. }
  destruct (registered_var _ _ _ Hok1 Hvf) as (HVf & _).
  apply (true_var_in_product fm1 model (name f) vf Hok1 Hvf).
  destruct (parent f) as [p|] eqn:Eparent.
  - destruct (decide (p = "")) as [->|Hne].
    + assert (clause_holds model [vf] = true) as H.
      { apply Hsat. rewrite Hcnf, <- HVf. apply elem_of_app. left.
        apply root_clause_in; [done|]. by rewrite Eparent. }
      by apply clause_holds_iff in H as (l & ->%list_elem_of_singleton & Hl).
    + destruct (Hreg p) as [vp Hvp].
      { apply elem_of_app. left. apply (own_names_sub r f); [done|].
        right. apply elem_of_app. left. unfold edge_names.
        rewrite Eparent. simpl. destruct p; [done|left]. }
      destruct (registered_var _ _ _ Hok1 Hvp) as (HVp & _).
      pose proof (product_var_true fm1 model p vp Hok1 Hvp Hp) as Hvpm.
      assert (clause_holds model [- vp; vf] = true) as H.
      { apply Hsat. rewrite Hcnf, <- HVf, <- HVp. apply elem_of_app. left.
        by apply mandatory_clause_in. }
      apply clause_holds_iff in H as (l & Hl & Hlm).
      apply elem_of_cons in Hl as [->|Hl].
      * destruct (full_model_consistent _ _ vp Hfull Hvpm Hlm).
      * by apply list_elem_of_singleton in Hl as ->.
  - by destruct (product_all_named fm1 cnf model Hok1 Hlits Hfull).
Qed.

Lemma forallb_false_exists {A} (f : A → bool) (l : list A) :
  forallb f l = false → ∃ x, x ∈ l ∧ f x = false.
Proof.
  induction l as [|y l IH]; simpl; [done|].
  destruct (f y) eqn:E; simpl.
  - intros (x & Hx & Hf)%IH. exists x. split; [by right|done].
  - intros _. exists y. split; [left|done].
Qed.

Lemma filter_minimal_survivor (mwps : list (gset pyname)) (p : gset pyname) :
  p ∈ filter_minimal_mwps mwps ↔
  p ∈ mwps ∧ ∀ other, other ∈ mwps → ¬ other ⊂ p.
Proof.
  unfold filter_minimal_mwps.
  rewrite list_elem_of_In, filter_In, <- list_elem_of_In, negb_true_iff.
  rewrite <- not_true_iff_false, has_strict_subset_iff, Exists_exists.
  split; intros [Hin Hno]; (split; [done|]).
  - intros o Ho Hsub. apply Hno. eauto.
  - intros (o & Ho & Hsub). by apply (Hno o).
Qed.

Lemma filter_minimal_below (mwps : list (gset pyname)) (p : gset pyname) :
  p ∈ mwps → ∃ p', p' ∈ filter_minimal_mwps mwps ∧ p' ⊆ p.
Proof.
  remember (size p) as n eqn:Hn. revert p Hn.
  induction n as [n IH] using lt_wf_ind. intros p Hn Hin.
  destruct (existsb (λ other, bool_decide (other ≠ p)
                              && bool_decide (other ⊆ p)) mwps) eqn:E.
  - apply has_strict_subset_iff, Exists_exists in E as (o & Ho & Hsub).
    destruct (IH (size o)) with (p := o) as (p' & Hp' & Hle); [|done..|].
    { subst n. by apply subset_size. }
    exists p'. split; [done|]. etrans; [exact Hle|]. by apply strict_include.
  - exists p. split; [|done]. apply filter_minimal_survivor. split; [done|].
    intros o Ho Hsub.
    assert (Exists (λ other, other ⊂ p) mwps) as Hex.
    { apply Exists_exists. eauto. }
    apply has_strict_subset_iff in Hex. congruence.
Qed.

Section Exactness.
Context {O : Oracle} {L : OracleLaws O}.

Lemma enumerate_covers fm cnf :
  (∀ model, full_model (nof_vars cnf) model → models model cnf = true →
            is_valid_mwp fm (product_of fm model) = true) →
  ∀ fuel s mwps res extra,
    added s = cnf ++ extra → nof_vars (added s) = nof_vars cnf →
    Forall (λ c, ∃ m0, full_model (nof_vars cnf) m0 ∧ models m0 cnf = true ∧
                       c = blocking_clause m0 ∧ product_of fm m0 ∈ mwps)
           extra →
    enumerate fuel fm s mwps = Some res →
    ∀ model, full_model (nof_vars cnf) model → models model cnf = true →
      ∃ m0, full_model (nof_vars cnf) m0 ∧ models m0 cnf = true ∧
            product_of fm m0 ∈ res ∧ ∀ v, 0 < v → v ∈ m0 → v ∈ model.
Proof.
  intros Hvalid. induction fuel as [|fuel IH];
    intros s mwps res extra Hadd Hn Hextra; [done|].
  destruct (solve s).1 eqn:E.
  - rewrite (enumerate_step _ _ _ _ E).
    destruct (solve_sound s E) as [Hfull Hsat].
    set (m1 := get_model (solve s).2) in *.
    assert (full_model (nof_vars cnf) m1) as Hfull1 by by rewrite <- Hn.
    assert (models m1 cnf = true) as Hsat1.
    { rewrite Hadd, models_app in Hsat. by apply andb_true_iff in Hsat as [? _]. }
    rewrite (Hvalid m1 Hfull1 Hsat1).
    apply (IH _ _ _ (extra ++ [blocking_clause m1])).
    + by rewrite added_add_clause, added_solve, Hadd, app_assoc.
    + rewrite added_add_clause, added_solve. by rewrite nof_vars_blocking.
    + apply Forall_app. split.
      * eapply Forall_impl; [exact Hextra|].
        intros c (m0 & ? & ? & ? & ?). exists m0. repeat split; try done.
        apply elem_of_app. by left.
      * constructor; [|constructor]. exists m1. repeat split; try done.
        apply elem_of_app. right. left.
  - rewrite (enumerate_stop _ _ _ _ E). intros [= <-] model Hfull Hsat.
    pose proof (solve_complete s E) as Hunsat.
    destruct (models model extra) eqn:Eextra.
    + destruct Hunsat. exists model. rewrite Hn. split; [done|].
      by rewrite Hadd, models_app, Hsat, Eextra.
    + apply forallb_false_exists in Eextra as (c & Hc & Hfalse).
      rewrite Forall_forall in Hextra.
      destruct (Hextra c Hc) as (m0 & Hfull0 & Hsat0 & -> & Hin).
      exists m0. repeat split; try done.
      by apply (blocking_clause_falsified (nof_vars cnf) m0 model).
Qed.
End Exactness.

(** The enumerator returns exactly the subset-minimal products: a set of
    names is returned if and only if it is the product of a model of the
    compiled clauses and no model has a strictly smaller product.  (The
    feature map holds features of the tree only, as after reading one
    document.) *)
Theorem find_mwps_exactly_minimal {O : Oracle} (L : OracleLaws O)
    (fm : FeatureModel) (r : Feature) (fuel : nat)
    (mwps : list (gset pyname)) (fm1 : FeatureModel) :
  registry_ok fm → root fm = Some r → entries_of_tree fm r →
  find_mwps fuel fm = Some (Ok mwps, fm1) →
  ∃ cnf,
    generate_rules_and_cnf fm = (Ok cnf, fm1) ∧
    ∀ p, p ∈ mwps ↔
         (∃ model, full_model (nof_vars cnf) model ∧
                   models model cnf = true ∧ p = product_of fm1 model) ∧
         (∀ model, full_model (nof_vars cnf) model →
                   models model cnf = true → ¬ product_of fm1 model ⊂ p).
Proof.
  intros Hok Hroot Hentries Hfind. unfold find_mwps in Hfind.
  destruct (generate_rules_and_cnf fm) as [[cnf|e] fm'] eqn:Hgen; [|done].
  destruct (enumerate fuel fm' (load cnf) []) as [res|] eqn:Hen; [|done].
  injection Hfind as <- <-. exists cnf. split; [done|].
  pose proof (λ m, is_valid_mwp_of_model fm r cnf fm' m Hok Hroot Hentries Hgen)
    as Hvalid.
  assert (Forall (λ p, ∃ model, full_model (nof_vars cnf) model ∧
                         models model cnf = true ∧ p = product_of fm' model)
                 res) as Hfound.
  { apply (enumerate_found _ fm' cnf) with (fuel := fuel) (s := load cnf)
      (mwps := []); [by eauto| |by rewrite added_load|constructor|done].
    exists []. by rewrite added_load, app_nil_r. }
  rewrite Forall_forall in Hfound.
  pose proof (enumerate_covers fm' cnf Hvalid fuel (load cnf) [] res []
    ltac:(by rewrite added_load, app_nil_r) ltac:(by rewrite added_load)
    ltac:(constructor) Hen) as Hcovers.
  intros p. rewrite filter_minimal_survivor. split.
  - intros [Hin Hmin]. split; [by apply Hfound|].
    intros model Hfull Hsat Hsub.
    destruct (Hcovers model Hfull Hsat) as (m0 & _ & _ & Hm0 & Hbelow).
    apply (Hmin _ Hm0).
    eapply strict_trans_r; [|exact Hsub]. by apply product_of_mono.
  - intros [(model & Hfull & Hsat & ->) Hmin].
    destruct (Hcovers model Hfull Hsat) as (m0 & Hfull0 & Hsat0 & Hm0 & Hbelow).
    assert (product_of fm' m0 = product_of fm' model) as Heq.
    { apply (anti_symm (⊆)); [by apply product_of_mono|].
      destruct (decide (product_of fm' model ⊆ product_of fm' m0)); [done|].
      destruct (Hmin m0 Hfull0 Hsat0). split; [by apply product_of_mono|done]. }
    rewrite <- Heq. split; [done|].
    intros o Ho Hsub. rewrite Heq in Hsub.
    destruct (Hfound o Ho) as (mo & Hfo & Hso & ->).
    by apply (Hmin mo).
Qed.

Lemma demo_entries : entries_of_tree demo_model demo_root.
Proof.
  unfold entries_of_tree.
  assert (features demo_model
          = [("B", demo_B); ("C", demo_C); ("A", demo_A); ("D", demo_D);
             ("root", demo_root)]) as -> by (vm_compute; reflexivity).
  repeat constructor.
Qed.

Lemma find_mwps_exactly_minimal_witness :
  ∃ cnf,
    generate_rules_and_cnf demo_model = (Ok cnf, demo_found.2) ∧
    ∀ p, p ∈ demo_found.1 ↔
         (∃ model, full_model (nof_vars cnf) model ∧
                   models model cnf = true ∧
                   p = product_of demo_found.2 model) ∧
         (∀ model, full_model (nof_vars cnf) model →
                   models model cnf = true →
                   ¬ product_of demo_found.2 model ⊂ p).
Proof.
  apply (find_mwps_exactly_minimal brute_force_laws demo_model demo_root 20).
  - exact demo_registry_ok.
  - exact demo_root_eq.
  - exact demo_entries.
  - vm_compute. reflexivity.
Defined.

(** The products found on [demo_doc]: {root, A, C} and {root, A, B}. *)
Lemma demo_found_products :
  demo_found.1 = [ {[ Some "root"; Some "A"; Some "C" ]};
                   {[ Some "root"; Some "A"; Some "B" ]} ].
Proof. vm_compute. reflexivity. Qed.

(** The check [is_valid_mwp] inside the loop is redundant after one
    document: with only features of the tree in the feature map, the
    product of every model of the compiled clauses passes it, so no
    candidate the solver finds is dropped before the minimality filter. *)
Theorem mandatory_recheck_never_discards (fm : FeatureModel) (r : Feature)
    (cnf : CNF) (fm1 : FeatureModel) (model : list Z) :
  registry_ok fm → root fm = Some r → entries_of_tree fm r →
  generate_rules_and_cnf fm = (Ok cnf, fm1) →
  full_model (nof_vars cnf) model → models model cnf = true →
  is_valid_mwp fm1 (product_of fm1 model) = true ∧
  None ∉ product_of fm1 model.
Proof.
  intros Hok Hroot Hentries Hgen Hfull Hsat.
  split; [by eapply is_valid_mwp_of_model|].
  destruct (generate_spec fm r Hok Hroot)
    as (cnf' & fm1' & Hgen' & Hok1 & Hext & Hreg & Hcnf).
  rewrite Hgen in Hgen'. injection Hgen' as <- <-.
  apply (product_all_named fm1 cnf model Hok1); [|done].
  intros c l Hc Hl. rewrite (Hcnf fm1 (extends_refl _)) in Hc.
  by eapply compiled_lits.
Qed.

Lemma mandatory_recheck_never_discards_witness :
  is_valid_mwp (generate_rules_and_cnf demo_model).2
    (product_of (generate_rules_and_cnf demo_model).2
       [1; 2; 3; -4; -5; -6; -7]) = true ∧
  None ∉ product_of (generate_rules_and_cnf demo_model).2
           [1; 2; 3; -4; -5; -6; -7].
Proof.
  apply (mandatory_recheck_never_discards demo_model demo_root
           [[1]; [-1; 2]; [-2; 1]; [-2; 3; 4]; [-3; -4]; [-3; 2]; [-4; 2];
            [-5; 1]; [-6; 7]]).
  - exact demo_registry_ok.
  - exact demo_root_eq.
  - exact demo_entries.
  - vm_compute. reflexivity.
  - vm_compute. reflexivity.
  - reflexivity.
Defined.

(** After a second document the feature map still holds the features of
    the first, and the check does discard: with M, a mandatory child of
    root, left over from the first document, the only product {root} of a
    document that has the root alone is dropped, and nothing is
    returned. *)
Lemma stale_features_discard_products :
  (features reread_model).*1 = ["M"; "root"] ∧
  (generate_rules_and_cnf reread_model).1 = Ok [[1]] ∧
  is_valid_mwp reread_model {[ Some "root" ]} = false ∧
  fst <$> @find_mwps brute_force 3 reread_model = Some (Ok []).
Proof. repeat split; vm_compute; reflexivity. Qed.

Lemma length_signings vs : length (signings vs) = (2 ^ length vs)%nat.
Proof.
  induction vs as [|v vs IH]; simpl; [done|].
  rewrite length_app, !length_map, IH. lia.
Qed.

(** The loop of [find_mwps] needs at most [2 ^ n] successful [solve]
    calls, [n] the number of variables of the compiled clauses: with more
    fuel than that the enumerator returns. *)
Theorem find_mwps_within_bound {O : Oracle} (L : OracleLaws O)
    (fm : FeatureModel) (cnf : CNF) (fm1 : FeatureModel) (fuel : nat) :
  generate_rules_and_cnf fm = (Ok cnf, fm1) →
  (2 ^ Z.to_nat (nof_vars cnf) < fuel)%nat →
  ∃ mwps, find_mwps fuel fm = Some (Ok mwps, fm1).
Proof.
  intros Hgen Hfuel. unfold find_mwps. rewrite Hgen.
  destruct (enumerate_terminates fm1 fuel (load cnf) []) as [res Hres].
  - rewrite added_load.
    eapply Nat.le_lt_trans; [apply filter_length_le|].
    unfold all_models. by rewrite length_signings, length_seqZ.
  - rewrite Hres. by eexists.
Qed.

Lemma find_mwps_within_bound_witness :
  ∃ mwps, @find_mwps brute_force 5 optional_model
          = Some (Ok mwps, (generate_rules_and_cnf optional_model).2).
Proof.
  apply (find_mwps_within_bound brute_force_laws optional_model
           [[1]; [-2; 1]]).
  - vm_compute. reflexivity.
  - vm_compute. lia.
Defined.

(** Compiling, enumerating and validating keep the model: the feature
    map, the constraints and the root are as before, the registry stays a
    bijection, and every name keeps the number it had. *)
Theorem operations_keep_the_model {O : Oracle} (L : OracleLaws O)
    (fm : FeatureModel) (r : Feature) :
  registry_ok fm → root fm = Some r →
  (∃ cnf fm', generate_rules_and_cnf fm = (Ok cnf, fm') ∧
              registry_ok fm' ∧ extends fm fm') ∧
  (∀ fuel out fm', find_mwps fuel fm = Some (out, fm') →
                   registry_ok fm' ∧ extends fm fm') ∧
  (∀ sel, ∃ v fm', validate_selection fm sel = (Ok v, fm') ∧
                   registry_ok fm' ∧ extends fm fm').
Proof.
  intros Hok Hroot.
  destruct (generate_spec fm r Hok Hroot)
    as (cnf & fm1 & Hgen & Hok1 & Hext1 & _).
  split; [by exists cnf, fm1|]. split.
  - intros fuel out fm'. unfold find_mwps. rewrite Hgen.
    destruct (enumerate fuel fm1 (load cnf) []); [|done].
    by intros [= _ <-].
  - intros sel.
    destruct (validate_selection_spec fm r sel Hok Hroot)
      as (cnf' & fm1' & fm2 & b & _ & _ & Hext & _ & _ & Hok2 & Hext2 & _ & _
          & Hval).
    eexists _, fm2. split; [exact Hval|]. split; [done|].
    by eapply extends_trans.
Qed.

Lemma operations_keep_the_model_witness :
  ∃ v fm', @validate_selection brute_force demo_model {[ Some "root" ]}
           = (Ok v, fm') ∧
           registry_ok fm' ∧ extends demo_model fm'.
Proof.
  exact (proj2 (proj2 (operations_keep_the_model brute_force_laws demo_model
                         demo_root demo_registry_ok demo_root_eq))
               {[ Some "root" ]}).
Defined.
